(** * resolvelib: the resolution engine of [resolvers.py]

    A shallow embedding of [src/resolvelib/resolvers.py] and the properties
    its specification states about it.

    Modelling conventions.

    - Requirements, candidates, identifiers and preferences are opaque values
      owned by the provider; they are type parameters.  A [Candidate] is a
      candidate _object_: Leibniz equality on [Candidate] is Python's object
      identity ([is], [id()]), while [Candidate_eqb] is the value equality
      [==] of the provider's candidate class ([c != d] is its negation).
    - Python dictionaries ([State.mapping], an [OrderedDict], and
      [State.criteria], a [dict]) are insertion-ordered association lists:
      [popitem], [min] and the iteration over [items()] depend on the order.
    - The history [Resolution._states] is a Python list used as a stack; it is
      a Rocq list whose HEAD is the last Python element [self._states[-1]].
    - Exceptions are values of [exn]; a method is a function from the state
      it may mutate to an [outcome] and the state it leaves behind, so that a
      mutation made before an exception was raised is still visible to the
      handler, as in Python.
    - The provider's callbacks are total pure functions ("callbacks that
      return normally"); the reporter is observational and is modelled by
      the log of the calls it received.
    - The interpreter bounds the depth of recursion; the bound is a
      parameter of the result builder, the only recursive function. *)

From Stdlib Require Import List ZArith Bool String Lia.
Import ListNotations.
Open Scope string_scope.
Open Scope list_scope.

(** ** Insertion-ordered dictionaries *)

Module Dict.
Section Dict.
Context {Key V : Type}.
Variable eq_dec : forall x y : Key, {x = y} + {x <> y}.

Definition t := list (Key * V).

(** [d[k]]; [None] stands for [KeyError]. *)
Fixpoint getitem (k : Key) (d : t) : option V :=
  match d with
  | [] => None
  | (k', v) :: d' => if eq_dec k k' then Some v else getitem k d'
  end.

(** [d[k] = v]: an existing key keeps its position, a new key goes last. *)
Fixpoint setitem (k : Key) (v : V) (d : t) : t :=
  match d with
  | [] => [(k, v)]
  | (k', v') :: d' =>
      if eq_dec k k' then (k, v) :: d' else (k', v') :: setitem k v d'
  end.

(** [k in d] *)
Definition contains (k : Key) (d : t) : bool :=
  match getitem k d with Some _ => true | None => false end.

(** [d.pop(k, None)], the returned value dropped. *)
Definition pop (k : Key) (d : t) : t :=
  filter (fun kv => if eq_dec k (fst kv) then false else true) d.

(** [d.popitem()]: removes and returns the entry inserted last;
    [None] stands for the [KeyError] of an empty dictionary. *)
Definition popitem (d : t) : option ((Key * V) * t) :=
  match rev d with
  | [] => None
  | kv :: r => Some (kv, rev r)
  end.

(** [d.clear()] *)
Definition clear (d : t) : t := [].

(** [d.update(other)] *)
Definition update (d other : t) : t :=
  fold_left (fun acc kv => setitem (fst kv) (snd kv) acc) other d.

Definition keys (d : t) : list Key := map fst d.

(** The representation invariant of a Python dictionary. *)
Definition wf (d : t) : Prop := NoDup (keys d).
End Dict.
End Dict.

(** ** Data model *)

Section Resolvers.
Context {Requirement Candidate Identifier Preference : Type}.

(** Identifiers are dictionary keys: hashable, compared by value. *)
Variable Identifier_eq_dec : forall x y : Identifier, {x = y} + {x <> y}.
(** Object identity of candidates, as used through [id()]. *)
Variable Candidate_is : forall x y : Candidate, {x = y} + {x <> y}.
(** [c == d] on candidates. *)
Variable Candidate_eqb : Candidate -> Candidate -> bool.
(** [a < b] on the values returned by [get_preference]. *)
Variable Preference_ltb : Preference -> Preference -> bool.

(** [parent] is a candidate or [None], the marker of a root requirement. *)
Record RequirementInformation := {
  requirement : Requirement;
  parent : option Candidate
}.

Record Criterion := {
  candidates : list Candidate;
  information : list RequirementInformation;
  incompatibilities : list Candidate
}.

Record State := {
  mapping : Dict.t (Key:=Identifier) (V:=Candidate);
  criteria : Dict.t (Key:=Identifier) (V:=Criterion)
}.

(** The exceptions that occur in the module: its own classes and the
    built-in ones raised by the operations it performs. *)
Inductive exn :=
| RequirementsConflicted (criterion : Criterion)
| ResolutionImpossible (requirements : list Requirement)
| ResolutionTooDeep (round_count : Z)
| AttributeError (name : string)
| KeyError
| IndexError
| RuntimeError (msg : string)
| RecursionError.

(** [issubclass(type(e), ResolverException)] *)
Definition is_ResolverException (e : exn) : bool :=
  match e with
  | RequirementsConflicted _ | ResolutionImpossible _ | ResolutionTooDeep _ => true
  | _ => false
  end.

(** [issubclass(type(e), ResolutionError)] *)
Definition is_ResolutionError (e : exn) : bool :=
  match e with
  | ResolutionImpossible _ | ResolutionTooDeep _ => true
  | _ => false
  end.

Inductive outcome (A : Type) :=
| Return (a : A)
| Raise (e : exn).
#[global] Arguments Return {A} a.
#[global] Arguments Raise {A} e.

(** The provider contract. *)
Record Provider := {
  identify : Requirement -> Identifier;
  get_preference :
    option Candidate -> list Candidate -> list RequirementInformation -> Preference;
  find_matches : Requirement -> list Candidate;
  is_satisfied_by : Requirement -> Candidate -> bool;
  get_dependencies : Candidate -> list Requirement
}.

Variable p : Provider.

(** ** Criterion *)

Definition from_requirement (requirement : Requirement) (parent : option Candidate)
  : outcome Criterion :=
  Return {| candidates := find_matches p requirement;
            information := [ {| requirement := requirement; parent := parent |} ];
            incompatibilities := [] |}.

Definition iter_requirement (self : Criterion) : list Requirement :=
  map requirement (information self).

Definition iter_parent (self : Criterion) : list (option Candidate) :=
  map parent (information self).

(** [not candidates] on a list *)
Definition is_empty {A : Type} (l : list A) : bool :=
  match l with [] => true | _ :: _ => false end.

Definition merged_with (self : Criterion) (requirement : Requirement)
    (parent : option Candidate) : outcome Criterion :=
  let infos := information self
               ++ [ {| requirement := requirement; parent := parent |} ] in
  let candidates :=
    filter (fun c => is_satisfied_by p requirement c) (candidates self) in
  if is_empty candidates then Raise (RequirementsConflicted self)
  else Return {| candidates := candidates;
                 information := infos;
                 incompatibilities := incompatibilities self |}.

Definition excluded_of (self : Criterion) (candidate : Candidate)
  : outcome Criterion :=
  let incompats := incompatibilities self ++ [candidate] in
  let candidates :=
    filter (fun c => negb (Candidate_eqb c candidate)) (candidates self) in
  if is_empty candidates then Raise (RequirementsConflicted self)
  else Return {| candidates := candidates;
                 information := information self;
                 incompatibilities := incompats |}.

(** ** Methods as state transformers *)

Definition M (S A : Type) : Type := S -> outcome A * S.

Definition ret {S A : Type} (a : A) : M S A := fun s => (Return a, s).

Definition raise {S A : Type} (e : exn) : M S A := fun s => (Raise e, s).

Definition bind {S A B : Type} (m : M S A) (f : A -> M S B) : M S B :=
  fun s =>
    match m s with
    | (Return a, s') => f a s'
    | (Raise e, s') => (Raise e, s')
    end.

(** A pure computation that may raise, run inside a method. *)
Definition lift_outcome {S A : Type} (o : outcome A) : M S A :=
  fun s => (o, s).

(** [try: body  except RequirementsConflicted as e: handler(e.criterion)] *)
Definition try_except_conflicted {S A : Type} (body : M S A)
    (handler : Criterion -> M S A) : M S A :=
  fun s =>
    match body s with
    | (Raise (RequirementsConflicted c), s') => handler c s'
    | r => r
    end.

Notation "x <- c1 ;; c2" := (bind c1 (fun x => c2))
  (at level 61, c1 at next level, right associativity).
Notation "c1 ;; c2" := (bind c1 (fun _ => c2))
  (at level 61, right associativity).

(** *** The state stack *)

Definition Stack := list State.

(** The property [Resolution.state]. *)
Definition state : M Stack State :=
  fun states =>
    match states with
    | [] => (Raise (AttributeError "state"), states)
    | s :: _ => (Return s, states)
    end.

(** In-place mutation of the two dictionaries of [self.state]. *)
Definition set_criteria (f : Dict.t -> Dict.t) : M Stack unit :=
  fun states =>
    match states with
    | [] => (Raise (AttributeError "state"), states)
    | s :: rest =>
        (Return tt, {| mapping := mapping s; criteria := f (criteria s) |} :: rest)
    end.

Definition set_mapping (f : Dict.t -> Dict.t) : M Stack unit :=
  fun states =>
    match states with
    | [] => (Raise (AttributeError "state"), states)
    | s :: rest =>
        (Return tt, {| mapping := f (mapping s); criteria := criteria s |} :: rest)
    end.

(** [del self._states[-1]] *)
Definition del_last : M Stack unit :=
  fun states =>
    match states with
    | [] => (Raise IndexError, states)
    | _ :: rest => (Return tt, rest)
    end.

Definition _push_new_state : M Stack unit :=
  fun states =>
    match states with
    | [] => (Return tt, [ {| mapping := []; criteria := [] |} ])
    | base :: _ =>
        (Return tt,
         {| mapping := mapping base; criteria := criteria base |} :: states)
    end.

(** The [try ... except KeyError ... else ...] of [_contribute_to_criteria]:
    the criterion computed for [name] from the criteria of the frame. *)
Definition contributed (criteria : Dict.t) (name : Identifier)
    (requirement : Requirement) (parent : option Candidate)
  : outcome Criterion :=
  match Dict.getitem Identifier_eq_dec name criteria with
  | None => from_requirement requirement parent
  | Some crit => merged_with crit requirement parent
  end.

Definition _contribute_to_criteria (name : Identifier)
    (requirement : Requirement) (parent : option Candidate) : M Stack unit :=
  s <- state ;;
  crit <- lift_outcome (contributed (criteria s) name requirement parent) ;;
  set_criteria (Dict.setitem Identifier_eq_dec name crit).

Definition _get_criterion_item_preference (s : State)
    (item : Identifier * Criterion) : Preference :=
  let (name, criterion) := item in
  let pinned := Dict.getitem Identifier_eq_dec name (mapping s) in
  get_preference p pinned (candidates criterion) (information criterion).

Definition _is_current_pin_satisfying (s : State)
    (item : Identifier * Criterion) : bool :=
  let (name, criterion) := item in
  match Dict.getitem Identifier_eq_dec name (mapping s) with
  | None => false
  | Some current_pin =>
      forallb (fun r => is_satisfied_by p r current_pin)
              (iter_requirement criterion)
  end.

(** The [for subdep in ...] loop of [_check_pinnability]. *)
Fixpoint contribute_subdeps (candidate : Candidate)
    (subdeps : list Requirement) : M Stack unit :=
  match subdeps with
  | [] => ret tt
  | subdep :: rest =>
      let key := identify p subdep in
      _contribute_to_criteria key subdep (Some candidate) ;;
      contribute_subdeps candidate rest
  end.

Definition _check_pinnability (candidate : Candidate) : M Stack bool :=
  s <- state ;;
  let backup := criteria s in
  try_except_conflicted
    (contribute_subdeps candidate (get_dependencies p candidate) ;;
     ret true)
    (fun _ =>
       set_criteria (fun criteria =>
                       Dict.update Identifier_eq_dec (Dict.clear criteria) backup) ;;
       ret false).

(** The loop of [_pin_criterion] over the candidates still to try. *)
Fixpoint pin_candidates (name : Identifier) (cands : list Candidate)
  : M Stack bool :=
  match cands with
  | [] => ret false
  | candidate :: rest =>
      ok <- _check_pinnability candidate ;;
      if negb ok then pin_candidates name rest
      else
        set_mapping (Dict.pop Identifier_eq_dec name) ;;
        set_mapping (Dict.setitem Identifier_eq_dec name candidate) ;;
        ret true
  end.

Definition _pin_criterion (name : Identifier) (criterion : Criterion)
  : M Stack bool :=
  pin_candidates name (rev (candidates criterion)).

(** The [while criterion:] loop of [_backtrack_to_last_workable_state],
    entered right after [del self._states[-1]] left [states].  A
    [Criterion] object is always true, so the loop only ends by [raise]
    or [break].  When [excluded_of] raises, the next iteration starts by
    deleting the frame whose mapping was just popped: the recursion goes
    on with the frames below it, and [criterion] is the one the method
    was called with. *)
Fixpoint backtrack_frames (criterion : Criterion) (states : Stack)
  : outcome unit * Stack :=
  match states with
  | [] => (Raise (ResolutionImpossible (iter_requirement criterion)), [])
  | s :: rest =>
      match Dict.popitem (mapping s) with
      | None => (Raise KeyError, states)
      | Some ((name, candidate), mapping') =>
          let s' := {| mapping := mapping'; criteria := criteria s |} in
          match Dict.getitem Identifier_eq_dec name (criteria s) with
          | None => (Raise KeyError, s' :: rest)
          | Some c =>
              match excluded_of c candidate with
              | Raise (RequirementsConflicted _) =>
                  backtrack_frames criterion rest
              | Raise e => (Raise e, s' :: rest)
              | Return criterion' =>
                  (Return tt,
                   {| mapping := mapping';
                      criteria := Dict.setitem Identifier_eq_dec name criterion'
                                    (criteria s) |} :: rest)
              end
          end
      end
  end.

Definition _backtrack_to_last_workable_state (criterion : Criterion)
  : M Stack unit :=
  fun states =>
    match states with
    | [] => (Raise IndexError, states)
    | _ :: states' => backtrack_frames criterion states'
    end.

(** *** The round loop *)

(** The calls the reporter receives. *)
Inductive Event :=
| starting
| starting_round (index : Z)
| ending_round (index : Z) (state : State)
| ending (state : State).

(** A [Resolution] object: its history and the log of its reporter. *)
Record Resolution := {
  _states : Stack;
  _r : list Event
}.

Definition on_states {A : Type} (m : M Stack A) : M Resolution A :=
  fun self =>
    let (o, states) := m (_states self) in
    (o, {| _states := states; _r := _r self |}).

Definition report (e : Event) : M Resolution unit :=
  fun self => (Return tt, {| _states := _states self; _r := _r self ++ [e] |}).

(** [Resolution(provider, reporter)]: an empty history, a reporter that has
    not been called yet. *)
Definition Resolution_init : Resolution := {| _states := []; _r := [] |}.

(** [min(first :: items, key=key)]: the first minimal item. *)
Fixpoint min_by {A : Type} (key : A -> Preference) (best : A) (items : list A) : A :=
  match items with
  | [] => best
  | x :: items' =>
      if Preference_ltb (key x) (key best) then min_by key x items'
      else min_by key best items'
  end.

(** The loop over the root requirements.  The handler evaluates
    [e.requirements], an attribute that [RequirementsConflicted] does not
    have (it stores [criterion]), before it can raise anything else. *)
Fixpoint contribute_roots (requirements : list Requirement) : M Stack unit :=
  match requirements with
  | [] => ret tt
  | requirement :: rest =>
      try_except_conflicted
        (let name := identify p requirement in
         _contribute_to_criteria name requirement None)
        (fun _ => raise (AttributeError "requirements")) ;;
      contribute_roots rest
  end.

(** [for round_index in range(max_rounds)], with [n] iterations left.
    [curr] aliases the frame pushed by the round: the value the reporter
    sees at the end of the round is the one the frame has after
    [_pin_criterion], backtracking deletes it from the history before it
    mutates an older frame. *)
Fixpoint rounds (max_rounds : Z) (n : nat) (round_index : Z)
  : M Resolution unit :=
  match n with
  | O => raise (ResolutionTooDeep max_rounds)
  | S n' =>
      report (starting_round round_index) ;;
      on_states _push_new_state ;;
      curr <- on_states state ;;
      let criterion_items :=
        filter (fun item => negb (_is_current_pin_satisfying curr item))
               (criteria curr) in
      match criterion_items with
      | [] =>
          on_states del_last ;;
          report (ending curr) ;;
          ret tt
      | item :: items =>
          let (name, criterion) :=
            min_by (_get_criterion_item_preference curr) item items in
          success <- on_states (_pin_criterion name criterion) ;;
          curr' <- on_states state ;;
          (if negb success
           then on_states (_backtrack_to_last_workable_state criterion)
           else ret tt) ;;
          report (ending_round round_index curr') ;;
          rounds max_rounds n' (round_index + 1)%Z
      end
  end.

Definition Resolution_resolve (requirements : list Requirement) (max_rounds : Z)
  : M Resolution unit :=
  fun self =>
    if negb (is_empty (_states self))
    then (Raise (RuntimeError "already resolved"), self)
    else
      (on_states _push_new_state ;;
       on_states (contribute_roots requirements) ;;
       report starting ;;
       rounds max_rounds (Z.to_nat max_rounds) 0%Z) self.

(** ** The result builder *)

(** Vertices of the graph and members of [connected]: an identifier, or
    [None] for the root marker. *)
Definition Vertex := option Identifier.

Definition Vertex_eq_dec : forall x y : Vertex, {x = y} + {x <> y}.
Proof. decide equality. Defined.

(** [id(o)] for [o] a candidate or [None]: the object itself, compared by
    identity. *)
Definition ObjectId := option Candidate.

Definition ObjectId_eq_dec : forall x y : ObjectId, {x = y} + {x <> y}.
Proof. decide equality. Defined.

(** Modelled from the spec: the class [DirectedGraph] of [structs.py], which
    is not among the sources.  "A set of vertices (each either a K or the
    root marker None) and a set of directed edges; supports add(v),
    connect(u,v), contains(v).  Multi-edges need not be supported; connect
    is idempotent." *)
Record DirectedGraph := {
  vertices : list Vertex;
  edges : list (Vertex * Vertex)
}.

Definition DirectedGraph_new : DirectedGraph :=
  {| vertices := []; edges := [] |}.

Definition graph_contains (v : Vertex) (g : DirectedGraph) : bool :=
  if in_dec Vertex_eq_dec v (vertices g) then true else false.

Definition Edge_eq_dec : forall x y : Vertex * Vertex, {x = y} + {x <> y}.
Proof. decide equality; apply Vertex_eq_dec. Defined.

Definition graph_add (v : Vertex) (g : DirectedGraph) : DirectedGraph :=
  if graph_contains v g then g
  else {| vertices := vertices g ++ [v]; edges := edges g |}.

Definition graph_connect (u v : Vertex) (g : DirectedGraph) : DirectedGraph :=
  if in_dec Edge_eq_dec (u, v) (edges g) then g
  else {| vertices := vertices g; edges := edges g ++ [(u, v)] |}.

(** A Python [set] of vertices: [k in s] and [s.add(k)]. *)
Definition set_contains (v : Vertex) (s : list Vertex) : bool :=
  if in_dec Vertex_eq_dec v s then true else false.

Definition set_add (v : Vertex) (s : list Vertex) : list Vertex :=
  if set_contains v s then s else s ++ [v].

(** [key in criteria] and [criteria[key]] for a vertex; the root marker is
    not an identifier. *)
Definition criteria_get (key : Vertex) (criteria : Dict.t) : option Criterion :=
  match key with
  | None => None
  | Some k => Dict.getitem Identifier_eq_dec k criteria
  end.

(** [all_keys]: from [id(candidate)] to the identifier it is pinned for, and
    from [id(None)] to [None]. *)
Definition build_all_keys (mapping : Dict.t)
  : Dict.t (Key:=ObjectId) (V:=Vertex) :=
  Dict.setitem ObjectId_eq_dec None None
    (fold_left (fun acc kv =>
                  Dict.setitem ObjectId_eq_dec (Some (snd kv)) (Some (fst kv)) acc)
               mapping []).

(** [_has_route_to_root], with the set [connected] it mutates threaded
    through.  Python bounds the depth of recursion; [depth] is the number
    of nested calls still allowed, and [RecursionError] is what the
    interpreter raises beyond it. *)
Fixpoint _has_route_to_root (depth : nat) (criteria : Dict.t) (key : Vertex)
    (all_keys : Dict.t) (connected : list Vertex)
  : outcome bool * list Vertex :=
  match depth with
  | O => (Raise RecursionError, connected)
  | S depth' =>
      if set_contains key connected then (Return true, connected)
      else
        match criteria_get key criteria with
        | None => (Return false, connected)
        | Some criterion =>
            (fix parents_loop (parents : list ObjectId) (connected : list Vertex)
               : outcome bool * list Vertex :=
               match parents with
               | [] => (Return false, connected)
               | par :: parents' =>
                   match Dict.getitem ObjectId_eq_dec par all_keys with
                   | None => parents_loop parents' connected
                   | Some pkey =>
                       if set_contains pkey connected
                       then (Return true, set_add key connected)
                       else
                         match _has_route_to_root depth' criteria pkey
                                 all_keys connected with
                         | (Raise e, connected') => (Raise e, connected')
                         | (Return true, connected') =>
                             (Return true, set_add key connected')
                         | (Return false, connected') =>
                             parents_loop parents' connected'
                         end
                   end
               end) (iter_parent criterion) connected
        end
  end.

Record Result := {
  result_mapping : Dict.t (Key:=Identifier) (V:=Candidate);
  result_graph : DirectedGraph;
  result_criteria : Dict.t (Key:=Identifier) (V:=Criterion)
}.

(** The inner loop of [_build_result] over the parents of a criterion. *)
Fixpoint connect_parents (all_keys : Dict.t) (key : Vertex)
    (parents : list ObjectId) (graph : DirectedGraph) : DirectedGraph :=
  match parents with
  | [] => graph
  | par :: parents' =>
      match Dict.getitem ObjectId_eq_dec par all_keys with
      | None => connect_parents all_keys key parents' graph
      | Some pkey =>
          let graph := if graph_contains pkey graph then graph
                       else graph_add pkey graph in
          connect_parents all_keys key parents' (graph_connect pkey key graph)
      end
  end.

(** The outer loop of [_build_result] over [state.criteria.items()]. *)
Fixpoint build_graph (depth : nat) (criteria : Dict.t) (all_keys : Dict.t)
    (items : list (Identifier * Criterion))
  : M (DirectedGraph * list Vertex) unit :=
  match items with
  | [] => ret tt
  | (key, criterion) :: items' =>
      fun gc =>
        let (graph, connected) := gc in
        match _has_route_to_root depth criteria (Some key) all_keys connected with
        | (Raise e, connected') => (Raise e, (graph, connected'))
        | (Return false, connected') =>
            build_graph depth criteria all_keys items' (graph, connected')
        | (Return true, connected') =>
            let graph := if graph_contains (Some key) graph then graph
                         else graph_add (Some key) graph in
            let graph := connect_parents all_keys (Some key)
                           (iter_parent criterion) graph in
            build_graph depth criteria all_keys items' (graph, connected')
        end
  end.

Definition _build_result (recursion_limit : nat) (state : State)
  : outcome Result :=
  let mapping := mapping state in
  let all_keys := build_all_keys mapping in
  let graph := graph_add None DirectedGraph_new in
  let connected := [None] in
  match build_graph recursion_limit (criteria state) all_keys (criteria state)
          (graph, connected) with
  | (Raise e, _) => Raise e
  | (Return _, (graph, connected)) =>
      Return {| result_mapping :=
                  filter (fun kv => set_contains (Some (fst kv)) connected) mapping;
                result_graph := graph;
                result_criteria := criteria state |}
  end.

(** [Resolver.resolve]: a fresh [Resolution], resolved, and the result built
    from the frame left on top of its history.  The log of the reporter is
    returned along with the outcome. *)
Definition Resolver_resolve (recursion_limit : nat)
    (requirements : list Requirement) (max_rounds : Z)
  : outcome Result * list Event :=
  let resolution := Resolution_init in
  match Resolution_resolve requirements max_rounds resolution with
  | (Raise e, resolution) => (Raise e, _r resolution)
  | (Return _, resolution) =>
      match state (_states resolution) with
      | (Raise e, _) => (Raise e, _r resolution)
      | (Return s, _) => (_build_result recursion_limit s, _r resolution)
      end
  end.

End Resolvers.

(** ** Properties the specification states, as predicates *)

Section Predicates.
Context {Requirement Candidate Identifier : Type}.
Variable Identifier_eq_dec : forall x y : Identifier, {x = y} + {x <> y}.
Variable Candidate_eqb : Candidate -> Candidate -> bool.

(** [incompatibilities] and [candidates] share no element, for the
    comparison [c != i] that [excluded_of] makes. *)
Definition crit_disjoint (c : @Criterion Requirement Candidate) : Prop :=
  forall x i, In x (candidates c) -> In i (incompatibilities c) ->
              Candidate_eqb x i = false.

(** The incompatibilities recorded for an identifier, none if it has no
    criterion. *)
Definition incompat_of (k : Identifier)
    (criteria : Dict.t (Key:=Identifier) (V:=@Criterion Requirement Candidate))
  : list Candidate :=
  match Dict.getitem Identifier_eq_dec k criteria with
  | Some c => incompatibilities c
  | None => []
  end.

Definition criteria_ok
    (criteria : Dict.t (Key:=Identifier) (V:=@Criterion Requirement Candidate))
  : Prop :=
  Dict.wf criteria /\ forall k c, In (k, c) criteria -> crit_disjoint c.

(** What contributing requirements may do to a criteria map: identifiers
    stay, and the incompatibilities recorded for each stay the same. *)
Definition criteria_ext
    (cr cr' : Dict.t (Key:=Identifier) (V:=@Criterion Requirement Candidate))
  : Prop :=
  forall k, incompat_of k cr' = incompat_of k cr /\
            (Dict.contains Identifier_eq_dec k cr = true ->
             Dict.contains Identifier_eq_dec k cr' = true).

(** The invariant of a frame of the history: both maps are dictionaries,
    every stored criterion is disjoint, every pinned identifier has a
    criterion and its pin differs from every incompatibility recorded
    there. *)
Definition state_ok (s : @State Requirement Candidate Identifier) : Prop :=
  Dict.wf (mapping s) /\
  criteria_ok (criteria s) /\
  (forall k pin, Dict.getitem Identifier_eq_dec k (mapping s) = Some pin ->
     Dict.contains Identifier_eq_dec k (criteria s) = true /\
     forall i, In i (incompat_of k (criteria s)) -> Candidate_eqb pin i = false).

Definition stack_ok (states : list (@State Requirement Candidate Identifier))
  : Prop :=
  Forall state_ok states.

(** The oldest frame of the history, the one the root requirements were
    contributed to, pins nothing. *)
Fixpoint bottom_unpinned (states : list (@State Requirement Candidate Identifier))
  : Prop :=
  match states with
  | [] => False
  | s :: rest =>
      match rest with
      | [] => mapping s = []
      | _ :: _ => bottom_unpinned rest
      end
  end.

(** The frames the reporter is shown satisfy the invariant. *)
Definition event_ok (e : @Event Requirement Candidate Identifier) : Prop :=
  match e with
  | ending_round _ s | ending s => state_ok s
  | _ => True
  end.

Definition log_ok (log : list (@Event Requirement Candidate Identifier)) : Prop :=
  Forall event_ok log.

(** Following the spec's words (section 4.6, Backtrack), for the frames left
    after "pop the top state frame": on a conflict the trigger becomes the
    conflicted criterion, [e.criterion].  Where the spec is silent (an
    empty mapping, an identifier without criterion) the code's [KeyError]
    is kept. *)
Fixpoint spec_backtrack_frames (trigger_criterion : @Criterion Requirement Candidate)
    (states : list (@State Requirement Candidate Identifier))
  : outcome unit * list State :=
  match states with
  | [] => (Raise (ResolutionImpossible (iter_requirement trigger_criterion)), [])
  | current :: rest =>
      match Dict.popitem (mapping current) with
      | None => (Raise KeyError, states)
      | Some ((K, C), mapping') =>
          let current' := {| mapping := mapping'; criteria := criteria current |} in
          match Dict.getitem Identifier_eq_dec K (criteria current) with
          | None => (Raise KeyError, current' :: rest)
          | Some c =>
              match excluded_of Candidate_eqb c C with
              | Raise (RequirementsConflicted conflicted) =>
                  spec_backtrack_frames conflicted rest
              | Raise e => (Raise e, current' :: rest)
              | Return narrowed =>
                  (Return tt,
                   {| mapping := mapping';
                      criteria := Dict.setitem Identifier_eq_dec K narrowed
                                    (criteria current) |} :: rest)
              end
          end
      end
  end.

Definition spec_backtrack (trigger_criterion : @Criterion Requirement Candidate)
  : M (list (@State Requirement Candidate Identifier)) unit :=
  fun states =>
    match states with
    | [] => (Raise IndexError, states)
    | _ :: states' => spec_backtrack_frames trigger_criterion states'
    end.

End Predicates.

(** ** Narrowing, reachability and the reporter's protocol, as predicates *)

Section Narrowing.
Context {Requirement Candidate Identifier Preference : Type}.
Variable Identifier_eq_dec : forall x y : Identifier, {x = y} + {x <> y}.
Variable p : @Provider Requirement Candidate Identifier Preference.

(** [x] satisfies every requirement of the pieces of information [infos]. *)
Definition satisfies_all (infos : list (@RequirementInformation Requirement Candidate))
    (x : Candidate) : bool :=
  forallb (fun ri => is_satisfied_by p (requirement ri) x) infos.

(** [c'] is [c] after the requirements of [more] were merged into it, in
    that order: its information is extended by [more], its candidates are
    those of [c] that satisfy all of [more], in their order, and its
    incompatibilities are the same. *)
Definition narrowed_by (more : list (@RequirementInformation Requirement Candidate))
    (c c' : @Criterion Requirement Candidate) : Prop :=
  information c' = information c ++ more /\
  candidates c' = filter (satisfies_all more) (candidates c) /\
  incompatibilities c' = incompatibilities c.

Definition narrows (c c' : @Criterion Requirement Candidate) : Prop :=
  exists more, narrowed_by more c c'.

(** What [from_requirement] builds. *)
Definition initial_criterion (R : Requirement) (par : option Candidate)
  : @Criterion Requirement Candidate :=
  {| candidates := find_matches p R;
     information := [ {| requirement := R; parent := par |} ];
     incompatibilities := [] |}.

(** The criteria [cr'] are the criteria [cr] after some requirements were
    contributed: no identifier is lost, the criterion of an old identifier
    is narrowed, the criterion of a new one is an initial criterion,
    narrowed. *)
Definition criteria_narrowed
    (cr cr' : Dict.t (Key:=Identifier) (V:=@Criterion Requirement Candidate))
  : Prop :=
  forall k,
    match Dict.getitem Identifier_eq_dec k cr,
          Dict.getitem Identifier_eq_dec k cr' with
    | Some c, Some c' => narrows c c'
    | None, Some c' => exists R par, narrows (initial_criterion R par) c'
    | Some _, None => False
    | None, None => True
    end.

(** A criterion is consistent when it has a first requirement, every
    candidate was found by [find_matches] for it, and every candidate
    satisfies the requirements that came after it. *)
Definition crit_consistent (c : @Criterion Requirement Candidate) : Prop :=
  match information c with
  | [] => False
  | first :: later =>
      forall x, In x (candidates c) ->
        In x (find_matches p (requirement first)) /\
        satisfies_all later x = true
  end.

(** A pin that satisfies every requirement of its criterion is one of the
    candidates of the criterion. *)
Definition pins_admissible (s : @State Requirement Candidate Identifier) : Prop :=
  forall k pin c,
    Dict.getitem Identifier_eq_dec k (mapping s) = Some pin ->
    Dict.getitem Identifier_eq_dec k (criteria s) = Some c ->
    satisfies_all (information c) pin = true ->
    In pin (candidates c).

(** The information of [cr] is kept, as a prefix, in [cr']. *)
Definition information_kept
    (cr cr' : Dict.t (Key:=Identifier) (V:=@Criterion Requirement Candidate))
  : Prop :=
  forall k c, Dict.getitem Identifier_eq_dec k cr = Some c ->
    exists c' more, Dict.getitem Identifier_eq_dec k cr' = Some c' /\
                    information c' = information c ++ more.

(** Each of the [reqs], with the root marker as parent, is recorded in the
    criterion of its identifier. *)
Definition records_roots (reqs : list Requirement)
    (cr : Dict.t (Key:=Identifier) (V:=@Criterion Requirement Candidate))
  : Prop :=
  forall R, In R reqs ->
    exists c, Dict.getitem Identifier_eq_dec (identify p R) cr = Some c /\
              In {| requirement := R; parent := None |} (information c).

(** The second invariant of a frame, relative to the criteria [roots] that
    the root requirements gave. *)
Definition frame_consistent
    (roots : Dict.t (Key:=Identifier) (V:=@Criterion Requirement Candidate))
    (s : @State Requirement Candidate Identifier) : Prop :=
  (forall k c, Dict.getitem Identifier_eq_dec k (criteria s) = Some c ->
               crit_consistent c) /\
  pins_admissible s /\
  information_kept roots (criteria s).

(** An identifier reaches the root when one of the requirements of its
    criterion comes from the root, or from a candidate that is pinned for
    an identifier that reaches the root. *)
Inductive reaches_root (s : @State Requirement Candidate Identifier)
  : Identifier -> Prop :=
| reaches_direct k c :
    Dict.getitem Identifier_eq_dec k (criteria s) = Some c ->
    In None (iter_parent c) ->
    reaches_root s k
| reaches_via k c cand k' :
    Dict.getitem Identifier_eq_dec k (criteria s) = Some c ->
    In (Some cand) (iter_parent c) ->
    In (k', cand) (mapping s) ->
    reaches_root s k' ->
    reaches_root s k.

(** The same for a vertex; the root marker reaches itself. *)
Definition vertex_reaches_root (s : @State Requirement Candidate Identifier)
    (v : option Identifier) : Prop :=
  match v with
  | None => True
  | Some k => reaches_root s k
  end.

(** Both ends of every edge of a graph are vertices of the graph. *)
Definition graph_closed (g : @DirectedGraph Identifier) : Prop :=
  forall u v, In (u, v) (edges g) -> In u (vertices g) /\ In v (vertices g).

(** The edge from [u] to [v] is justified in the frame [s]: [v] is an
    identifier whose criterion has a requirement that comes from the root,
    if [u] is the root marker, or from a candidate that is pinned for the
    identifier [u]. *)
Definition edge_justified (s : @State Requirement Candidate Identifier)
    (u v : option Identifier) : Prop :=
  exists k c par,
    v = Some k /\ In (k, c) (criteria s) /\ In par (iter_parent c) /\
    match par with
    | None => u = None
    | Some cand => exists k', u = Some k' /\ In (k', cand) (mapping s)
    end.

(** The calls the reporter receives for the completed rounds [i], [i+1],
    ..., one per frame of [frames]. *)
Fixpoint round_events (i : Z) (frames : list (@State Requirement Candidate Identifier))
  : list (@Event Requirement Candidate Identifier) :=
  match frames with
  | [] => []
  | s :: frames' =>
      starting_round i :: ending_round i s :: round_events (i + 1)%Z frames'
  end.

End Narrowing.

(** ** A concrete provider

    Packages [A], [B], [C], [D], [X] with numbered versions; a requirement [X >= v] or
    [X < v]; a candidate is a package at a version.  Used to run the engine
    on the scenarios of the specification. *)

Module Scenario.

Inductive pkg := A | B | C | D | X.

Definition pkg_eq_dec : forall x y : pkg, {x = y} + {x <> y}.
Proof. decide equality. Defined.

Inductive op := Ge | Lt.

Definition Req : Type := pkg * op * nat.

Definition Cand : Type := pkg * nat.

Definition Cand_is : forall x y : Cand, {x = y} + {x <> y}.
Proof. decide equality; [apply Nat.eq_dec | apply pkg_eq_dec]. Defined.

Definition Cand_eqb (x y : Cand) : bool :=
  if Cand_is x y then true else false.

Definition satisfies (r : Req) (c : Cand) : bool :=
  let '(k, o, v) := r in
  (if pkg_eq_dec k (fst c) then true else false)
  && match o with
     | Ge => Nat.leb v (snd c)
     | Lt => Nat.ltb (snd c) v
     end.

(** A provider from the table of available versions (most preferred first)
    and the table of dependencies; it has no preference among criteria, so
    that [min] selects the first pending one. *)
Definition provider (versions : pkg -> list nat) (deps : Cand -> list Req)
  : @Provider Req Cand pkg nat :=
  {| identify := fun r => fst (fst r);
     get_preference := fun _ _ _ => 0;
     find_matches := fun r =>
       filter (satisfies r)
              (map (fun v => (fst (fst r), v)) (versions (fst (fst r))));
     is_satisfied_by := satisfies;
     get_dependencies := deps |}.

Definition resolve (versions : pkg -> list nat) (deps : Cand -> list Req)
    (requirements : list Req) (max_rounds : Z) :=
  Resolver_resolve pkg_eq_dec Cand_is Cand_eqb Nat.ltb
    (provider versions deps) 1000 requirements max_rounds.

(** [A@1] needs both [B >= 1] and [B < 1]. *)
Definition dead_end_versions (k : pkg) : list nat :=
  match k with A => [1] | B => [1] | _ => [] end.

Definition dead_end_deps (c : Cand) : list Req :=
  match c with
  | (A, 1) => [(B, Ge, 1); (B, Lt, 1)]
  | _ => []
  end.

(** Scenario 3 of the specification. *)
Definition backtrack_versions (k : pkg) : list nat :=
  match k with A => [2; 1] | B => [1] | C => [2; 1] | _ => [] end.

Definition backtrack_deps (c : Cand) : list Req :=
  match c with
  | (A, 2) => [(C, Ge, 2)]
  | (A, 1) => [(C, Ge, 1)]
  | (B, 1) => [(C, Lt, 2)]
  | _ => []
  end.

(** A dead end that backtracking gets out of.  [A@1] narrows [A] to itself
    and asks for [C >= 2], which [B@1] cannot live with; undoing [A@1] and
    then [X@1] leads to [X@2], which asks for [A >= 2]. *)
Definition detour_versions (k : pkg) : list nat :=
  match k with B => [1] | _ => [2; 1] end.

Definition detour_deps (c : Cand) : list Req :=
  match c with
  | (X, 2) => [(A, Ge, 2)]
  | (A, 1) => [(A, Lt, 2); (C, Ge, 2)]
  | (B, 1) => [(C, Lt, 2)]
  | _ => []
  end.

Definition detour_requirements : list Req := [(X, Ge, 1); (A, Ge, 1); (B, Ge, 1)].

(** A history of two frames in which [A@1], the only candidate of [A], is
    pinned, and the criterion of [B] that triggers a backtrack. *)
Definition only_A1 : @Criterion Req Cand :=
  {| candidates := [(A, 1)];
     information := [ {| requirement := (A, Ge, 1); parent := None |} ];
     incompatibilities := [] |}.

Definition only_B1 : @Criterion Req Cand :=
  {| candidates := [(B, 1)];
     information := [ {| requirement := (B, Ge, 1); parent := None |} ];
     incompatibilities := [] |}.

Definition pinned_A1 : @State Req Cand pkg :=
  {| mapping := [(A, (A, 1))]; criteria := [(A, only_A1); (B, only_B1)] |}.

(** A frame in which [X@1] is pinned and [X@2] is still a candidate. *)
Definition both_X : @Criterion Req Cand :=
  {| candidates := [(X, 2); (X, 1)];
     information := [ {| requirement := (X, Ge, 1); parent := None |} ];
     incompatibilities := [] |}.

Definition pinned_X1 : @State Req Cand pkg :=
  {| mapping := [(X, (X, 1))]; criteria := [(X, both_X); (B, only_B1)] |}.

(** [X@1] brings in [A] and [D]; [D@1] then asks for [X >= 2], so that [X]
    is pinned again, to [X@2]; [A@1] and [B@1] depend on each other. *)
Definition orphan_cycle_versions (k : pkg) : list nat :=
  match k with X => [2; 1] | _ => [1] end.

Definition orphan_cycle_deps (c : Cand) : list Req :=
  match c with
  | (X, 1) => [(A, Ge, 1); (D, Ge, 1)]
  | (D, 1) => [(X, Ge, 2)]
  | (A, 1) => [(B, Ge, 1)]
  | (B, 1) => [(A, Ge, 1)]
  | _ => []
  end.

(** A frame in which [A@2] is pinned and has narrowed [C] to [C@2]. *)
Definition needs_C2 : @State Req Cand pkg :=
  {| mapping := [(A, (A, 2))];
     criteria :=
       [(C, {| candidates := [(C, 2)];
               information :=
                 [ {| requirement := (C, Ge, 2); parent := Some (A, 2) |} ];
               incompatibilities := [] |})] |}.

(** The frame the resolution of [X >= 1] ends with. *)
Definition orphan_cycle_state : @State Req Cand pkg :=
  {| mapping := [(A, (A, 1)); (D, (D, 1)); (X, (X, 2)); (B, (B, 1))];
     criteria :=
       [(X, {| candidates := [(X, 2)];
               information :=
                 [ {| requirement := (X, Ge, 1); parent := None |};
                   {| requirement := (X, Ge, 2); parent := Some (D, 1) |} ];
               incompatibilities := [] |});
        (A, {| candidates := [(A, 1)];
               information :=
                 [ {| requirement := (A, Ge, 1); parent := Some (X, 1) |};
                   {| requirement := (A, Ge, 1); parent := Some (B, 1) |} ];
               incompatibilities := [] |});
        (D, {| candidates := [(D, 1)];
               information :=
                 [ {| requirement := (D, Ge, 1); parent := Some (X, 1) |} ];
               incompatibilities := [] |});
        (B, {| candidates := [(B, 1)];
               information :=
                 [ {| requirement := (B, Ge, 1); parent := Some (A, 1) |} ];
               incompatibilities := [] |})] |}.

(** The frame the resolution of [detour_requirements] ends with. *)
Definition detour_state : @State Req Cand pkg :=
  {| mapping := [(X, (X, 2)); (A, (A, 2)); (B, (B, 1)); (C, (C, 1))];
     criteria :=
       [(X, {| candidates := [(X, 2)];
               information :=
                 [ {| requirement := (X, Ge, 1); parent := None |} ];
               incompatibilities := [(X, 1)] |});
        (A, {| candidates := [(A, 2)];
               information :=
                 [ {| requirement := (A, Ge, 1); parent := None |};
                   {| requirement := (A, Ge, 2); parent := Some (X, 2) |} ];
               incompatibilities := [] |});
        (B, {| candidates := [(B, 1)];
               information :=
                 [ {| requirement := (B, Ge, 1); parent := None |} ];
               incompatibilities := [] |});
        (C, {| candidates := [(C, 1)];
               information :=
                 [ {| requirement := (C, Lt, 2); parent := Some (B, 1) |} ];
               incompatibilities := [] |})] |}.

End Scenario.

(** * Facts about dictionaries *)

Section DictFacts.
Context {Key V : Type}.
Variable eq_dec : forall x y : Key, {x = y} + {x <> y}.
Implicit Types (d : Dict.t (Key:=Key) (V:=V)) (k : Key) (v : V).

Lemma getitem_In d k v :
  Dict.getitem eq_dec k d = Some v -> In (k, v) d.
Proof.
  induction d as [|[k' v'] d IH]; simpl; [discriminate|].
  destruct (eq_dec k k') as [->|Hne]; intros H.
  - injection H as ->. now left.
  - right. now apply IH.
Qed.

Lemma getitem_None_keys d k :
  Dict.getitem eq_dec k d = None <-> ~ In k (Dict.keys d).
Proof.
  induction d as [|[k' v'] d IH]; simpl.
  - split; auto.
  - destruct (eq_dec k k') as [->|Hne].
    + split; [discriminate | intros H; exfalso; apply H; now left].
    + rewrite IH. split; intros H; [intros [E|Hin]; [congruence | auto] | auto].
Qed.

Lemma In_getitem d k v :
  Dict.wf d -> In (k, v) d -> Dict.getitem eq_dec k d = Some v.
Proof.
  unfold Dict.wf, Dict.keys.
  induction d as [|[k' v'] d IH]; simpl; [tauto|].
  intros Hnd [E|Hin]; inversion Hnd as [|? ? Hnotin Hnd']; subst.
  - injection E as -> ->. destruct (eq_dec k k); congruence.
  - destruct (eq_dec k k') as [->|Hne]; [|now apply IH].
    exfalso. apply Hnotin. change k' with (fst (k', v)). now apply in_map.
Qed.

Lemma getitem_app d1 d2 k :
  Dict.getitem eq_dec k (d1 ++ d2) =
  match Dict.getitem eq_dec k d1 with
  | Some v => Some v
  | None => Dict.getitem eq_dec k d2
  end.
Proof.
  induction d1 as [|[k' v'] d1 IH]; simpl; [reflexivity|].
  destruct (eq_dec k k'); [reflexivity | apply IH].
Qed.

Lemma getitem_setitem_eq d k v :
  Dict.getitem eq_dec k (Dict.setitem eq_dec k v d) = Some v.
Proof.
  induction d as [|[k' v'] d IH]; simpl.
  - destruct (eq_dec k k); congruence.
  - destruct (eq_dec k k') as [E|Hne]; simpl.
    + destruct (eq_dec k k); congruence.
    + destruct (eq_dec k k'); congruence.
Qed.

Lemma getitem_setitem_neq d k k' v :
  k <> k' ->
  Dict.getitem eq_dec k' (Dict.setitem eq_dec k v d) = Dict.getitem eq_dec k' d.
Proof.
  intros Hne. induction d as [|[k0 v0] d IH]; simpl.
  - destruct (eq_dec k' k); congruence.
  - destruct (eq_dec k k0) as [->|Hne0]; simpl.
    + destruct (eq_dec k' k0); congruence.
    + destruct (eq_dec k' k0); congruence.
Qed.

Lemma setitem_fresh d k v :
  ~ In k (Dict.keys d) -> Dict.setitem eq_dec k v d = d ++ [(k, v)].
Proof.
  induction d as [|[k' v'] d IH]; simpl; [reflexivity|].
  intros Hnotin. destruct (eq_dec k k') as [->|Hne].
  - exfalso. apply Hnotin. now left.
  - f_equal. apply IH. intros Hin. apply Hnotin. now right.
Qed.

Lemma keys_setitem_present d k v :
  In k (Dict.keys d) -> Dict.keys (Dict.setitem eq_dec k v d) = Dict.keys d.
Proof.
  induction d as [|[k' v'] d IH]; simpl; [tauto|].
  intros Hin. destruct (eq_dec k k') as [->|Hne]; simpl; [reflexivity|].
  f_equal. apply IH. destruct Hin; congruence.
Qed.

Lemma In_setitem d k v k' v' :
  In (k', v') (Dict.setitem eq_dec k v d) -> (k', v') = (k, v) \/ In (k', v') d.
Proof.
  induction d as [|[k0 v0] d IH]; simpl.
  - intros [E|[]]. now left.
  - destruct (eq_dec k k0) as [->|Hne]; simpl.
    + intros [E|Hin]; [now left | right; now right].
    + intros [E|Hin]; [right; now left |].
      destruct (IH Hin); [now left | right; now right].
Qed.

Lemma wf_setitem d k v :
  Dict.wf d -> Dict.wf (Dict.setitem eq_dec k v d).
Proof.
  unfold Dict.wf. intros Hnd.
  destruct (in_dec eq_dec k (Dict.keys d)) as [Hin|Hnotin].
  - now rewrite keys_setitem_present.
  - rewrite setitem_fresh by assumption. unfold Dict.keys in *.
    rewrite map_app. simpl.
    apply NoDup_app; [assumption | constructor; [tauto | constructor] |].
    intros a Ha [<-|[]]. contradiction.
Qed.

Lemma contains_setitem d k v k' :
  Dict.contains eq_dec k' d = true ->
  Dict.contains eq_dec k' (Dict.setitem eq_dec k v d) = true.
Proof.
  unfold Dict.contains. destruct (eq_dec k k') as [->|Hne].
  - now rewrite getitem_setitem_eq.
  - now rewrite getitem_setitem_neq.
Qed.

Lemma getitem_pop_eq d k :
  Dict.getitem eq_dec k (Dict.pop eq_dec k d) = None.
Proof.
  unfold Dict.pop. induction d as [|[k' v'] d IH]; simpl; [reflexivity|].
  destruct (eq_dec k k') as [->|Hne]; simpl; [assumption|].
  destruct (eq_dec k k'); congruence.
Qed.

Lemma getitem_pop_neq d k k' :
  k <> k' ->
  Dict.getitem eq_dec k' (Dict.pop eq_dec k d) = Dict.getitem eq_dec k' d.
Proof.
  intros Hne. unfold Dict.pop.
  induction d as [|[k0 v0] d IH]; simpl; [reflexivity|].
  destruct (eq_dec k k0) as [->|Hne0]; simpl.
  - destruct (eq_dec k' k0); congruence.
  - destruct (eq_dec k' k0); congruence.
Qed.

Lemma keys_filter_NoDup (f : Key * V -> bool) d :
  Dict.wf d -> Dict.wf (filter f d).
Proof.
  unfold Dict.wf, Dict.keys.
  induction d as [|[k v] d IH]; simpl; [auto|].
  intros Hnd. inversion Hnd as [|? ? Hnotin Hnd']; subst.
  destruct (f (k, v)); simpl; [|now apply IH].
  constructor; [|now apply IH].
  intros Hin. apply Hnotin. apply in_map_iff in Hin as [[k0 v0] [E Hin]].
  apply filter_In in Hin as [Hin _]. simpl in E. subst k0.
  change k with (fst (k, v0)). now apply in_map.
Qed.

Lemma wf_pop d k : Dict.wf d -> Dict.wf (Dict.pop eq_dec k d).
Proof. apply keys_filter_NoDup. Qed.

Lemma popitem_Some d kv d' :
  Dict.popitem d = Some (kv, d') -> d = d' ++ [kv].
Proof.
  unfold Dict.popitem. intros H.
  destruct (rev d) as [|kv0 r] eqn:E; [discriminate|].
  injection H as -> <-.
  rewrite <- (rev_involutive d), E. reflexivity.
Qed.

Lemma popitem_None d : Dict.popitem d = None -> d = [].
Proof.
  unfold Dict.popitem. intros H.
  destruct (rev d) as [|kv0 r] eqn:E; [|discriminate].
  rewrite <- (rev_involutive d), E. reflexivity.
Qed.

Lemma popitem_snoc d kv : Dict.popitem (d ++ [kv]) = Some (kv, d).
Proof.
  unfold Dict.popitem. rewrite rev_app_distr. simpl.
  now rewrite rev_involutive.
Qed.

Lemma wf_app_l d1 d2 : Dict.wf (d1 ++ d2) -> Dict.wf d1.
Proof.
  unfold Dict.wf, Dict.keys. rewrite map_app. apply NoDup_app_remove_r.
Qed.

Lemma wf_snoc_fresh d k v : Dict.wf (d ++ [(k, v)]) -> ~ In k (Dict.keys d).
Proof.
  unfold Dict.wf, Dict.keys. rewrite map_app. simpl. intros Hnd Hin.
  apply NoDup_remove_2 in Hnd. apply Hnd. now rewrite app_nil_r.
Qed.

(** After [popitem] the popped key is gone and the others are as before. *)
Lemma popitem_getitem d k v d' :
  Dict.wf d -> Dict.popitem d = Some ((k, v), d') ->
  Dict.wf d' /\
  Dict.getitem eq_dec k d' = None /\
  forall k' v', Dict.getitem eq_dec k' d' = Some v' ->
                Dict.getitem eq_dec k' d = Some v'.
Proof.
  intros Hwf Hpop. apply popitem_Some in Hpop. subst d.
  split; [now apply wf_app_l in Hwf|].
  split.
  - apply getitem_None_keys. now apply wf_snoc_fresh in Hwf.
  - intros k' v' H. rewrite getitem_app, H. reflexivity.
Qed.

Lemma update_fresh d other :
  Dict.wf (d ++ other) -> Dict.update eq_dec d other = d ++ other.
Proof.
  unfold Dict.update. revert d.
  induction other as [|[k v] other IH]; intros d Hwf; simpl.
  - now rewrite app_nil_r.
  - assert (E : d ++ (k, v) :: other = (d ++ [(k, v)]) ++ other)
      by now rewrite <- app_assoc.
    rewrite E in Hwf |- *.
    rewrite setitem_fresh.
    + now apply IH.
    + apply wf_app_l in Hwf. now apply wf_snoc_fresh in Hwf.
Qed.

(** [d.clear(); d.update(backup)] leaves exactly [backup]. *)
Lemma clear_update d backup :
  Dict.wf backup -> Dict.update eq_dec (Dict.clear d) backup = backup.
Proof. intros Hwf. unfold Dict.clear. now rewrite update_fresh. Qed.

Lemma getitem_filter_key (f : Key -> bool) d k v :
  Dict.getitem eq_dec k (filter (fun kv => f (fst kv)) d) = Some v ->
  Dict.getitem eq_dec k d = Some v.
Proof.
  induction d as [|[k' v'] d IH]; simpl; [discriminate|].
  destruct (f k') eqn:Ef; simpl.
  - destruct (eq_dec k k'); [auto | apply IH].
  - destruct (eq_dec k k') as [->|Hne]; [|apply IH].
    intros H. apply getitem_In, filter_In in H as [_ H]. simpl in H. congruence.
Qed.

End DictFacts.

(** * The criterion operations *)

Section CriterionFacts.
Context {Requirement Candidate Identifier Preference : Type}.
Variable Candidate_eqb : Candidate -> Candidate -> bool.
Variable p : @Provider Requirement Candidate Identifier Preference.
Implicit Types (self : @Criterion Requirement Candidate)
  (R : Requirement) (par : option Candidate) (C : Candidate).

Lemma is_empty_true {A : Type} (l : list A) : is_empty l = true <-> l = [].
Proof. destruct l; simpl; split; congruence. Qed.

Lemma is_empty_false {A : Type} (l : list A) : is_empty l = false <-> l <> [].
Proof. destruct l; simpl; split; congruence. Qed.

(** The two results [merged_with] can have. *)
Lemma merged_with_cases self R par :
  merged_with p self R par = Raise (RequirementsConflicted self) \/
  exists c', merged_with p self R par = Return c' /\
    candidates c' = filter (is_satisfied_by p R) (candidates self) /\
    candidates c' <> [] /\
    information c' = information self ++ [ {| requirement := R; parent := par |} ] /\
    incompatibilities c' = incompatibilities self.
Proof.
  unfold merged_with.
  destruct (is_empty _) eqn:E; [now left | right].
  eexists; split; [reflexivity|]. simpl.
  apply is_empty_false in E. auto.
Qed.

(** The two results [excluded_of] can have. *)
Lemma excluded_of_cases self C :
  excluded_of Candidate_eqb self C = Raise (RequirementsConflicted self) \/
  exists c', excluded_of Candidate_eqb self C = Return c' /\
    candidates c' = filter (fun c => negb (Candidate_eqb c C)) (candidates self) /\
    candidates c' <> [] /\
    information c' = information self /\
    incompatibilities c' = incompatibilities self ++ [C].
Proof.
  unfold excluded_of.
  destruct (is_empty _) eqn:E; [now left | right].
  eexists; split; [reflexivity|]. simpl.
  apply is_empty_false in E. auto.
Qed.

Lemma from_requirement_disjoint R par c :
  from_requirement p R par = Return c -> crit_disjoint Candidate_eqb c.
Proof.
  unfold from_requirement. intros H. injection H as <-.
  intros x i _ [].
Qed.

Lemma merged_with_disjoint self R par c :
  crit_disjoint Candidate_eqb self ->
  merged_with p self R par = Return c -> crit_disjoint Candidate_eqb c.
Proof.
  intros Hd H.
  destruct (merged_with_cases self R par) as [E|(c' & E & Hc & _ & _ & Hi)];
    rewrite E in H; [discriminate|]. injection H as <-.
  intros x i Hx Hin. rewrite Hc in Hx. rewrite Hi in Hin.
  apply filter_In in Hx as [Hx _]. now apply Hd.
Qed.

Lemma excluded_of_disjoint self C c :
  crit_disjoint Candidate_eqb self ->
  excluded_of Candidate_eqb self C = Return c -> crit_disjoint Candidate_eqb c.
Proof.
  intros Hd H.
  destruct (excluded_of_cases self C) as [E|(c' & E & Hc & _ & _ & Hi)];
    rewrite E in H; [discriminate|]. injection H as <-.
  intros x i Hx Hin. rewrite Hc in Hx. rewrite Hi in Hin.
  apply filter_In in Hx as [Hx Hne].
  apply in_app_or in Hin as [Hin|[<-|[]]].
  - now apply Hd.
  - now apply negb_true_iff in Hne.
Qed.

(** C5.  [merged_with(provider, R, parent)] returns a criterion whose
    information is the original one followed by [(R, parent)], whose
    candidates are the original candidates that satisfy [R], in their
    order, and whose incompatibilities are unchanged; it raises
    [RequirementsConflicted] carrying the original criterion exactly when no
    candidate is left, and raises nothing else.  The result is a function
    of the criterion, which it does not mutate. *)
Theorem merged_with_spec self R par :
  let kept := filter (is_satisfied_by p R) (candidates self) in
  (merged_with p self R par = Raise (RequirementsConflicted self) <-> kept = []) /\
  (kept <> [] ->
   merged_with p self R par =
   Return {| candidates := kept;
             information :=
               information self ++ [ {| requirement := R; parent := par |} ];
             incompatibilities := incompatibilities self |}) /\
  (forall e, merged_with p self R par = Raise e ->
             e = RequirementsConflicted self).
Proof.
  intros kept. unfold merged_with. cbv zeta.
  change (filter (fun c => is_satisfied_by p R c) (candidates self)) with kept.
  destruct (is_empty kept) eqn:E.
  - apply is_empty_true in E.
    split; [tauto|]. split; [intros H; contradiction | intros e H; congruence].
  - apply is_empty_false in E.
    split; [split; [discriminate | contradiction]|].
    split; [reflexivity | discriminate].
Qed.

(** C6.  [excluded_of(C)] returns a criterion whose incompatibilities are
    the original ones followed by [C], whose candidates are the original
    candidates without any [c] such that [c == C], in their order, and whose
    information is unchanged; it raises [RequirementsConflicted] carrying
    the original criterion exactly when no candidate is left, and raises
    nothing else.  The result is a function of the criterion, which it does
    not mutate. *)
Theorem excluded_of_spec self C :
  let kept := filter (fun c => negb (Candidate_eqb c C)) (candidates self) in
  (excluded_of Candidate_eqb self C = Raise (RequirementsConflicted self)
   <-> kept = []) /\
  (kept <> [] ->
   excluded_of Candidate_eqb self C =
   Return {| candidates := kept;
             information := information self;
             incompatibilities := incompatibilities self ++ [C] |}) /\
  (forall e, excluded_of Candidate_eqb self C = Raise e ->
             e = RequirementsConflicted self) /\
  (forall c, In c kept <-> In c (candidates self) /\ Candidate_eqb c C = false).
Proof.
  intros kept. unfold excluded_of. cbv zeta. fold kept.
  assert (Hin : forall c, In c kept <->
                          In c (candidates self) /\ Candidate_eqb c C = false).
  { intros c. unfold kept. rewrite filter_In, negb_true_iff. tauto. }
  destruct (is_empty kept) eqn:E.
  - apply is_empty_true in E.
    split; [tauto|]. split; [intros H; contradiction|].
    split; [intros e H; congruence | exact Hin].
  - apply is_empty_false in E.
    split; [split; [discriminate | contradiction]|].
    split; [reflexivity|]. split; [discriminate | exact Hin].
Qed.

(** [from_requirement] returns the criterion built from [find_matches(R)]
    whatever that list is: it has no path that raises, also when the list
    is empty. *)
Lemma from_requirement_never_raises R par :
  from_requirement p R par =
  Return {| candidates := find_matches p R;
            information := [ {| requirement := R; parent := par |} ];
            incompatibilities := [] |}
  /\ forall e, from_requirement p R par <> Raise e.
Proof. unfold from_requirement. split; [reflexivity | discriminate]. Qed.

End CriterionFacts.

(** * The engine *)

Section EngineFacts.
Context {Requirement Candidate Identifier Preference : Type}.
Variable Identifier_eq_dec : forall x y : Identifier, {x = y} + {x <> y}.
Variable Candidate_is : forall x y : Candidate, {x = y} + {x <> y}.
Variable Candidate_eqb : Candidate -> Candidate -> bool.
Variable Preference_ltb : Preference -> Preference -> bool.
Variable p : @Provider Requirement Candidate Identifier Preference.

Implicit Types (s : @State Requirement Candidate Identifier)
  (rest states : list (@State Requirement Candidate Identifier))
  (name k : Identifier) (R : Requirement) (par : option Candidate)
  (cand : Candidate) (crit c : @Criterion Requirement Candidate)
  (cr : Dict.t (Key:=Identifier) (V:=@Criterion Requirement Candidate)).

#[local] Abbreviation getitem := (Dict.getitem Identifier_eq_dec).
#[local] Abbreviation setitem := (Dict.setitem Identifier_eq_dec).
#[local] Abbreviation contains := (Dict.contains Identifier_eq_dec).
#[local] Abbreviation contribute := (_contribute_to_criteria Identifier_eq_dec p).
#[local] Abbreviation subdeps := (contribute_subdeps Identifier_eq_dec p).
#[local] Abbreviation check := (_check_pinnability Identifier_eq_dec p).
#[local] Abbreviation c_ok := (criteria_ok Candidate_eqb).
#[local] Abbreviation c_ext := (criteria_ext Identifier_eq_dec).
#[local] Abbreviation s_ok := (state_ok Identifier_eq_dec Candidate_eqb).
#[local] Abbreviation st_ok := (stack_ok Identifier_eq_dec Candidate_eqb).
#[local] Abbreviation contributed := (contributed Identifier_eq_dec p).

Lemma state_eta s : {| mapping := mapping s; criteria := criteria s |} = s.
Proof. now destruct s. Qed.

(** ** Contributing a requirement *)

Lemma contribute_eq name R par s rest :
  contribute name R par (s :: rest) =
  match contributed (criteria s) name R par with
  | Return crit =>
      (Return tt,
       {| mapping := mapping s;
          criteria := setitem name crit (criteria s) |} :: rest)
  | Raise e => (Raise e, s :: rest)
  end.
Proof.
  unfold _contribute_to_criteria, contributed, bind, state, lift_outcome,
    set_criteria. simpl.
  destruct (getitem name (criteria s)) as [crit|].
  - destruct (merged_with p crit R par); reflexivity.
  - destruct (from_requirement p R par); reflexivity.
Qed.

Lemma contribute_nil name R par :
  contribute name R par [] = (Raise (AttributeError "state"), []).
Proof. reflexivity. Qed.

Lemma contributed_cases cr name R par :
  (exists c, getitem name cr = Some c /\
             contributed cr name R par = Raise (RequirementsConflicted c)) \/
  (exists crit, contributed cr name R par = Return crit /\
     incompatibilities crit = incompat_of Identifier_eq_dec name cr /\
     (c_ok cr -> crit_disjoint Candidate_eqb crit)).
Proof.
  unfold contributed, incompat_of.
  destruct (getitem name cr) as [c|] eqn:E.
  - destruct (merged_with_cases p c R par) as [H|(c' & H & _ & _ & _ & Hi)].
    + left. now exists c.
    + right. exists c'. split; [assumption|]. split; [assumption|].
      intros [_ Hd]. eapply merged_with_disjoint; [|exact H].
      eapply Hd. eapply getitem_In. exact E.
  - right. eexists. split; [reflexivity|]. split; [reflexivity|].
    intros _ x i _ [].
Qed.

Lemma c_ext_refl cr : c_ext cr cr.
Proof. intros k. auto. Qed.

Lemma c_ext_trans cr1 cr2 cr3 : c_ext cr1 cr2 -> c_ext cr2 cr3 -> c_ext cr1 cr3.
Proof.
  intros H12 H23 k. destruct (H12 k) as [E1 C1], (H23 k) as [E2 C2].
  split; [congruence | auto].
Qed.

Lemma setitem_ok_ext cr name crit :
  incompatibilities crit = incompat_of Identifier_eq_dec name cr ->
  (c_ok cr -> crit_disjoint Candidate_eqb crit) ->
  (c_ok cr -> c_ok (setitem name crit cr)) /\ c_ext cr (setitem name crit cr).
Proof.
  intros Hi Hd. split.
  - intros Hok. destruct (Hok) as [Hwf Hall]. split; [now apply wf_setitem|].
    intros k c Hin. apply In_setitem in Hin as [E|Hin]; [|eauto].
    injection E as -> ->. auto.
  - intros k. split; [|apply contains_setitem].
    unfold incompat_of. destruct (Identifier_eq_dec name k) as [<-|Hne].
    + rewrite getitem_setitem_eq. exact Hi.
    + now rewrite getitem_setitem_neq.
Qed.

(** A contribution either conflicts and leaves the history alone, or
    replaces one criterion of the current frame. *)
Lemma contribute_shape name R par s rest :
  exists o cr',
    contribute name R par (s :: rest) =
      (o, {| mapping := mapping s; criteria := cr' |} :: rest) /\
    (o = Return tt \/
     (exists c, o = Raise (RequirementsConflicted c)) /\ cr' = criteria s) /\
    (c_ok (criteria s) -> c_ok cr') /\ c_ext (criteria s) cr'.
Proof.
  rewrite contribute_eq.
  destruct (contributed_cases (criteria s) name R par)
    as [(c & _ & ->)|(crit & -> & Hi & Hd)].
  - exists (Raise (RequirementsConflicted c)), (criteria s).
    rewrite state_eta. split; [reflexivity|].
    split; [right; split; [now exists c | reflexivity]|].
    split; [auto | apply c_ext_refl].
  - exists (Return tt), (setitem name crit (criteria s)).
    split; [reflexivity|]. split; [now left|].
    now apply setitem_ok_ext.
Qed.

(** The loop over the sub-dependencies stops at the first conflict. *)
Lemma subdeps_shape cand deps s rest :
  exists o cr',
    subdeps cand deps (s :: rest) =
      (o, {| mapping := mapping s; criteria := cr' |} :: rest) /\
    (o = Return tt \/ exists c, o = Raise (RequirementsConflicted c)) /\
    (c_ok (criteria s) -> c_ok cr') /\ c_ext (criteria s) cr'.
Proof.
  revert s. induction deps as [|R deps IH]; intros s; simpl.
  - exists (Return tt), (criteria s). unfold ret. rewrite state_eta.
    split; [reflexivity|]. split; [now left|]. split; [auto | apply c_ext_refl].
  - unfold bind.
    destruct (contribute_shape (identify p R) R (Some cand) s rest)
      as (o & cr1 & -> & [->|[[c ->] ->]] & Hok1 & Hext1).
    + destruct (IH {| mapping := mapping s; criteria := cr1 |})
        as (o2 & cr2 & E2 & Ho2 & Hok2 & Hext2). simpl in *.
      exists o2, cr2. split; [exact E2|]. split; [exact Ho2|].
      split; [auto | eapply c_ext_trans; eauto].
    + exists (Raise (RequirementsConflicted c)), (criteria s).
      split; [reflexivity|]. split; [right; now exists c|].
      split; [auto | apply c_ext_refl].
Qed.

Lemma subdeps_app cand deps1 deps2 states :
  subdeps cand (deps1 ++ deps2) states =
  match subdeps cand deps1 states with
  | (Return _, states1) => subdeps cand deps2 states1
  | (Raise e, states1) => (Raise e, states1)
  end.
Proof.
  revert states. induction deps1 as [|R deps1 IH]; intros states; simpl.
  - reflexivity.
  - unfold bind.
    destruct (contribute (identify p R) R (Some cand) states) as [[[]|e] st1];
      [apply IH | reflexivity].
Qed.

(** A conflict of the loop is the conflict of one sub-dependency, reached
    after all the earlier ones were contributed. *)
Lemma subdeps_raise cand deps states e states' :
  subdeps cand deps states = (Raise e, states') ->
  exists pre R post states1,
    deps = pre ++ R :: post /\
    subdeps cand pre states = (Return tt, states1) /\
    contribute (identify p R) R (Some cand) states1 = (Raise e, states').
Proof.
  revert states. induction deps as [|R deps IH]; intros states; simpl.
  - discriminate.
  - unfold bind.
    destruct (contribute (identify p R) R (Some cand) states)
      as [[[]|e1] st1] eqn:E1.
    + intros H. destruct (IH _ H) as (pre & R' & post & st2 & -> & Hpre & HR).
      exists (R :: pre), R', post, st2. split; [reflexivity|].
      split; [|exact HR]. simpl. unfold bind. now rewrite E1.
    + intros H. injection H as -> ->.
      exists [], R, deps, states. auto.
Qed.

(** ** The pinnability check *)

Lemma check_eq cand s rest :
  check cand (s :: rest) =
  match subdeps cand (get_dependencies p cand) (s :: rest) with
  | (Return _, states') => (Return true, states')
  | (Raise (RequirementsConflicted _), states') =>
      match states' with
      | [] => (Raise (AttributeError "state"), [])
      | s' :: rest' =>
          (Return false,
           {| mapping := mapping s';
              criteria := Dict.update Identifier_eq_dec
                            (Dict.clear (criteria s')) (criteria s) |} :: rest')
      end
  | (Raise e, states') => (Raise e, states')
  end.
Proof.
  unfold _check_pinnability, bind at 1, state, try_except_conflicted.
  unfold bind at 1.
  destruct (subdeps cand (get_dependencies p cand) (s :: rest))
    as [[[]|e] states']; [reflexivity|].
  destruct e; try reflexivity.
  unfold bind, set_criteria, ret. destruct states'; reflexivity.
Qed.

Lemma check_shape cand s rest :
  exists b cr',
    check cand (s :: rest) =
      (Return b, {| mapping := mapping s; criteria := cr' |} :: rest) /\
    (b = false -> Dict.wf (criteria s) -> cr' = criteria s) /\
    (c_ok (criteria s) -> c_ok cr' /\ c_ext (criteria s) cr').
Proof.
  rewrite check_eq.
  destruct (subdeps_shape cand (get_dependencies p cand) s rest)
    as (o & cr1 & -> & [->|[c ->]] & Hok & Hext).
  - exists true, cr1. split; [reflexivity|]. split; [discriminate | auto].
  - exists false, (Dict.update Identifier_eq_dec (Dict.clear cr1) (criteria s)).
    simpl. split; [reflexivity|]. split.
    + intros _ Hwf. now apply clear_update.
    + intros H. rewrite clear_update by apply H. split; [exact H | apply c_ext_refl].
Qed.

(** ** Pinning *)

#[local] Abbreviation pin := (pin_candidates Identifier_eq_dec p).

(** [_pin_criterion] always returns; when it fails the frame is as before,
    when it succeeds exactly one of the candidates tried is pinned, last in
    the mapping. *)
Lemma pin_candidates_shape name cands s rest :
  Dict.wf (criteria s) ->
  exists b s',
    pin name cands (s :: rest) = (Return b, s' :: rest) /\
    (b = false -> s' = s) /\
    (b = true -> exists cand, In cand cands /\
       mapping s' =
       setitem name cand (Dict.pop Identifier_eq_dec name (mapping s))) /\
    (c_ok (criteria s) -> c_ok (criteria s') /\ c_ext (criteria s) (criteria s')).
Proof.
  intros Hwf. induction cands as [|cand cands IH]; simpl.
  - exists false, s. unfold ret. split; [reflexivity|]. split; [reflexivity|].
    split; [discriminate|]. intros H. split; [exact H | apply c_ext_refl].
  - unfold bind at 1.
    destruct (check_shape cand s rest) as (b & cr' & -> & Hb & Hok).
    destruct b; simpl.
    + unfold bind, set_mapping, ret. simpl.
      eexists true, _. split; [reflexivity|]. simpl.
      split; [discriminate|]. split; [|exact Hok].
      intros _. exists cand. split; [now left | reflexivity].
    + rewrite (Hb eq_refl Hwf), state_eta.
      destruct IH as (b & s' & E & Hf & Ht & Hok').
      exists b, s'. split; [exact E|]. split; [exact Hf|]. split; [|exact Hok'].
      intros Hbt. destruct (Ht Hbt) as (c0 & Hin & Hm).
      exists c0. split; [now right | exact Hm].
Qed.

Lemma pin_candidates_ok name cands s rest b s' :
  s_ok s -> contains name (criteria s) = true ->
  (forall cand i, In cand cands ->
     In i (incompat_of Identifier_eq_dec name (criteria s)) ->
     Candidate_eqb cand i = false) ->
  pin name cands (s :: rest) = (Return b, s' :: rest) -> s_ok s'.
Proof.
  intros (Hwfm & Hcok & Hpins) Hname Hcands Hrun.
  destruct (pin_candidates_shape name cands s rest (proj1 Hcok))
    as (b0 & s0 & E & Hf & Ht & Hok).
  rewrite E in Hrun. injection Hrun as -> ->.
  destruct b.
  - destruct (Ht eq_refl) as (cand & Hin & Hm).
    destruct (Hok Hcok) as [Hcok' Hext].
    split; [|split; [exact Hcok'|]].
    + rewrite Hm. apply wf_setitem, wf_pop, Hwfm.
    + intros k pin0. rewrite Hm.
      destruct (Identifier_eq_dec name k) as [<-|Hne].
      * rewrite getitem_setitem_eq. intros H. injection H as <-.
        destruct (Hext name) as [Hi Hc]. split; [auto|].
        rewrite Hi. intros i. now apply Hcands.
      * rewrite getitem_setitem_neq, getitem_pop_neq by assumption.
        intros H. destruct (Hpins _ _ H) as [Hc Hi].
        destruct (Hext k) as [Hi' Hc']. split; [auto|]. now rewrite Hi'.
  - rewrite (Hf eq_refl). now split.
Qed.

(** ** Backtracking *)

#[local] Abbreviation backtrack :=
  (backtrack_frames Identifier_eq_dec Candidate_eqb).

Lemma backtrack_frames_cons crit s rest :
  backtrack crit (s :: rest) =
  match Dict.popitem (mapping s) with
  | None => (Raise KeyError, s :: rest)
  | Some ((name, candidate), mapping') =>
      let s' := {| mapping := mapping'; criteria := criteria s |} in
      match getitem name (criteria s) with
      | None => (Raise KeyError, s' :: rest)
      | Some c =>
          match excluded_of Candidate_eqb c candidate with
          | Raise (RequirementsConflicted _) => backtrack crit rest
          | Raise e => (Raise e, s' :: rest)
          | Return criterion' =>
              (Return tt,
               {| mapping := mapping';
                  criteria := setitem name criterion' (criteria s) |} :: rest)
          end
      end
  end.
Proof. reflexivity. Qed.

Lemma backtrack_frames_outcome crit states :
  fst (backtrack crit states) = Return tt \/
  fst (backtrack crit states) = Raise KeyError \/
  fst (backtrack crit states) = Raise (ResolutionImpossible (iter_requirement crit)).
Proof.
  induction states as [|s rest IH]; simpl; [auto|].
  destruct (Dict.popitem (mapping s)) as [[[name cand] m']|]; simpl; [|auto].
  destruct (getitem name (criteria s)) as [c|]; simpl; [|auto].
  destruct (excluded_of_cases Candidate_eqb c cand) as [->|(c' & -> & _)];
    simpl; auto.
Qed.

Lemma popped_state_ok s name cand m' :
  s_ok s -> Dict.popitem (mapping s) = Some ((name, cand), m') ->
  s_ok {| mapping := m'; criteria := criteria s |}.
Proof.
  intros (Hwfm & Hcok & Hpins) Hpop.
  destruct (popitem_getitem Identifier_eq_dec _ _ _ _ Hwfm Hpop)
    as (Hwf' & _ & Hsub).
  split; [exact Hwf' | split; [exact Hcok|]]. simpl.
  intros k pin0 H. apply Hpins. now apply Hsub.
Qed.

Lemma backtrack_frames_ok crit states :
  st_ok states -> st_ok (snd (backtrack crit states)).
Proof.
  induction states as [|s rest IH]; simpl; [auto|].
  intros Hst. inversion Hst as [|? ? Hs Hrest]; subst.
  destruct (Dict.popitem (mapping s)) as [[[name cand] m']|] eqn:Hpop;
    simpl; [|exact Hst].
  pose proof (popped_state_ok _ _ _ _ Hs Hpop) as Hs'.
  destruct (getitem name (criteria s)) as [c|] eqn:Hc; simpl;
    [|now constructor].
  destruct (excluded_of_cases Candidate_eqb c cand)
    as [->|(c' & E & _ & _ & _ & Hi)]; simpl; [now apply IH|].
  rewrite E. simpl. constructor; [|exact Hrest].
  destruct Hs as (Hwfm & Hcok & Hpins).
  destruct (popitem_getitem Identifier_eq_dec _ _ _ _ Hwfm Hpop)
    as (Hwf' & Hgone & Hsub).
  split; [exact Hwf'|]. simpl. split.
  - split; [apply wf_setitem, Hcok|].
    intros k c0 Hin. apply In_setitem in Hin as [H|Hin].
    + injection H as -> ->. eapply excluded_of_disjoint; [|exact E].
      eapply (proj2 Hcok). eapply getitem_In. exact Hc.
    + eapply (proj2 Hcok). exact Hin.
  - intros k pin0 H.
    assert (Hne : name <> k) by (intros ->; congruence).
    destruct (Hpins _ _ (Hsub _ _ H)) as [Hcon Hinc].
    split; [now apply contains_setitem|].
    unfold incompat_of in *. now rewrite getitem_setitem_neq.
Qed.

(** Backtracking can only undo a pin.  In a history whose oldest frame has
    none, it never gets to delete that frame: it either returns, or a
    [popitem] on an empty mapping raises [KeyError]. *)
Lemma backtrack_frames_bottom crit states :
  bottom_unpinned states ->
  (fst (backtrack crit states) = Return tt /\
   bottom_unpinned (snd (backtrack crit states))) \/
  fst (backtrack crit states) = Raise KeyError.
Proof.
  induction states as [|s rest IH]; [intros []|].
  intros Hbot. rewrite backtrack_frames_cons.
  destruct (Dict.popitem (mapping s)) as [[[name cand] m']|] eqn:Hpop;
    [|now right].
  destruct rest as [|s1 rest1].
  { simpl in Hbot. rewrite Hbot in Hpop. discriminate. }
  cbv zeta.
  destruct (getitem name (criteria s)) as [c|]; [|now right].
  destruct (excluded_of_cases Candidate_eqb c cand) as [->|(c' & -> & _)].
  - apply IH. exact Hbot.
  - left. split; [reflexivity | exact Hbot].
Qed.

(** ** The round loop *)

#[local] Abbreviation run_rounds :=
  (rounds Identifier_eq_dec Candidate_eqb Preference_ltb p).
#[local] Abbreviation satisfying := (_is_current_pin_satisfying Identifier_eq_dec p).

Lemma min_by_In {A : Type} (key : A -> Preference) (best : A) (items : list A) :
  In (min_by Preference_ltb key best items) (best :: items).
Proof.
  revert best. induction items as [|x items IH]; intros best; simpl.
  - now left.
  - destruct (Preference_ltb (key x) (key best)).
    + right. apply IH.
    + destruct (IH best) as [H|H]; [now left | right; now right].
Qed.

#[local] Arguments backtrack_frames : simpl never.

Lemma push_new_state_cons s rest :
  _push_new_state (s :: rest) = (Return tt, s :: s :: rest).
Proof. unfold _push_new_state. now rewrite state_eta. Qed.

#[local] Abbreviation l_ok :=
  (@log_ok Requirement Candidate Identifier Identifier_eq_dec Candidate_eqb).

Lemma log_ok_snoc log e :
  l_ok log -> event_ok Identifier_eq_dec Candidate_eqb e -> l_ok (log ++ [e]).
Proof.
  intros Hl He. apply Forall_app. split; [exact Hl | now constructor].
Qed.

(** Whatever the outcome of the rounds, every frame left in the history and
    every frame shown to the reporter satisfies the invariant; and when the
    loop returns, the pin of every identifier of the current frame satisfies
    all the requirements of its criterion. *)
Lemma rounds_ok max_rounds n i self o self' :
  st_ok (_states self) -> bottom_unpinned (_states self) -> l_ok (_r self) ->
  run_rounds max_rounds n i self = (o, self') ->
  st_ok (_states self') /\ l_ok (_r self') /\
  (o = Return tt ->
   exists s rest, _states self' = s :: rest /\
     forall item, In item (criteria s) -> satisfying s item = true) /\
  (forall e, o = Raise e -> e = ResolutionTooDeep max_rounds \/ e = KeyError).
Proof.
  revert i self. induction n as [|n IH]; intros i [states log]; simpl.
  - intros Hok _ Hlog H. injection H as <- <-.
    split; [exact Hok | split; [exact Hlog | split; [discriminate|]]].
    intros e H. injection H as <-. now left.
  - intros Hok Hbot Hlog. destruct states as [|[bm bcr] rest]; [destruct Hbot|].
    unfold bind at 1, report at 1. simpl.
    unfold bind at 1, on_states at 1. simpl.
    unfold bind at 1, on_states at 1. simpl.
    set (base := {| mapping := bm; criteria := bcr |}) in *.
    change bcr with (criteria base).
    inversion Hok as [|? ? Hbase Hrest]; subst.
    assert (Hlog1 : l_ok (log ++ [starting_round i]))
      by (apply log_ok_snoc; [exact Hlog | exact I]).
    destruct (filter _ (criteria base)) as [|item items] eqn:Hf.
    + unfold bind, on_states, report, ret. simpl.
      intros H. injection H as <- <-. simpl. split; [exact Hok|].
      split; [now apply log_ok_snoc|]. split; [|discriminate].
      intros _. exists base, rest. split; [reflexivity|].
      intros item Hin.
      destruct (satisfying base item) eqn:E; [reflexivity|].
      assert (Hin' : In item []) by (rewrite <- Hf; apply filter_In; now rewrite E).
      destruct Hin'.
    + destruct (min_by _ _ item items) as [name criterion] eqn:Hmin.
      assert (Hsel : In (name, criterion) (criteria base)).
      { pose proof (min_by_In (_get_criterion_item_preference Identifier_eq_dec p base)
                      item items) as Hin.
        rewrite Hmin, <- Hf in Hin. now apply filter_In in Hin. }
      destruct (Hbase) as (Hwfm & Hcok & Hpins).
      assert (Hget : getitem name (criteria base) = Some criterion)
        by (apply In_getitem; [apply Hcok | exact Hsel]).
      unfold bind at 1, on_states at 1, _pin_criterion. simpl.
      destruct (pin_candidates_shape name (rev (candidates criterion)) base
                  (base :: rest) (proj1 Hcok)) as (b & s' & E & _).
      assert (Hs' : s_ok s').
      { eapply pin_candidates_ok; [exact Hbase | | | exact E].
        - unfold Dict.contains. now rewrite Hget.
        - unfold incompat_of. rewrite Hget. intros cand i0 Hc Hi.
          apply (proj2 Hcok _ _ Hsel); [now apply in_rev | exact Hi]. }
      rewrite E. simpl.
      unfold bind at 1, on_states at 1. simpl.
      destruct b; simpl.
      * unfold bind at 1, ret at 1. unfold bind at 1, report at 1. simpl.
        intros H. eapply IH; [| | |exact H]; simpl.
        -- constructor; assumption.
        -- exact Hbot.
        -- now apply log_ok_snoc.
      * unfold bind at 1, on_states at 1, _backtrack_to_last_workable_state.
        simpl.
        pose proof (backtrack_frames_ok criterion (base :: rest) Hok) as Hbt.
        pose proof (backtrack_frames_bottom criterion (base :: rest) Hbot) as Hbb.
        destruct (backtrack criterion (base :: rest)) as [[[]|e] states2] eqn:Eb;
          simpl in Hbt, Hbb; simpl.
        -- unfold bind at 1, report at 1. simpl.
           intros H. eapply IH; [| | |exact H]; simpl.
           ++ exact Hbt.
           ++ destruct Hbb as [[_ Hb]|Hb]; [exact Hb | discriminate].
           ++ now apply log_ok_snoc.
        -- intros H. injection H as <- <-. simpl.
           split; [exact Hbt | split; [exact Hlog1 | split; [discriminate|]]].
           intros e0 He0. injection He0 as <-.
           destruct Hbb as [[Hb _]|Hb]; [discriminate|]. injection Hb as ->. now right.
Qed.

(** ** The root requirements *)

#[local] Abbreviation roots := (contribute_roots Identifier_eq_dec p).

Lemma contribute_roots_shape reqs s rest :
  exists o cr',
    roots reqs (s :: rest) =
      (o, {| mapping := mapping s; criteria := cr' |} :: rest) /\
    (o = Return tt \/ o = Raise (AttributeError "requirements")) /\
    (c_ok (criteria s) -> c_ok cr') /\ c_ext (criteria s) cr'.
Proof.
  revert s. induction reqs as [|R reqs IH]; intros s; simpl.
  - exists (Return tt), (criteria s). unfold ret. rewrite state_eta.
    split; [reflexivity|]. split; [now left|]. split; [auto | apply c_ext_refl].
  - unfold bind, try_except_conflicted, raise.
    destruct (contribute_shape (identify p R) R None s rest)
      as (o & cr1 & -> & [->|[[c ->] ->]] & Hok1 & Hext1).
    + destruct (IH {| mapping := mapping s; criteria := cr1 |})
        as (o2 & cr2 & E2 & Ho2 & Hok2 & Hext2). simpl in *.
      exists o2, cr2. split; [exact E2|]. split; [exact Ho2|].
      split; [auto | eapply c_ext_trans; eauto].
    + exists (Raise (AttributeError "requirements")), (criteria s).
      split; [reflexivity|]. split; [now right|].
      split; [auto | apply c_ext_refl].
Qed.

#[local] Abbreviation resolution_resolve :=
  (Resolution_resolve Identifier_eq_dec Candidate_eqb Preference_ltb p).

Lemma c_ok_nil :
  c_ok ([] : Dict.t (Key:=Identifier) (V:=@Criterion Requirement Candidate)).
Proof. split; [constructor | intros k c []]. Qed.

Lemma s_ok_unpinned cr : c_ok cr -> s_ok {| mapping := []; criteria := cr |}.
Proof.
  intros H. split; [constructor | split; [exact H|]].
  simpl. intros k pin0. discriminate.
Qed.

(** The invariant holds of every frame that [Resolution.resolve] leaves
    behind, whatever its outcome; and it can only end in three ways other
    than returning. *)
Lemma resolution_resolve_ok reqs max_rounds o self' :
  resolution_resolve reqs max_rounds Resolution_init = (o, self') ->
  st_ok (_states self') /\ l_ok (_r self') /\
  (o = Return tt ->
   exists s rest, _states self' = s :: rest /\
     forall item, In item (criteria s) -> satisfying s item = true) /\
  (forall e, o = Raise e ->
     e = AttributeError "requirements" \/
     e = ResolutionTooDeep max_rounds \/ e = KeyError).
Proof.
  unfold Resolution_resolve, Resolution_init. simpl.
  unfold bind at 1, on_states at 1. simpl.
  unfold bind at 1, on_states at 1. simpl.
  destruct (contribute_roots_shape reqs {| mapping := []; criteria := [] |} [])
    as (o1 & cr' & -> & Ho1 & Hok & _). simpl.
  pose proof (s_ok_unpinned cr' (Hok c_ok_nil)) as Hs.
  destruct Ho1 as [->| ->].
  - unfold bind at 1, report at 1. simpl. intros H.
    eapply rounds_ok in H; simpl;
      [ | now constructor | reflexivity | constructor; [exact I | constructor] ].
    destruct H as (H1 & H2 & H3 & H4).
    split; [exact H1 | split; [exact H2 | split; [exact H3|]]].
    intros e He. right. now apply H4.
  - intros H. injection H as <- <-. simpl.
    split; [now constructor | split; [constructor | split; [discriminate|]]].
    intros e He. injection He as <-. now left.
Qed.

(** ** The result *)

#[local] Abbreviation resolver_resolve :=
  (Resolver_resolve Identifier_eq_dec Candidate_is Candidate_eqb Preference_ltb p).

Lemma build_result_fields limit s res :
  _build_result Identifier_eq_dec Candidate_is limit s = Return res ->
  result_criteria res = criteria s /\
  exists f : Identifier -> bool,
    result_mapping res = filter (fun kv => f (fst kv)) (mapping s).
Proof.
  unfold _build_result.
  destruct (build_graph _ _ _ _ _ _ _) as [[[]|e] [g connected]]; [|discriminate].
  intros H. injection H as <-. simpl. split; [reflexivity|].
  now exists (fun k => set_contains Identifier_eq_dec (Some k) connected).
Qed.

(** A result is built from a frame that satisfies the invariant and in
    which every pin satisfies its criterion. *)
Lemma resolver_resolve_return limit reqs max_rounds res log :
  resolver_resolve limit reqs max_rounds = (Return res, log) ->
  exists s,
    _build_result Identifier_eq_dec Candidate_is limit s = Return res /\
    s_ok s /\
    forall item, In item (criteria s) -> satisfying s item = true.
Proof.
  unfold Resolver_resolve.
  destruct (resolution_resolve reqs max_rounds Resolution_init)
    as [[[]|e] self'] eqn:E; [|discriminate].
  destruct (resolution_resolve_ok _ _ _ _ E) as (Hst & _ & Hsat & _).
  destruct (Hsat eq_refl) as (s & rest & Es & Hall).
  rewrite Es in *. simpl. intros H. injection H as H _.
  exists s. split; [exact H|]. split; [|exact Hall].
  now inversion Hst.
Qed.

(** C1.  Soundness of pinning: whenever [resolve] returns a result, every
    identifier of the returned mapping has a criterion in the returned
    criteria, its pinned candidate satisfies every requirement recorded in
    the information of that criterion, and the pin is no member of the
    incompatibilities of that criterion: it differs ([!=]) from each of
    them and, for a candidate class whose [==] holds of an object and
    itself, it is none of these objects either. *)
Theorem pinning_sound limit reqs max_rounds res log :
  Resolver_resolve Identifier_eq_dec Candidate_is Candidate_eqb Preference_ltb p
    limit reqs max_rounds = (Return res, log) ->
  forall K C,
    Dict.getitem Identifier_eq_dec K (result_mapping res) = Some C ->
    exists crit,
      Dict.getitem Identifier_eq_dec K (result_criteria res) = Some crit /\
      (forall R, In R (iter_requirement crit) -> is_satisfied_by p R C = true) /\
      (forall i, In i (incompatibilities crit) -> Candidate_eqb C i = false) /\
      ((forall x, Candidate_eqb x x = true) -> ~ In C (incompatibilities crit)).
Proof.
  intros Hres K C HK.
  destruct (resolver_resolve_return _ _ _ _ _ Hres) as (s & Hb & Hs & Hsat).
  destruct (build_result_fields _ _ _ Hb) as (Hcr & f & Hm).
  rewrite Hm in HK. apply getitem_filter_key in HK.
  destruct Hs as (_ & _ & Hpins). destruct (Hpins _ _ HK) as [Hcon Hinc].
  unfold Dict.contains in Hcon. unfold incompat_of in Hinc.
  destruct (getitem K (criteria s)) as [crit|] eqn:Ec; [|discriminate].
  exists crit. rewrite Hcr. split; [exact Ec|].
  assert (Hne : forall i, In i (incompatibilities crit) -> Candidate_eqb C i = false)
    by exact Hinc.
  split; [|split; [exact Hne|]].
  - specialize (Hsat (K, crit) (getitem_In _ _ _ _ Ec)).
    unfold _is_current_pin_satisfying in Hsat. rewrite HK in Hsat.
    intros R HR. rewrite forallb_forall in Hsat. now apply Hsat.
  - intros Hrefl Hin. specialize (Hne _ Hin). rewrite Hrefl in Hne. discriminate.
Qed.

(** C9.  Disjointness invariant.  Whatever the outcome of a resolution,
    every criterion stored in a frame of its history, every criterion of a
    frame shown to the reporter at the end of a round or of the resolution,
    and every criterion of a returned result has no candidate equal to one
    of its incompatibilities.  The property holds of the criteria made by
    [from_requirement] and is preserved by [merged_with] and by
    [excluded_of]; for a candidate class whose [==] holds of an object and
    itself it means that no object is both a candidate and an
    incompatibility.  (Between two calls of the methods that change the
    history the frames satisfy the invariant too: see the lemmas of
    "The invariant, method by method".) *)
Theorem disjointness_invariant reqs max_rounds o self' :
  Resolution_resolve Identifier_eq_dec Candidate_eqb Preference_ltb p
    reqs max_rounds Resolution_init = (o, self') ->
  (forall s K c, In s (_states self') -> In (K, c) (criteria s) ->
     crit_disjoint Candidate_eqb c) /\
  (forall s i K c, In (ending s) (_r self') \/ In (ending_round i s) (_r self') ->
     In (K, c) (criteria s) -> crit_disjoint Candidate_eqb c) /\
  (forall limit res log K c,
     Resolver_resolve Identifier_eq_dec Candidate_is Candidate_eqb Preference_ltb
       p limit reqs max_rounds = (Return res, log) ->
     In (K, c) (result_criteria res) -> crit_disjoint Candidate_eqb c) /\
  (forall R par c, from_requirement p R par = Return c ->
     crit_disjoint Candidate_eqb c) /\
  (forall self R par c, crit_disjoint Candidate_eqb self ->
     merged_with p self R par = Return c -> crit_disjoint Candidate_eqb c) /\
  (forall self C c, crit_disjoint Candidate_eqb self ->
     excluded_of Candidate_eqb self C = Return c -> crit_disjoint Candidate_eqb c) /\
  (forall c, crit_disjoint Candidate_eqb c ->
     (forall x, Candidate_eqb x x = true) ->
     forall x, In x (candidates c) -> ~ In x (incompatibilities c)).
Proof.
  intros Hrun.
  destruct (resolution_resolve_ok _ _ _ _ Hrun) as (Hst & Hlog & _ & _).
  split; [|split; [|split; [|split; [|split; [|split]]]]].
  - intros s K c Hs Hin.
    unfold stack_ok in Hst. rewrite Forall_forall in Hst.
    destruct (Hst _ Hs) as (_ & [_ Hd] & _). eapply Hd. exact Hin.
  - intros s i K c He Hin.
    unfold log_ok in Hlog. rewrite Forall_forall in Hlog.
    destruct He as [He|He]; apply Hlog in He; simpl in He;
      destruct He as (_ & [_ Hd] & _); eapply Hd; exact Hin.
  - intros limit res log K c Hres Hin.
    destruct (resolver_resolve_return _ _ _ _ _ Hres) as (s & Hb & Hs & _).
    destruct (build_result_fields _ _ _ Hb) as (Hcr & _).
    rewrite Hcr in Hin. destruct Hs as (_ & [_ Hd] & _). eapply Hd. exact Hin.
  - intros R par c. apply from_requirement_disjoint.
  - intros self R par c. apply merged_with_disjoint.
  - intros self C c. apply excluded_of_disjoint.
  - intros c Hd Hrefl x Hx Hi. specialize (Hd x x Hx Hi).
    rewrite Hrefl in Hd. discriminate.
Qed.

(** ** Atomicity of the pinnability check *)

Lemma contribute_frame name R par s rest :
  exists o cr',
    contribute name R par (s :: rest) =
      (o, {| mapping := mapping s; criteria := cr' |} :: rest) /\
    (o = Return tt \/ exists c, o = Raise (RequirementsConflicted c)).
Proof.
  rewrite contribute_eq. unfold contributed.
  destruct (getitem name (criteria s)) as [c|].
  - destruct (merged_with_cases p c R par) as [->|(c' & -> & _)].
    + exists (Raise (RequirementsConflicted c)), (criteria s).
      rewrite state_eta. split; [reflexivity | right; now exists c].
    + eexists. eexists. split; [reflexivity | now left].
  - unfold from_requirement. eexists. eexists. split; [reflexivity | now left].
Qed.

Lemma subdeps_frame cand deps s rest :
  exists o cr',
    subdeps cand deps (s :: rest) =
      (o, {| mapping := mapping s; criteria := cr' |} :: rest) /\
    (o = Return tt \/ exists c, o = Raise (RequirementsConflicted c)).
Proof.
  revert s. induction deps as [|R deps IH]; intros s; simpl.
  - exists (Return tt), (criteria s). unfold ret. rewrite state_eta.
    split; [reflexivity | now left].
  - unfold bind.
    destruct (contribute_frame (identify p R) R (Some cand) s rest)
      as (o & cr1 & -> & [->|[c ->]]).
    + apply (IH {| mapping := mapping s; criteria := cr1 |}).
    + exists (Raise (RequirementsConflicted c)), cr1.
      split; [reflexivity | right; now exists c].
Qed.

Lemma contribute_raise_same name R par states e states' :
  contribute name R par states = (Raise e, states') -> states' = states.
Proof.
  destruct states as [|s rest].
  - rewrite contribute_nil. congruence.
  - rewrite contribute_eq.
    destruct (contributed (criteria s) name R par); congruence.
Qed.

(** C7.  [check_pinnability(C)] always returns and never alters the
    mapping of the current frame nor the frames below it.  It returns false
    exactly when the contribution of one of the sub-dependencies of [C]
    raises [RequirementsConflicted] after all the sub-dependencies that
    [get_dependencies(C)] yields before it were contributed (those after it
    are not looked at), and the current frame is then exactly as it was
    before the call; it returns true exactly when every contribution
    succeeds, and the criteria are then the ones these contributions
    leave. *)
Theorem check_pinnability_atomic cand s rest :
  Dict.wf (criteria s) ->
  exists b s',
    _check_pinnability Identifier_eq_dec p cand (s :: rest)
      = (Return b, s' :: rest) /\
    mapping s' = mapping s /\
    (b = false -> s' = s) /\
    (b = false <->
     exists pre R post states1 conflicted,
       get_dependencies p cand = pre ++ R :: post /\
       contribute_subdeps Identifier_eq_dec p cand pre (s :: rest)
         = (Return tt, states1) /\
       _contribute_to_criteria Identifier_eq_dec p (identify p R) R (Some cand)
         states1
         = (Raise (RequirementsConflicted conflicted), states1)) /\
    (b = true <->
     contribute_subdeps Identifier_eq_dec p cand (get_dependencies p cand)
       (s :: rest)
       = (Return tt, s' :: rest)).
Proof.
  intros Hwf. rewrite check_eq.
  destruct (subdeps_frame cand (get_dependencies p cand) s rest)
    as (o & cr1 & E & [->|[c ->]]).
  - rewrite E. eexists true, _. split; [reflexivity|]. simpl.
    split; [reflexivity|]. split; [discriminate|].
    split; [|split; intros _; reflexivity].
    split; [discriminate|].
    intros (pre & R & post & states1 & conflicted & Hdeps & Hpre & HR).
    rewrite Hdeps, subdeps_app, Hpre in E. simpl in E. unfold bind in E.
    rewrite HR in E. discriminate.
  - rewrite E. simpl. rewrite clear_update by exact Hwf. rewrite state_eta.
    exists false, s. split; [reflexivity|]. split; [reflexivity|].
    split; [reflexivity|]. split; [|split; discriminate].
    split; [|reflexivity]. intros _.
    destruct (subdeps_raise _ _ _ _ _ E) as (pre & R & post & states1 & Hd & Hpre & HR).
    exists pre, R, post, states1, c. split; [exact Hd|]. split; [exact Hpre|].
    rewrite HR. f_equal. eapply contribute_raise_same. exact HR.
Qed.

(** ** What backtracking does *)

#[local] Abbreviation backtrack_to_last_workable_state :=
  (_backtrack_to_last_workable_state Identifier_eq_dec Candidate_eqb).

(** The steps of backtracking.  Each iteration of [backtrack(trigger)]
    deletes one frame.  If the history is then empty it raises
    [ResolutionImpossible] with the requirements of the trigger.
    Otherwise, when the mapping of the now-current frame has a
    most-recently-inserted entry [(K, C)] and [K] has a criterion: the entry
    is removed; if [excluded_of(C)] returns, that criterion is replaced by
    the result and the method returns; if it raises
    [RequirementsConflicted], the loop goes on one frame deeper with the
    SAME trigger, the one the method was called with. *)
Theorem backtrack_behaviour trigger top :
  _backtrack_to_last_workable_state Identifier_eq_dec Candidate_eqb trigger
    [top]
  = (Raise (ResolutionImpossible (iter_requirement trigger)), []) /\
  forall s rest K C m' c,
    mapping s = m' ++ [(K, C)] ->
    Dict.getitem Identifier_eq_dec K (criteria s) = Some c ->
    (forall narrowed,
       excluded_of Candidate_eqb c C = Return narrowed ->
       _backtrack_to_last_workable_state Identifier_eq_dec Candidate_eqb
         trigger (top :: s :: rest)
       = (Return tt,
          {| mapping := m';
             criteria := Dict.setitem Identifier_eq_dec K narrowed (criteria s)
          |} :: rest)) /\
    (forall conflicted,
       excluded_of Candidate_eqb c C = Raise (RequirementsConflicted conflicted) ->
       conflicted = c /\
       _backtrack_to_last_workable_state Identifier_eq_dec Candidate_eqb
         trigger (top :: s :: rest)
       = _backtrack_to_last_workable_state Identifier_eq_dec Candidate_eqb
           trigger ({| mapping := m'; criteria := criteria s |} :: rest)).
Proof.
  split; [reflexivity|].
  intros s rest K C m' c Hm Hc.
  unfold _backtrack_to_last_workable_state.
  rewrite backtrack_frames_cons, Hm, popitem_snoc, Hc. cbv zeta.
  split.
  - intros narrowed ->. reflexivity.
  - intros conflicted E. rewrite E. split; [|reflexivity].
    destruct (excluded_of_cases Candidate_eqb c C) as [H|(c' & H & _)];
      rewrite H in E; congruence.
Qed.

(** ** No requirements *)

(** C10.  With no root requirement and at least one round allowed,
    [resolve] returns in the first round, whatever the provider: the
    reporter sees [starting()], [starting_round(0)] and [ending(state)] with
    an empty state, and the result has an empty mapping, no criteria, and a
    graph whose only vertex is the root marker [None], without edges. *)
Theorem resolve_no_requirements limit max_rounds :
  (1 <= max_rounds)%Z ->
  Resolver_resolve Identifier_eq_dec Candidate_is Candidate_eqb Preference_ltb p
    limit [] max_rounds =
  (Return {| result_mapping := [];
             result_graph := {| vertices := [None]; edges := [] |};
             result_criteria := [] |},
   [starting; starting_round 0; ending {| mapping := []; criteria := [] |}]).
Proof.
  intros Hle. unfold Resolver_resolve, Resolution_resolve.
  destruct (Z.to_nat max_rounds) as [|n] eqn:En; [lia|].
  reflexivity.
Qed.

(** ** The exceptions that leave [resolve] *)

Lemma has_route_raise depth cr key all_keys connected e connected' :
  _has_route_to_root Identifier_eq_dec Candidate_is depth cr key all_keys connected
    = (Raise e, connected') ->
  e = RecursionError.
Proof.
  revert key connected connected'.
  induction depth as [|depth IH]; intros key connected connected'; simpl.
  - intros H. now injection H as <- _.
  - destruct (set_contains _ key connected); [discriminate|].
    destruct (criteria_get _ key cr) as [criterion|]; [|discriminate].
    revert connected. generalize (iter_parent criterion) as parents.
    induction parents as [|par parents IHp]; intros connected; [discriminate|].
    destruct (Dict.getitem (ObjectId_eq_dec Candidate_is) par all_keys)
      as [pkey|]; [|apply IHp].
    destruct (set_contains _ pkey connected); [discriminate|].
    destruct (_has_route_to_root _ _ depth cr pkey all_keys connected)
      as [[[|]|e'] c'] eqn:E.
    + discriminate.
    + apply IHp.
    + intros H. injection H as <- _. eapply IH. exact E.
Qed.

Lemma build_graph_raise depth cr all_keys items gc e gc' :
  build_graph Identifier_eq_dec Candidate_is depth cr all_keys items gc
    = (Raise e, gc') ->
  e = RecursionError.
Proof.
  revert gc. induction items as [|[key criterion] items IH]; intros [g connected];
    simpl; [discriminate|].
  destruct (_has_route_to_root _ _ depth cr (Some key) all_keys connected)
    as [[[|]|e'] c'] eqn:E.
  - apply IH.
  - apply IH.
  - intros H. injection H as <- _. eapply has_route_raise. exact E.
Qed.

Lemma build_result_raise limit s e :
  _build_result Identifier_eq_dec Candidate_is limit s = Raise e ->
  e = RecursionError.
Proof.
  unfold _build_result.
  destruct (build_graph _ _ _ _ _ _ _) as [[[]|e'] [g connected]] eqn:E;
    [discriminate|].
  intros H. injection H as <-. eapply build_graph_raise. exact E.
Qed.

(** Only four exceptions leave [Resolver.resolve]; [ResolutionImpossible]
    is not one of them. *)
Lemma resolver_resolve_raise limit reqs max_rounds e log :
  resolver_resolve limit reqs max_rounds = (Raise e, log) ->
  e = AttributeError "requirements" \/ e = ResolutionTooDeep max_rounds \/
  e = KeyError \/ e = RecursionError.
Proof.
  unfold Resolver_resolve.
  destruct (resolution_resolve reqs max_rounds Resolution_init)
    as [[[]|e0] self'] eqn:E.
  - destruct (resolution_resolve_ok _ _ _ _ E) as (_ & _ & Hsat & _).
    destruct (Hsat eq_refl) as (s & rest & Es & _). rewrite Es. simpl.
    intros H. injection H as H _. apply build_result_raise in H. tauto.
  - destruct (resolution_resolve_ok _ _ _ _ E) as (_ & _ & _ & Hraise).
    intros H. injection H as <- _. destruct (Hraise _ eq_refl) as [H|[H|H]]; tauto.
Qed.

(** ** A conflict among the root requirements *)

Lemma contribute_roots_app reqs1 reqs2 states :
  roots (reqs1 ++ reqs2) states =
  match roots reqs1 states with
  | (Return _, states1) => roots reqs2 states1
  | (Raise e, states1) => (Raise e, states1)
  end.
Proof.
  revert states. induction reqs1 as [|R reqs1 IH]; intros states; simpl.
  - reflexivity.
  - unfold bind.
    match goal with
    | |- context [try_except_conflicted ?b ?h states] =>
        destruct (try_except_conflicted b h states) as [[[]|e] st1]
    end; [apply IH | reflexivity].
Qed.

(** Whenever the contribution of a root requirement conflicts, what leaves
    [resolve] is the [AttributeError] of the handler, before the reporter
    was called at all. *)
Lemma root_conflict_raises_AttributeError limit pre R post max_rounds states1 c :
  roots pre [ {| mapping := []; criteria := [] |} ] = (Return tt, states1) ->
  contribute (identify p R) R None states1
    = (Raise (RequirementsConflicted c), states1) ->
  resolver_resolve limit (pre ++ R :: post) max_rounds
    = (Raise (AttributeError "requirements"), []).
Proof.
  intros Hpre HR.
  unfold Resolver_resolve, Resolution_resolve, Resolution_init. simpl.
  unfold bind at 1, on_states at 1. simpl.
  unfold bind at 1, on_states at 1. simpl.
  rewrite contribute_roots_app, Hpre. simpl.
  unfold bind at 1, try_except_conflicted. rewrite HR. reflexivity.
Qed.

(** ** The invariant, method by method

    [resolve] only changes its history through the methods below, so the
    invariant of the frames holds between any two of their calls. *)

Lemma state_ok_ext s cr' :
  s_ok s -> c_ok cr' -> c_ext (criteria s) cr' ->
  s_ok {| mapping := mapping s; criteria := cr' |}.
Proof.
  intros (Hwfm & _ & Hpins) Hok Hext.
  split; [exact Hwfm | split; [exact Hok|]]. simpl.
  intros k pin0 H. destruct (Hpins _ _ H) as [Hc Hi].
  destruct (Hext k) as [Hi' Hc']. split; [auto | now rewrite Hi'].
Qed.

Lemma push_new_state_ok states :
  st_ok states -> st_ok (snd (_push_new_state states)).
Proof.
  destruct states as [|s rest]; simpl.
  - intros _. constructor; [apply s_ok_unpinned, c_ok_nil | constructor].
  - intros H. rewrite state_eta. constructor; [now inversion H | exact H].
Qed.

Lemma contribute_to_criteria_ok name R par states :
  st_ok states -> st_ok (snd (contribute name R par states)).
Proof.
  destruct states as [|s rest]; [now rewrite contribute_nil|].
  intros H. inversion H as [|? ? Hs Hrest]; subst.
  destruct (contribute_shape name R par s rest) as (o & cr' & -> & _ & Hok & Hext).
  simpl. constructor; [|exact Hrest].
  apply state_ok_ext; [exact Hs | apply Hok, Hs | exact Hext].
Qed.

Lemma check_pinnability_ok cand states :
  st_ok states -> st_ok (snd (check cand states)).
Proof.
  destruct states as [|s rest]; [intros H; exact H|].
  intros H. inversion H as [|? ? Hs Hrest]; subst.
  destruct (check_shape cand s rest) as (b & cr' & -> & _ & Hok).
  simpl. constructor; [|exact Hrest].
  destruct (Hok (proj1 (proj2 Hs))). now apply state_ok_ext.
Qed.

(** [_pin_criterion] is called with an item of the criteria of the current
    frame. *)
Lemma pin_criterion_ok name criterion s rest :
  st_ok (s :: rest) -> In (name, criterion) (criteria s) ->
  st_ok (snd (_pin_criterion Identifier_eq_dec p name criterion (s :: rest))).
Proof.
  intros H Hsel. inversion H as [|? ? Hs Hrest]; subst.
  destruct (Hs) as (_ & Hcok & _).
  assert (Hget : getitem name (criteria s) = Some criterion)
    by (apply In_getitem; [apply Hcok | exact Hsel]).
  unfold _pin_criterion.
  destruct (pin_candidates_shape name (rev (candidates criterion)) s rest
              (proj1 Hcok)) as (b & s' & E & _).
  rewrite E. simpl. constructor; [|exact Hrest].
  eapply pin_candidates_ok; [exact Hs | | | exact E].
  - unfold Dict.contains. now rewrite Hget.
  - unfold incompat_of. rewrite Hget. intros cand i0 Hc Hi.
    apply (proj2 Hcok _ _ Hsel); [now apply in_rev | exact Hi].
Qed.

Lemma backtrack_to_last_workable_state_ok crit states :
  st_ok states ->
  st_ok (snd (_backtrack_to_last_workable_state Identifier_eq_dec Candidate_eqb
                crit states)).
Proof.
  destruct states as [|s rest]; [intros H; exact H|].
  intros H. apply backtrack_frames_ok. now inversion H.
Qed.

(** ** The trigger inside [resolve]

    In the histories [resolve] builds the oldest frame pins nothing, so
    backtracking ends before it could run out of frames: which criterion
    is the trigger then makes no difference. *)
Lemma backtrack_trigger_irrelevant crit trigger states :
  bottom_unpinned states ->
  backtrack crit states =
  spec_backtrack_frames Identifier_eq_dec Candidate_eqb trigger states.
Proof.
  revert trigger. induction states as [|s rest IH]; intros trigger; [intros []|].
  intros Hbot. rewrite backtrack_frames_cons. simpl.
  destruct (Dict.popitem (mapping s)) as [[[name cand] m']|] eqn:Hpop;
    [|reflexivity].
  destruct rest as [|s1 rest1].
  { simpl in Hbot. rewrite Hbot in Hpop. discriminate. }
  destruct (getitem name (criteria s)) as [c|]; [|reflexivity].
  destruct (excluded_of_cases Candidate_eqb c cand) as [->|(c' & -> & _)];
    [|reflexivity].
  apply IH. exact Hbot.
Qed.

End EngineFacts.

(** * More about the engine *)

Section EngineMore.
Context {Requirement Candidate Identifier Preference : Type}.
Variable Identifier_eq_dec : forall x y : Identifier, {x = y} + {x <> y}.
Variable Candidate_is : forall x y : Candidate, {x = y} + {x <> y}.
Variable Candidate_eqb : Candidate -> Candidate -> bool.
Variable Preference_ltb : Preference -> Preference -> bool.
Variable p : @Provider Requirement Candidate Identifier Preference.

Implicit Types (s : @State Requirement Candidate Identifier)
  (rest states : list (@State Requirement Candidate Identifier))
  (name k : Identifier) (R : Requirement) (par : option Candidate)
  (cand : Candidate) (crit c : @Criterion Requirement Candidate)
  (cr : Dict.t (Key:=Identifier) (V:=@Criterion Requirement Candidate))
  (log : list (@Event Requirement Candidate Identifier)).

#[local] Abbreviation getitem := (Dict.getitem Identifier_eq_dec).
#[local] Abbreviation setitem := (Dict.setitem Identifier_eq_dec).
#[local] Abbreviation contribute := (_contribute_to_criteria Identifier_eq_dec p).
#[local] Abbreviation subdeps := (contribute_subdeps Identifier_eq_dec p).
#[local] Abbreviation check := (_check_pinnability Identifier_eq_dec p).
#[local] Abbreviation pin := (pin_candidates Identifier_eq_dec p).
#[local] Abbreviation pin_criterion := (_pin_criterion Identifier_eq_dec p).
#[local] Abbreviation backtrack :=
  (backtrack_frames Identifier_eq_dec Candidate_eqb).
#[local] Abbreviation backtrack_to_last_workable_state :=
  (_backtrack_to_last_workable_state Identifier_eq_dec Candidate_eqb).
#[local] Abbreviation run_rounds :=
  (rounds Identifier_eq_dec Candidate_eqb Preference_ltb p).
#[local] Abbreviation satisfying := (_is_current_pin_satisfying Identifier_eq_dec p).
#[local] Abbreviation preference :=
  (_get_criterion_item_preference Identifier_eq_dec p).
#[local] Abbreviation s_ok := (state_ok Identifier_eq_dec Candidate_eqb).
#[local] Abbreviation st_ok := (stack_ok Identifier_eq_dec Candidate_eqb).
#[local] Abbreviation resolution_resolve :=
  (Resolution_resolve Identifier_eq_dec Candidate_eqb Preference_ltb p).
#[local] Abbreviation resolver_resolve :=
  (Resolver_resolve Identifier_eq_dec Candidate_is Candidate_eqb Preference_ltb p).

#[local] Arguments backtrack_frames : simpl never.
#[local] Arguments pin_candidates : simpl never.

(** ** One round *)

Lemma rounds_S max_rounds n i base rest log :
  run_rounds max_rounds (S n) i {| _states := base :: rest; _r := log |} =
  match filter (fun item => negb (satisfying base item)) (criteria base) with
  | [] =>
      (Return tt,
       {| _states := base :: rest;
          _r := (log ++ [starting_round i]) ++ [ending base] |})
  | item :: items =>
      let (name, criterion) := min_by Preference_ltb (preference base) item items in
      match pin_criterion name criterion (base :: base :: rest) with
      | (Raise e, st) =>
          (Raise e, {| _states := st; _r := log ++ [starting_round i] |})
      | (Return success, st) =>
          match st with
          | [] =>
              (Raise (AttributeError "state"),
               {| _states := []; _r := log ++ [starting_round i] |})
          | curr' :: _ =>
              match (if negb success
                     then backtrack_to_last_workable_state criterion st
                     else (Return tt, st)) with
              | (Raise e, st2) =>
                  (Raise e, {| _states := st2; _r := log ++ [starting_round i] |})
              | (Return _, st2) =>
                  run_rounds max_rounds n (i + 1)%Z
                    {| _states := st2;
                       _r := (log ++ [starting_round i]) ++ [ending_round i curr'] |}
              end
          end
      end
  end.
Proof.
  destruct base as [bm bcr]. simpl.
  unfold bind at 1, report at 1. simpl.
  unfold bind at 1, on_states at 1. simpl.
  unfold bind at 1, on_states at 1. simpl.
  destruct (filter _ bcr) as [|item items]; [reflexivity|].
  destruct (min_by _ _ item items) as [name criterion].
  unfold bind at 1, on_states at 1. simpl.
  destruct (pin_criterion name criterion _) as [[success|e] st]; [|reflexivity].
  unfold bind at 1, on_states at 1. simpl.
  destruct st as [|curr' st]; [reflexivity|]. simpl.
  destruct success; simpl.
  - reflexivity.
  - unfold bind at 1, on_states at 1. simpl.
    destruct (backtrack criterion st) as [[[]|e] st2]; reflexivity.
Qed.

Lemma selected_in_criteria base item items name criterion :
  filter (fun item => negb (satisfying base item)) (criteria base) = item :: items ->
  min_by Preference_ltb (preference base) item items = (name, criterion) ->
  In (name, criterion) (criteria base).
Proof.
  intros Hf Hmin.
  pose proof (min_by_In Preference_ltb (preference base) item items) as Hin.
  rewrite Hmin, <- Hf in Hin. now apply filter_In in Hin.
Qed.

(** In a round, [_pin_criterion] returns and only changes the frame that
    the round pushed. *)
Lemma round_pin base rest name criterion :
  st_ok (base :: rest) -> In (name, criterion) (criteria base) ->
  exists b s',
    pin_criterion name criterion (base :: base :: rest)
      = (Return b, s' :: base :: rest) /\
    s_ok s'.
Proof.
  intros Hok Hsel.
  assert (Hok2 : st_ok (base :: base :: rest))
    by (constructor; [now inversion Hok | exact Hok]).
  pose proof (pin_criterion_ok Identifier_eq_dec Candidate_eqb p name criterion
                base (base :: rest) Hok2 Hsel) as H.
  assert (Hwf : Dict.wf (criteria base)).
  { inversion Hok as [|? ? Hb _]. apply Hb. }
  unfold _pin_criterion in *.
  destruct (pin_candidates_shape Identifier_eq_dec Candidate_eqb p name
              (rev (candidates criterion)) base (base :: rest) Hwf)
    as (b & s' & E & _).
  rewrite E in H |- *. exists b, s'. split; [reflexivity|].
  simpl in H. now inversion H.
Qed.

(** ** The calls the reporter receives *)

Lemma round_events_app i frames1 frames2 :
  @round_events Requirement Candidate Identifier i (frames1 ++ frames2) =
  round_events i frames1
  ++ round_events (i + Z.of_nat (List.length frames1))%Z frames2.
Proof.
  revert i. induction frames1 as [|s frames1 IH]; intros i.
  - simpl. now rewrite Z.add_0_r.
  - cbn [round_events app List.length]. rewrite IH.
    replace (i + Z.of_nat (S (List.length frames1)))%Z
      with (i + 1 + Z.of_nat (List.length frames1))%Z by lia.
    reflexivity.
Qed.

Lemma rounds_log max_rounds n i states log o self' :
  st_ok states -> bottom_unpinned states ->
  run_rounds max_rounds n i {| _states := states; _r := log |} = (o, self') ->
  exists frames,
    let j := (i + Z.of_nat (List.length frames))%Z in
    match o with
    | Return _ =>
        (List.length frames < n)%nat /\
        exists s rest,
          _states self' = s :: rest /\
          _r self' = log ++ round_events i frames ++ [starting_round j; ending s]
    | Raise e =>
        (e = ResolutionTooDeep max_rounds /\ List.length frames = n /\
         _r self' = log ++ round_events i frames) \/
        (e = KeyError /\ (List.length frames < n)%nat /\
         _r self' = log ++ round_events i frames ++ [starting_round j])
    end.
Proof.
  revert i states log o self'.
  induction n as [|n IH]; intros i states log o self' Hok Hbot.
  - simpl. intros H. injection H as <- <-. exists []. simpl.
    left. now rewrite app_nil_r.
  - destruct states as [|base rest]; [destruct Hbot|].
    rewrite rounds_S.
    destruct (filter _ (criteria base)) as [|item items] eqn:Hf.
    + intros H. injection H as <- <-. exists []. simpl.
      split; [lia|]. exists base, rest. split; [reflexivity|].
      rewrite Z.add_0_r, <- app_assoc. reflexivity.
    + destruct (min_by _ _ item items) as [name criterion] eqn:Hmin.
      pose proof (selected_in_criteria _ _ _ _ _ Hf Hmin) as Hsel.
      destruct (round_pin base rest name criterion Hok Hsel) as (b & s' & -> & Hs').
      assert (Hcont : forall states2 o2 self2,
                st_ok states2 -> bottom_unpinned states2 ->
                run_rounds max_rounds n (i + 1)%Z
                  {| _states := states2;
                     _r := (log ++ [starting_round i]) ++ [ending_round i s'] |}
                = (o2, self2) ->
                exists frames,
                  let j := (i + Z.of_nat (List.length frames))%Z in
                  match o2 with
                  | Return _ =>
                      (List.length frames < S n)%nat /\
                      exists s rest,
                        _states self2 = s :: rest /\
                        _r self2 =
                        log ++ round_events i frames ++ [starting_round j; ending s]
                  | Raise e =>
                      (e = ResolutionTooDeep max_rounds /\
                       List.length frames = S n /\
                       _r self2 = log ++ round_events i frames) \/
                      (e = KeyError /\ (List.length frames < S n)%nat /\
                       _r self2 =
                       log ++ round_events i frames ++ [starting_round j])
                  end).
      { intros states2 o2 self2 Hok2 Hbot2 Hrun.
        destruct (IH _ _ _ _ _ Hok2 Hbot2 Hrun) as (frames & Hfr).
        exists (s' :: frames). cbv zeta in *. simpl List.length.
        replace (i + Z.of_nat (S (List.length frames)))%Z
          with (i + 1 + Z.of_nat (List.length frames))%Z by lia.
        simpl round_events.
        destruct o2 as [[]|e].
        - destruct Hfr as (Hlt & s0 & rest0 & E1 & E2).
          split; [lia|]. exists s0, rest0. split; [exact E1|].
          rewrite E2, <- !app_assoc. reflexivity.
        - destruct Hfr as [(-> & Hlen & E)|(-> & Hlen & E)]; [left | right].
          + split; [reflexivity|]. split; [lia|].
            rewrite E, <- !app_assoc. reflexivity.
          + split; [reflexivity|]. split; [lia|].
            rewrite E, <- !app_assoc. reflexivity. }
      destruct b; simpl.
      * apply Hcont; [|exact Hbot].
        constructor; [exact Hs' | exact Hok].
      * pose proof (backtrack_frames_ok Identifier_eq_dec Candidate_eqb criterion
                      (base :: rest) Hok) as Hbt.
        pose proof (backtrack_frames_bottom Identifier_eq_dec Candidate_eqb criterion
                      (base :: rest) Hbot) as Hbb.
        destruct (backtrack criterion (base :: rest)) as [[[]|e] states2] eqn:Eb;
          simpl in Hbt, Hbb.
        -- apply Hcont; [exact Hbt|].
           destruct Hbb as [[_ Hb]|Hb]; [exact Hb | discriminate].
        -- intros H. injection H as <- <-. exists []. simpl.
           right. destruct Hbb as [[Hb _]|Hb]; [discriminate|]. injection Hb as ->.
           split; [reflexivity|]. split; [lia|]. now rewrite Z.add_0_r.
Qed.

Lemma resolution_resolve_log reqs max_rounds o self' :
  resolution_resolve reqs max_rounds Resolution_init = (o, self') ->
  match o with
  | Return _ =>
      exists frames s rest,
        _states self' = s :: rest /\
        (Z.of_nat (List.length frames) < max_rounds)%Z /\
        _r self' =
        starting :: round_events 0 frames
        ++ [starting_round (Z.of_nat (List.length frames)); ending s]
  | Raise e =>
      (e = AttributeError "requirements" /\ _r self' = []) \/
      (e = ResolutionTooDeep max_rounds /\
       exists frames,
         List.length frames = Z.to_nat max_rounds /\
         _r self' = starting :: round_events 0 frames) \/
      (e = KeyError /\
       exists frames,
         (Z.of_nat (List.length frames) < max_rounds)%Z /\
         _r self' =
         starting :: round_events 0 frames
         ++ [starting_round (Z.of_nat (List.length frames))])
  end.
Proof.
  unfold Resolution_resolve, Resolution_init. simpl.
  unfold bind at 1, on_states at 1. simpl.
  unfold bind at 1, on_states at 1. simpl.
  destruct (contribute_roots_shape Identifier_eq_dec Candidate_eqb p reqs
              {| mapping := []; criteria := [] |} [])
    as (o1 & cr' & -> & Ho1 & Hok & _). simpl.
  pose proof (s_ok_unpinned Identifier_eq_dec Candidate_eqb cr'
                (Hok (c_ok_nil Candidate_eqb))) as Hs.
  destruct Ho1 as [->| ->].
  - unfold bind at 1, report at 1. simpl. intros H.
    apply rounds_log in H; [|now constructor | reflexivity].
    destruct H as (frames & H). cbv zeta in H. simpl in H.
    destruct o as [[]|e].
    + destruct H as (Hlt & s & rest & E1 & E2).
      exists frames, s, rest. split; [exact E1|]. split; [lia | exact E2].
    + right. destruct H as [(-> & Hlen & E)|(-> & Hlen & E)]; [left | right].
      * split; [reflexivity|]. now exists frames.
      * split; [reflexivity|]. exists frames. split; [lia | exact E].
  - intros H. injection H as <- <-. left. split; reflexivity.
Qed.

(** The protocol of the reporter.  [Resolution.resolve] on a fresh object
    first contributes the roots, silently; a conflict there ends it before
    any call.  Otherwise the reporter receives [starting()], then for each
    completed round [i = 0, 1, ...] the pair [starting_round(i)],
    [ending_round(i, state)], and then: on success, [starting_round(n)] and
    [ending(state)] with the frame left on top of the history, in a round
    [n < max_rounds]; on [ResolutionTooDeep(max_rounds)], nothing more, all
    of the [max_rounds] rounds having been completed; on [KeyError], the
    [starting_round(n)] of the round that failed. *)
Theorem resolve_reporter_protocol reqs max_rounds o self' :
  Resolution_resolve Identifier_eq_dec Candidate_eqb Preference_ltb p
    reqs max_rounds Resolution_init = (o, self') ->
  match o with
  | Return _ =>
      exists frames s rest,
        _states self' = s :: rest /\
        (Z.of_nat (List.length frames) < max_rounds)%Z /\
        _r self' =
        starting :: round_events 0 frames
        ++ [starting_round (Z.of_nat (List.length frames)); ending s]
  | Raise e =>
      (e = AttributeError "requirements" /\ _r self' = []) \/
      (e = ResolutionTooDeep max_rounds /\
       exists frames,
         List.length frames = Z.to_nat max_rounds /\
         _r self' = starting :: round_events 0 frames) \/
      (e = KeyError /\
       exists frames,
         (Z.of_nat (List.length frames) < max_rounds)%Z /\
         _r self' =
         starting :: round_events 0 frames
         ++ [starting_round (Z.of_nat (List.length frames))])
  end.
Proof. apply resolution_resolve_log. Qed.

(** ** Narrowing *)

#[local] Abbreviation sat_all := (satisfies_all p).
#[local] Abbreviation narrowed := (criteria_narrowed Identifier_eq_dec p).

Lemma satisfies_all_app infos1 infos2 x :
  sat_all (infos1 ++ infos2) x = sat_all infos1 x && sat_all infos2 x.
Proof. unfold satisfies_all. apply forallb_app. Qed.

Lemma filter_filter {A : Type} (f g : A -> bool) (l : list A) :
  filter f (filter g l) = filter (fun x => g x && f x) l.
Proof.
  induction l as [|a l IH]; simpl; [reflexivity|].
  destruct (g a); simpl; [|exact IH].
  destruct (f a); now rewrite IH.
Qed.

Lemma filter_all {A : Type} (l : list A) : filter (fun _ => true) l = l.
Proof. induction l as [|a l IH]; simpl; [reflexivity | now rewrite IH]. Qed.

Lemma narrowed_by_nil c : narrowed_by p [] c c.
Proof.
  split; [now rewrite app_nil_r|]. split; [|reflexivity].
  unfold satisfies_all. simpl. now rewrite filter_all.
Qed.

Lemma narrowed_by_app more1 more2 c c1 c2 :
  narrowed_by p more1 c c1 -> narrowed_by p more2 c1 c2 ->
  narrowed_by p (more1 ++ more2) c c2.
Proof.
  intros (I1 & C1 & N1) (I2 & C2 & N2).
  split; [now rewrite I2, I1, app_assoc|]. split; [|congruence].
  rewrite C2, C1, filter_filter. apply filter_ext.
  intros x. now rewrite satisfies_all_app.
Qed.

Lemma narrows_refl c : narrows p c c.
Proof. exists []. apply narrowed_by_nil. Qed.

Lemma narrows_trans c c1 c2 : narrows p c c1 -> narrows p c1 c2 -> narrows p c c2.
Proof.
  intros [m1 H1] [m2 H2]. exists (m1 ++ m2). eapply narrowed_by_app; eauto.
Qed.

Lemma merged_with_narrows c R par c' :
  merged_with p c R par = Return c' ->
  narrowed_by p [ {| requirement := R; parent := par |} ] c c'.
Proof.
  intros H.
  destruct (merged_with_cases p c R par) as [E|(c0 & E & Hc & _ & Hi & Hn)];
    rewrite E in H; [discriminate|]. injection H as <-.
  split; [exact Hi|]. split; [|exact Hn].
  rewrite Hc. apply filter_ext. intros x. unfold satisfies_all. simpl.
  now rewrite andb_true_r.
Qed.

Lemma narrowed_refl cr : narrowed cr cr.
Proof.
  intros k. destruct (getitem k cr); [apply narrows_refl | exact I].
Qed.

Lemma narrowed_trans cr1 cr2 cr3 :
  narrowed cr1 cr2 -> narrowed cr2 cr3 -> narrowed cr1 cr3.
Proof.
  intros H12 H23 k. specialize (H12 k). specialize (H23 k).
  destruct (getitem k cr1), (getitem k cr2), (getitem k cr3);
    try tauto; try (eapply narrows_trans; eassumption).
  destruct H12 as (R & par & H). exists R, par. eapply narrows_trans; eassumption.
Qed.

(** A contribution narrows the criteria of the frame, or conflicts and
    leaves them alone. *)
Lemma contribute_narrows name R par s rest :
  exists o cr',
    contribute name R par (s :: rest) =
      (o, {| mapping := mapping s; criteria := cr' |} :: rest) /\
    (o = Return tt \/ exists c, o = Raise (RequirementsConflicted c)) /\
    narrowed (criteria s) cr'.
Proof.
  rewrite contribute_eq. unfold contributed.
  destruct (getitem name (criteria s)) as [c|] eqn:Ec.
  - destruct (merged_with p c R par) as [c'|e] eqn:Em.
    + eexists. eexists. split; [reflexivity|]. split; [now left|].
      intros k. destruct (Identifier_eq_dec name k) as [<-|Hne].
      * rewrite Ec, getitem_setitem_eq. eexists. eapply merged_with_narrows; eauto.
      * rewrite getitem_setitem_neq by assumption.
        destruct (getitem k (criteria s)); [apply narrows_refl | exact I].
    + destruct (merged_with_cases p c R par) as [E|(c0 & E & _)];
        rewrite E in Em; [|discriminate]. injection Em as <-.
      exists (Raise (RequirementsConflicted c)), (criteria s).
      rewrite state_eta. split; [reflexivity|].
      split; [right; now exists c | apply narrowed_refl].
  - unfold from_requirement. eexists. eexists. split; [reflexivity|].
    split; [now left|].
    intros k. destruct (Identifier_eq_dec name k) as [<-|Hne].
    + rewrite Ec, getitem_setitem_eq. exists R, par. apply narrows_refl.
    + rewrite getitem_setitem_neq by assumption.
      destruct (getitem k (criteria s)); [apply narrows_refl | exact I].
Qed.

Lemma subdeps_narrows cand deps s rest :
  exists o cr',
    subdeps cand deps (s :: rest) =
      (o, {| mapping := mapping s; criteria := cr' |} :: rest) /\
    (o = Return tt \/ exists c, o = Raise (RequirementsConflicted c)) /\
    narrowed (criteria s) cr'.
Proof.
  revert s. induction deps as [|R deps IH]; intros s; simpl.
  - exists (Return tt), (criteria s). unfold ret. rewrite state_eta.
    split; [reflexivity|]. split; [now left | apply narrowed_refl].
  - unfold bind.
    destruct (contribute_narrows (identify p R) R (Some cand) s rest)
      as (o & cr1 & -> & [->|[c ->]] & Hn1).
    + destruct (IH {| mapping := mapping s; criteria := cr1 |})
        as (o2 & cr2 & E2 & Ho2 & Hn2). simpl in *.
      exists o2, cr2. split; [exact E2|]. split; [exact Ho2|].
      eapply narrowed_trans; eauto.
    + exists (Raise (RequirementsConflicted c)), cr1.
      split; [reflexivity|]. split; [right; now exists c | exact Hn1].
Qed.

Lemma check_narrows cand s rest :
  Dict.wf (criteria s) ->
  exists b cr',
    check cand (s :: rest) =
      (Return b, {| mapping := mapping s; criteria := cr' |} :: rest) /\
    (b = false -> cr' = criteria s) /\
    narrowed (criteria s) cr'.
Proof.
  intros Hwf. rewrite check_eq.
  destruct (subdeps_narrows cand (get_dependencies p cand) s rest)
    as (o & cr1 & -> & [->|[c ->]] & Hn).
  - exists true, cr1. split; [reflexivity|]. split; [discriminate | exact Hn].
  - simpl. rewrite clear_update by exact Hwf.
    exists false, (criteria s). split; [reflexivity|].
    split; [reflexivity | apply narrowed_refl].
Qed.

Lemma pin_candidates_cons name cand cands states :
  pin name (cand :: cands) states =
  bind (check cand)
    (fun ok =>
       if negb ok then pin name cands
       else
         bind (set_mapping (Dict.pop Identifier_eq_dec name))
           (fun _ => bind (set_mapping (setitem name cand)) (fun _ => ret true)))
    states.
Proof. reflexivity. Qed.

(** The loop of [_pin_criterion]: it returns false when every candidate
    fails the check, and the frame is then as before; it returns true at
    the first candidate that passes, which it pins as the most recent
    entry of the mapping, with the criteria the check left. *)
Lemma pin_candidates_selects name cands s rest :
  Dict.wf (criteria s) ->
  (pin name cands (s :: rest) = (Return false, s :: rest) /\
   forall x, In x cands -> fst (check x (s :: rest)) = Return false) \/
  (exists tried cand later cr',
     cands = tried ++ cand :: later /\
     (forall x, In x tried -> fst (check x (s :: rest)) = Return false) /\
     check cand (s :: rest) =
       (Return true, {| mapping := mapping s; criteria := cr' |} :: rest) /\
     pin name cands (s :: rest) =
       (Return true,
        {| mapping := setitem name cand (Dict.pop Identifier_eq_dec name (mapping s));
           criteria := cr' |} :: rest)).
Proof.
  intros Hwf. induction cands as [|cand cands IH].
  - left. split; [reflexivity | intros x []].
  - rewrite pin_candidates_cons. unfold bind.
    destruct (check_narrows cand s rest Hwf) as (b & cr' & E & Hb & _).
    rewrite E. destruct b; simpl.
    + right. exists [], cand, cands, cr'. split; [reflexivity|].
      split; [intros x []|]. split; [exact E | reflexivity].
    + rewrite (Hb eq_refl), state_eta in *.
      destruct IH as [[Hrun Hall]|(tried & c0 & later & cr0 & -> & Htried & Hc0 & Hrun)].
      * left. split; [exact Hrun|].
        intros x [<-|Hx]; [now rewrite E | now apply Hall].
      * right. exists (cand :: tried), c0, later, cr0.
        split; [reflexivity|]. split; [|split; assumption].
        intros x [<-|Hx]; [now rewrite E | now apply Htried].
Qed.

Lemma pop_fresh name (m : Dict.t (Key:=Identifier) (V:=Candidate)) :
  ~ In name (Dict.keys (Dict.pop Identifier_eq_dec name m)).
Proof. apply getitem_None_keys with (eq_dec := Identifier_eq_dec), getitem_pop_eq. Qed.

(** [_pin_criterion] tries the candidates of the criterion from the last
    to the first and pins the first one that passes the pinnability
    check: every candidate listed after the pinned one failed the check.
    The pin becomes the most recent entry of the mapping and the criteria
    are those the check left.  When no candidate passes it returns false
    and the history is as before.  It never raises and never touches the
    older frames. *)
Theorem pin_criterion_selects name criterion s rest :
  Dict.wf (criteria s) ->
  (_pin_criterion Identifier_eq_dec p name criterion (s :: rest)
     = (Return false, s :: rest) /\
   forall x, In x (candidates criterion) ->
     fst (_check_pinnability Identifier_eq_dec p x (s :: rest)) = Return false) \/
  (exists before cand after cr',
     candidates criterion = before ++ cand :: after /\
     (forall x, In x after ->
        fst (_check_pinnability Identifier_eq_dec p x (s :: rest)) = Return false) /\
     _check_pinnability Identifier_eq_dec p cand (s :: rest)
       = (Return true, {| mapping := mapping s; criteria := cr' |} :: rest) /\
     _pin_criterion Identifier_eq_dec p name criterion (s :: rest)
       = (Return true,
          {| mapping := Dict.pop Identifier_eq_dec name (mapping s) ++ [(name, cand)];
             criteria := cr' |} :: rest)).
Proof.
  intros Hwf. unfold _pin_criterion.
  destruct (pin_candidates_selects name (rev (candidates criterion)) s rest Hwf)
    as [[Hrun Hall]|(tried & cand & later & cr' & Hrev & Htried & Hc & Hrun)].
  - left. split; [exact Hrun|]. intros x Hx. apply Hall. now apply in_rev in Hx.
  - right. exists (rev later), cand, (rev tried), cr'.
    split.
    { rewrite <- (rev_involutive (candidates criterion)), Hrev, rev_app_distr.
      simpl. now rewrite <- app_assoc. }
    split; [intros x Hx; apply Htried; now apply in_rev|].
    split; [exact Hc|].
    rewrite Hrun, setitem_fresh by apply pop_fresh. reflexivity.
Qed.

Lemma narrowed_old cr cr' k c :
  narrowed cr cr' -> getitem k cr = Some c ->
  exists c' more,
    getitem k cr' = Some c' /\
    information c' = information c ++ more /\
    candidates c' = filter (sat_all more) (candidates c) /\
    incompatibilities c' = incompatibilities c.
Proof.
  intros H Hk. specialize (H k). rewrite Hk in H.
  destruct (getitem k cr') as [c'|]; [|destruct H].
  destruct H as (more & Hi & Hc & Hn). now exists c', more.
Qed.

Lemma narrowed_new cr cr' k c' :
  narrowed cr cr' -> getitem k cr = None -> getitem k cr' = Some c' ->
  exists R par more,
    information c' = {| requirement := R; parent := par |} :: more /\
    candidates c' = filter (sat_all more) (find_matches p R) /\
    incompatibilities c' = [].
Proof.
  intros H Hk Hk'. specialize (H k). rewrite Hk, Hk' in H.
  destruct H as (R & par & more & Hi & Hc & Hn). now exists R, par, more.
Qed.

(** Monotone narrowing.  Whether it returns true or false,
    [_check_pinnability] loses no identifier of the criteria; the
    criterion of an identifier that was there has its old information
    followed by the requirements merged since, its candidates are exactly
    the old ones that satisfy all of these, in their order, and its
    incompatibilities are unchanged; the criterion of a new identifier
    starts with the requirement it was made from and its candidates are
    the matches of that requirement that satisfy those merged after. *)
Theorem check_pinnability_narrows cand s rest b s' :
  Dict.wf (criteria s) ->
  _check_pinnability Identifier_eq_dec p cand (s :: rest) = (Return b, s' :: rest) ->
  (forall k c, Dict.getitem Identifier_eq_dec k (criteria s) = Some c ->
     exists c' more,
       Dict.getitem Identifier_eq_dec k (criteria s') = Some c' /\
       information c' = information c ++ more /\
       candidates c' = filter (satisfies_all p more) (candidates c) /\
       incompatibilities c' = incompatibilities c) /\
  (forall k c', Dict.getitem Identifier_eq_dec k (criteria s) = None ->
     Dict.getitem Identifier_eq_dec k (criteria s') = Some c' ->
     exists R par more,
       information c' = {| requirement := R; parent := par |} :: more /\
       candidates c' = filter (satisfies_all p more) (find_matches p R) /\
       incompatibilities c' = []).
Proof.
  intros Hwf Hrun.
  destruct (check_narrows cand s rest Hwf) as (b0 & cr' & E & _ & Hn).
  rewrite E in Hrun. injection Hrun as _ <-. simpl.
  split.
  - intros k c. now apply narrowed_old.
  - intros k c'. now apply narrowed_new.
Qed.

(** ** The second invariant of the frames *)

#[local] Abbreviation consistent := (crit_consistent p).
#[local] Abbreviation f_ok := (frame_consistent Identifier_eq_dec p).
#[local] Abbreviation kept := (@information_kept Requirement Candidate Identifier
                                 Identifier_eq_dec).

Lemma consistent_initial R par : consistent (initial_criterion p R par).
Proof. intros x Hx. split; [exact Hx | reflexivity]. Qed.

Lemma consistent_narrowed more c c' :
  consistent c -> narrowed_by p more c c' -> consistent c'.
Proof.
  unfold crit_consistent. intros Hc (Hi & Hcand & _). rewrite Hi.
  destruct (information c) as [|first later]; [destruct Hc|]. simpl.
  intros x Hx. rewrite Hcand in Hx. apply filter_In in Hx as [Hx Hm].
  destruct (Hc x Hx) as [Hf Hl]. split; [exact Hf|].
  rewrite satisfies_all_app, Hl, Hm. reflexivity.
Qed.

Lemma consistent_excluded c C c' :
  consistent c -> excluded_of Candidate_eqb c C = Return c' -> consistent c'.
Proof.
  unfold crit_consistent. intros Hc H.
  destruct (excluded_of_cases Candidate_eqb c C) as [E|(c0 & E & Hcand & _ & Hi & _)];
    rewrite E in H; [discriminate|]. injection H as <-.
  rewrite Hi. destruct (information c) as [|first later]; [destruct Hc|].
  intros x Hx. rewrite Hcand in Hx. apply filter_In in Hx as [Hx _]. now apply Hc.
Qed.

Lemma admissible_narrowed more c c' x :
  narrowed_by p more c c' ->
  (sat_all (information c) x = true -> In x (candidates c)) ->
  sat_all (information c') x = true -> In x (candidates c').
Proof.
  intros (Hi & Hcand & _) Hadm. rewrite Hi, Hcand, satisfies_all_app.
  intros H. apply andb_true_iff in H as [H1 H2].
  apply filter_In. split; [now apply Hadm | exact H2].
Qed.

Lemma kept_refl cr : kept cr cr.
Proof. intros k c H. exists c, []. split; [exact H | now rewrite app_nil_r]. Qed.

Lemma kept_narrowed roots cr cr' :
  kept roots cr -> narrowed cr cr' -> kept roots cr'.
Proof.
  intros Hk Hn k c0 H0. destruct (Hk k c0 H0) as (c & more & Hc & Hi).
  destruct (narrowed_old _ _ _ _ Hn Hc) as (c' & more' & Hc' & Hi' & _).
  exists c', (more ++ more'). split; [exact Hc'|]. now rewrite Hi', Hi, app_assoc.
Qed.

Lemma consistent_after_narrowing cr cr' :
  (forall k c, getitem k cr = Some c -> consistent c) ->
  narrowed cr cr' ->
  forall k c', getitem k cr' = Some c' -> consistent c'.
Proof.
  intros Hall Hn k c' Hk'. specialize (Hn k). rewrite Hk' in Hn.
  destruct (getitem k cr) as [c|] eqn:Hk.
  - destruct Hn as [more Hn]. eapply consistent_narrowed; [|exact Hn]. eauto.
  - destruct Hn as (R & par & more & Hn).
    eapply consistent_narrowed; [apply consistent_initial | exact Hn].
Qed.

(** Pinning, in a round, keeps the second invariant. *)
Lemma round_pin_consistent roots base rest name criterion b s' :
  s_ok base -> f_ok roots base -> In (name, criterion) (criteria base) ->
  pin_criterion name criterion (base :: rest) = (Return b, s' :: rest) ->
  f_ok roots s'.
Proof.
  intros (Hwfm & Hcok & Hpins) (Hcons & Hadm & Hkept) Hsel Hrun.
  assert (Hwf : Dict.wf (criteria base)) by apply Hcok.
  assert (Hget : getitem name (criteria base) = Some criterion)
    by (apply In_getitem; assumption).
  unfold _pin_criterion in Hrun.
  destruct (pin_candidates_selects name (rev (candidates criterion)) base rest Hwf)
    as [[E _]|(tried & cand & later & cr' & Hrev & _ & Hc & E)];
    rewrite E in Hrun; injection Hrun as _ <-.
  - split; [exact Hcons | split; [exact Hadm | exact Hkept]].
  - destruct (check_narrows cand base rest Hwf) as (b0 & cr0 & E0 & _ & Hn).
    rewrite E0 in Hc. injection Hc as _ ->.
    assert (Hcand : In cand (candidates criterion)).
    { apply in_rev. rewrite Hrev. apply in_or_app. right. now left. }
    split; [|split]; unfold pins_admissible; simpl.
    + eapply consistent_after_narrowing; eassumption.
    + intros k pin0 c' Hm Hk' Hsat.
      destruct (getitem k (criteria base)) as [c|] eqn:Hk.
      * destruct (narrowed_old _ _ _ _ Hn Hk) as (c1 & more & Hc1 & Hnar).
        rewrite Hk' in Hc1. injection Hc1 as <-.
        eapply admissible_narrowed; [exact Hnar | | exact Hsat].
        destruct (Identifier_eq_dec name k) as [<-|Hne].
        -- rewrite getitem_setitem_eq in Hm. injection Hm as <-.
           rewrite Hget in Hk. injection Hk as <-. intros _. exact Hcand.
        -- rewrite getitem_setitem_neq, getitem_pop_neq in Hm by assumption.
           now apply (Hadm k).
      * exfalso. destruct (Identifier_eq_dec name k) as [<-|Hne]; [congruence|].
        rewrite getitem_setitem_neq, getitem_pop_neq in Hm by assumption.
        destruct (Hpins _ _ Hm) as [Hcon _]. unfold Dict.contains in Hcon.
        rewrite Hk in Hcon. discriminate.
    + eapply kept_narrowed; eassumption.
Qed.

Lemma popped_frame_consistent roots s name cand m' :
  s_ok s -> f_ok roots s ->
  Dict.popitem (mapping s) = Some ((name, cand), m') ->
  f_ok roots {| mapping := m'; criteria := criteria s |}.
Proof.
  intros (Hwfm & _) (Hcons & Hadm & Hkept) Hpop.
  destruct (popitem_getitem Identifier_eq_dec _ _ _ _ Hwfm Hpop) as (_ & _ & Hsub).
  split; [exact Hcons | split; [|exact Hkept]].
  intros k pin0 c Hm. simpl in *. apply Hadm. now apply Hsub.
Qed.

Lemma backtrack_frames_consistent roots crit states :
  st_ok states -> Forall (f_ok roots) states ->
  Forall (f_ok roots) (snd (backtrack crit states)).
Proof.
  induction states as [|s rest IH]; [intros _ H; exact H|].
  intros Hst Hf. rewrite backtrack_frames_cons.
  inversion Hst as [|? ? Hs Hrest]; subst.
  inversion Hf as [|? ? Hfs Hfrest]; subst.
  destruct (Dict.popitem (mapping s)) as [[[name cand] m']|] eqn:Hpop;
    [|exact Hf].
  pose proof (popped_frame_consistent _ _ _ _ _ Hs Hfs Hpop) as Hf'.
  cbv zeta.
  destruct (getitem name (criteria s)) as [c|] eqn:Hc; [|now constructor].
  destruct (excluded_of_cases Candidate_eqb c cand)
    as [->|(c' & E & _ & _ & Hi & _)]; [now apply IH|].
  rewrite E. simpl. constructor; [|exact Hfrest].
  destruct Hs as (Hwfm & _).
  destruct (popitem_getitem Identifier_eq_dec _ _ _ _ Hwfm Hpop)
    as (_ & Hgone & Hsub).
  destruct Hfs as (Hcons & Hadm & Hkept).
  split; [|split]; unfold pins_admissible, information_kept; simpl.
  - intros k c0. destruct (Identifier_eq_dec name k) as [<-|Hne].
    + rewrite getitem_setitem_eq. intros H. injection H as <-.
      eapply consistent_excluded; [|exact E]. eauto.
    + rewrite getitem_setitem_neq by assumption. apply Hcons.
  - intros k pin0 c0 Hm.
    assert (Hne : name <> k) by (intros ->; congruence).
    rewrite getitem_setitem_neq by assumption. apply Hadm. now apply Hsub.
  - intros k c0 H0. destruct (Hkept k c0 H0) as (c1 & more & Hc1 & Hi1).
    destruct (Identifier_eq_dec name k) as [<-|Hne].
    + exists c', more. rewrite getitem_setitem_eq. split; [reflexivity|].
      rewrite Hc in Hc1. injection Hc1 as <-. congruence.
    + exists c1, more. now rewrite getitem_setitem_neq.
Qed.

(** Backtracking keeps the oldest frame, whatever its outcome. *)
Lemma backtrack_frames_keeps_bottom crit states :
  bottom_unpinned states -> bottom_unpinned (snd (backtrack crit states)).
Proof.
  induction states as [|s rest IH]; [intros []|].
  intros Hbot. rewrite backtrack_frames_cons.
  destruct (Dict.popitem (mapping s)) as [[[name cand] m']|] eqn:Hpop;
    [|exact Hbot].
  destruct rest as [|s1 rest1].
  { simpl in Hbot. rewrite Hbot in Hpop. discriminate. }
  cbv zeta.
  destruct (getitem name (criteria s)) as [c|]; [|exact Hbot].
  destruct (excluded_of_cases Candidate_eqb c cand) as [->|(c' & -> & _)].
  - apply IH. exact Hbot.
  - exact Hbot.
Qed.

Lemma rounds_consistent roots max_rounds n i states log o self' :
  st_ok states -> bottom_unpinned states -> Forall (f_ok roots) states ->
  run_rounds max_rounds n i {| _states := states; _r := log |} = (o, self') ->
  Forall (f_ok roots) (_states self') /\ bottom_unpinned (_states self').
Proof.
  revert i states log o self'.
  induction n as [|n IH]; intros i states log o self' Hok Hbot Hf.
  - simpl. intros H. injection H as <- <-. now split.
  - destruct states as [|base rest]; [destruct Hbot|].
    rewrite rounds_S.
    destruct (filter _ (criteria base)) as [|item items] eqn:Hfl.
    + intros H. injection H as <- <-. now split.
    + destruct (min_by _ _ item items) as [name criterion] eqn:Hmin.
      pose proof (selected_in_criteria _ _ _ _ _ Hfl Hmin) as Hsel.
      destruct (round_pin base rest name criterion Hok Hsel) as (b & s' & E & Hs').
      inversion Hok as [|? ? Hbase _]; subst.
      inversion Hf as [|? ? Hfbase _]; subst.
      pose proof (round_pin_consistent roots _ _ _ _ _ _ Hbase Hfbase Hsel E) as Hfs'.
      rewrite E. destruct b; simpl.
      * apply IH; [constructor; assumption | exact Hbot | constructor; assumption].
      * pose proof (backtrack_frames_ok Identifier_eq_dec Candidate_eqb criterion
                      (base :: rest) Hok) as Hbt.
        pose proof (backtrack_frames_keeps_bottom criterion (base :: rest) Hbot) as Hbb.
        pose proof (backtrack_frames_consistent roots criterion (base :: rest) Hok Hf)
          as Hbf.
        destruct (backtrack criterion (base :: rest)) as [[[]|e] states2];
          simpl in Hbt, Hbb, Hbf.
        -- now apply IH.
        -- intros H. injection H as <- <-. now split.
Qed.

(** ** The root requirements, again *)

#[local] Abbreviation roots_loop := (contribute_roots Identifier_eq_dec p).
#[local] Abbreviation records_roots := (records_roots Identifier_eq_dec p).

Lemma contribute_records name R par s rest states' :
  contribute name R par (s :: rest) = (Return tt, states') ->
  exists cr1 crit,
    states' = {| mapping := mapping s; criteria := cr1 |} :: rest /\
    getitem name cr1 = Some crit /\
    In {| requirement := R; parent := par |} (information crit).
Proof.
  rewrite contribute_eq. unfold contributed.
  destruct (getitem name (criteria s)) as [c|].
  - destruct (merged_with_cases p c R par) as [->|(c' & -> & _ & _ & Hi & _)];
      [discriminate|].
    intros H. injection H as <-. eexists. exists c'. split; [reflexivity|].
    rewrite getitem_setitem_eq. split; [reflexivity|].
    rewrite Hi. apply in_or_app. right. now left.
  - unfold from_requirement. intros H. injection H as <-.
    eexists. eexists. split; [reflexivity|].
    rewrite getitem_setitem_eq. split; [reflexivity | now left].
Qed.

Lemma roots_narrows reqs s rest :
  exists o cr',
    roots_loop reqs (s :: rest) =
      (o, {| mapping := mapping s; criteria := cr' |} :: rest) /\
    (o = Return tt \/ o = Raise (AttributeError "requirements")) /\
    narrowed (criteria s) cr' /\
    (o = Return tt -> records_roots reqs cr').
Proof.
  revert s. induction reqs as [|R reqs IH]; intros s; simpl.
  - exists (Return tt), (criteria s). unfold ret. rewrite state_eta.
    split; [reflexivity|]. split; [now left|].
    split; [apply narrowed_refl | intros _ R []].
  - unfold bind, try_except_conflicted, raise.
    destruct (contribute_narrows (identify p R) R None s rest)
      as (o & cr1 & E & [->|[c ->]] & Hn1); rewrite E.
    + destruct (contribute_records _ _ _ _ _ _ E) as (cr1' & crit & E1 & Hg & Hin).
      injection E1 as <-.
      destruct (IH {| mapping := mapping s; criteria := cr1 |})
        as (o2 & cr2 & E2 & Ho2 & Hn2 & Hrec). simpl in *.
      exists o2, cr2. split; [exact E2|]. split; [exact Ho2|].
      split; [eapply narrowed_trans; eauto|].
      intros Ho R' [<-|HR']; [|now apply Hrec].
      destruct (narrowed_old _ _ _ _ Hn2 Hg) as (c' & more & Hc' & Hi' & _).
      exists c'. split; [exact Hc'|]. rewrite Hi'. apply in_or_app. now left.
    + exists (Raise (AttributeError "requirements")), cr1.
      split; [reflexivity|]. split; [now right|].
      split; [exact Hn1 | discriminate].
Qed.

Lemma narrowed_from_nil_consistent cr' :
  narrowed [] cr' -> forall k c', getitem k cr' = Some c' -> consistent c'.
Proof.
  intros Hn. eapply consistent_after_narrowing; [|exact Hn].
  intros k c H. discriminate.
Qed.

(** Whatever its outcome, [Resolution.resolve] on a fresh object leaves a
    history whose oldest frame is there and pins nothing; unless the roots
    conflict, every frame satisfies the second invariant relative to
    criteria that record every root requirement. *)
Lemma resolution_resolve_consistent reqs max_rounds o self' :
  resolution_resolve reqs max_rounds Resolution_init = (o, self') ->
  bottom_unpinned (_states self') /\
  (o <> Raise (AttributeError "requirements") ->
   exists roots,
     records_roots reqs roots /\ Forall (f_ok roots) (_states self')).
Proof.
  unfold Resolution_resolve, Resolution_init. simpl.
  unfold bind at 1, on_states at 1. simpl.
  unfold bind at 1, on_states at 1. simpl.
  destruct (roots_narrows reqs {| mapping := []; criteria := [] |} [])
    as (o1 & cr' & E & Ho1 & Hn & Hrec). rewrite E. simpl in *.
  destruct (contribute_roots_shape Identifier_eq_dec Candidate_eqb p reqs
              {| mapping := []; criteria := [] |} [])
    as (o1' & cr'' & E' & _ & Hok & _).
  rewrite E in E'. injection E' as <- <-.
  pose proof (s_ok_unpinned Identifier_eq_dec Candidate_eqb cr'
                (Hok (c_ok_nil Candidate_eqb))) as Hs.
  destruct Ho1 as [->| ->].
  - unfold bind at 1, report at 1. simpl. intros H.
    assert (Hf : f_ok cr' {| mapping := []; criteria := cr' |}).
    { split; [|split].
      - now apply narrowed_from_nil_consistent.
      - intros k pin0 c H0. discriminate.
      - apply kept_refl. }
    apply (rounds_consistent cr') in H;
      [ | now constructor | reflexivity | now constructor ].
    destruct H as [H1 H2]. split; [exact H2|].
    intros _. exists cr'. split; [now apply Hrec | exact H1].
  - intros H. injection H as <- <-. simpl. split; [reflexivity|]. congruence.
Qed.

Lemma satisfying_all s k c pin0 :
  getitem k (mapping s) = Some pin0 ->
  satisfying s (k, c) = true ->
  sat_all (information c) pin0 = true.
Proof.
  unfold _is_current_pin_satisfying, satisfies_all, iter_requirement.
  intros -> H. rewrite forallb_forall in *. intros ri Hri.
  apply H. now apply in_map.
Qed.

(** The frame a result is built from. *)
Lemma resolver_resolve_final limit reqs max_rounds res log :
  resolver_resolve limit reqs max_rounds = (Return res, log) ->
  exists s roots,
    _build_result Identifier_eq_dec Candidate_is limit s = Return res /\
    s_ok s /\
    (forall item, In item (criteria s) -> satisfying s item = true) /\
    f_ok roots s /\ records_roots reqs roots.
Proof.
  unfold Resolver_resolve.
  destruct (resolution_resolve reqs max_rounds Resolution_init)
    as [[[]|e] self'] eqn:E; [|discriminate].
  destruct (resolution_resolve_ok Identifier_eq_dec Candidate_eqb Preference_ltb
              p _ _ _ _ E) as (Hst & _ & Hsat & _).
  destruct (resolution_resolve_consistent _ _ _ _ E) as (_ & Hf).
  destruct Hf as (roots & Hrec & Hf); [discriminate|].
  destruct (Hsat eq_refl) as (s & rest & Es & Hall).
  rewrite Es in *. simpl. intros H. injection H as H _.
  exists s, roots. split; [exact H|].
  split; [now inversion Hst|]. split; [exact Hall|].
  split; [now inversion Hf | exact Hrec].
Qed.

(** ** What a result records *)

(** Every root requirement is recorded in the returned criteria: the
    criterion of its identifier is there and its information holds the
    requirement with the root marker as parent. *)
Theorem result_records_roots limit reqs max_rounds res log :
  Resolver_resolve Identifier_eq_dec Candidate_is Candidate_eqb Preference_ltb p
    limit reqs max_rounds = (Return res, log) ->
  forall R, In R reqs ->
    exists c,
      Dict.getitem Identifier_eq_dec (identify p R) (result_criteria res) = Some c /\
      In {| requirement := R; parent := None |} (information c).
Proof.
  intros Hres R HR.
  destruct (resolver_resolve_final _ _ _ _ _ Hres)
    as (s & roots & Hb & _ & _ & (_ & _ & Hkept) & Hrec).
  destruct (build_result_fields Identifier_eq_dec Candidate_is _ _ _ Hb) as (Hcr & _).
  destruct (Hrec R HR) as (c0 & Hc0 & Hin).
  destruct (Hkept _ _ Hc0) as (c & more & Hc & Hi).
  exists c. rewrite Hcr. split; [exact Hc|].
  rewrite Hi. apply in_or_app. now left.
Qed.

(** Every returned pin is one of the candidates left in the criterion of
    its identifier, and was among the matches that [find_matches] gave
    for the first requirement of that criterion. *)
Theorem pin_is_a_remaining_candidate limit reqs max_rounds res log :
  Resolver_resolve Identifier_eq_dec Candidate_is Candidate_eqb Preference_ltb p
    limit reqs max_rounds = (Return res, log) ->
  forall K C,
    Dict.getitem Identifier_eq_dec K (result_mapping res) = Some C ->
    exists c first later,
      Dict.getitem Identifier_eq_dec K (result_criteria res) = Some c /\
      In C (candidates c) /\
      information c = first :: later /\
      In C (find_matches p (requirement first)).
Proof.
  intros Hres K C HK.
  destruct (resolver_resolve_final _ _ _ _ _ Hres)
    as (s & roots & Hb & (_ & _ & Hpins) & Hsat & (Hcons & Hadm & _) & _).
  destruct (build_result_fields Identifier_eq_dec Candidate_is _ _ _ Hb)
    as (Hcr & f & Hm).
  rewrite Hm in HK. apply getitem_filter_key in HK.
  destruct (Hpins _ _ HK) as [Hcon _]. unfold Dict.contains in Hcon.
  destruct (getitem K (criteria s)) as [c|] eqn:Ec; [|discriminate].
  assert (Hin : In C (candidates c)).
  { apply (Hadm K C c HK Ec). eapply satisfying_all; [exact HK|].
    apply Hsat. eapply getitem_In. exact Ec. }
  pose proof (Hcons _ _ Ec) as Hc. unfold crit_consistent in Hc.
  destruct (information c) as [|first later] eqn:Ei; [destruct Hc|].
  exists c, first, later. rewrite Hcr.
  split; [exact Ec|]. split; [exact Hin|]. split; [exact Ei|].
  now apply Hc.
Qed.

(** Every returned criterion has a first requirement and at least one
    candidate; each of its candidates was among the matches that
    [find_matches] gave for the first requirement and satisfies every
    requirement recorded after it. *)
Theorem returned_criteria_are_consistent limit reqs max_rounds res log :
  Resolver_resolve Identifier_eq_dec Candidate_is Candidate_eqb Preference_ltb p
    limit reqs max_rounds = (Return res, log) ->
  forall K c,
    Dict.getitem Identifier_eq_dec K (result_criteria res) = Some c ->
    candidates c <> [] /\
    exists first later,
      information c = first :: later /\
      forall x, In x (candidates c) ->
        In x (find_matches p (requirement first)) /\
        forall ri, In ri later -> is_satisfied_by p (requirement ri) x = true.
Proof.
  intros Hres K c HK.
  destruct (resolver_resolve_final _ _ _ _ _ Hres)
    as (s & roots & Hb & _ & Hsat & (Hcons & Hadm & _) & _).
  destruct (build_result_fields Identifier_eq_dec Candidate_is _ _ _ Hb) as (Hcr & _).
  rewrite Hcr in HK. split.
  - pose proof (Hsat _ (getitem_In _ _ _ _ HK)) as Hs.
    assert (Hpin : exists pin0, getitem K (mapping s) = Some pin0).
    { unfold _is_current_pin_satisfying in Hs.
      destruct (getitem K (mapping s)) as [pin0|]; [now exists pin0 | discriminate]. }
    destruct Hpin as [pin0 Hpin].
    assert (Hin : In pin0 (candidates c)).
    { apply (Hadm K pin0 c Hpin HK). eapply satisfying_all; eassumption. }
    intros E. rewrite E in Hin. destruct Hin.
  - pose proof (Hcons _ _ HK) as Hc. unfold crit_consistent in Hc.
    destruct (information c) as [|first later]; [destruct Hc|].
    exists first, later. split; [reflexivity|].
    intros x Hx. destruct (Hc x Hx) as [Hf Hl]. split; [exact Hf|].
    unfold satisfies_all in Hl. rewrite forallb_forall in Hl. exact Hl.
Qed.

(** A [Resolution] object resolves once: whatever the outcome of
    [resolve] on a fresh object, its history is not empty afterwards, and
    any further call raises [RuntimeError] and changes nothing. *)
Theorem resolution_is_one_shot reqs max_rounds o self' reqs2 max_rounds2 :
  Resolution_resolve Identifier_eq_dec Candidate_eqb Preference_ltb p
    reqs max_rounds Resolution_init = (o, self') ->
  _states self' <> [] /\
  Resolution_resolve Identifier_eq_dec Candidate_eqb Preference_ltb p
    reqs2 max_rounds2 self' = (Raise (RuntimeError "already resolved"), self').
Proof.
  intros H. destruct (resolution_resolve_consistent _ _ _ _ H) as [Hbot _].
  unfold Resolution_resolve.
  destruct (_states self') as [|s rest]; [destruct Hbot|].
  split; [discriminate | reflexivity].
Qed.

(** ** The result builder *)

#[local] Abbreviation all_keys_of := (build_all_keys Candidate_is).
#[local] Abbreviation lookup_key := (Dict.getitem (ObjectId_eq_dec Candidate_is)).
#[local] Abbreviation in_set := (set_contains Identifier_eq_dec).
#[local] Abbreviation add_to_set := (set_add Identifier_eq_dec).
#[local] Abbreviation has_route := (_has_route_to_root Identifier_eq_dec Candidate_is).

Lemma set_contains_In v (l : list (option Identifier)) :
  in_set v l = true <-> In v l.
Proof.
  unfold set_contains. destruct (in_dec _ v l); split; auto; discriminate.
Qed.

Lemma set_add_In v w (l : list (option Identifier)) :
  In w (add_to_set v l) <-> w = v \/ In w l.
Proof.
  unfold set_add. destruct (in_set v l) eqn:E.
  - apply set_contains_In in E. split; [auto | intros [->|H]; auto].
  - rewrite in_app_iff. simpl. split; [intros [H|[<-|[]]]; auto | intros [->|H]; auto].
Qed.

Lemma graph_add_vertices v w (g : @DirectedGraph Identifier) :
  In w (vertices (graph_add Identifier_eq_dec v g)) <-> w = v \/ In w (vertices g).
Proof.
  unfold graph_add, graph_contains.
  destruct (in_dec _ v (vertices g)); simpl.
  - split; [auto | intros [->|H]; auto].
  - rewrite in_app_iff. simpl. split; [intros [H|[<-|[]]]; auto | intros [->|H]; auto].
Qed.

Lemma graph_add_edges v (g : @DirectedGraph Identifier) :
  edges (graph_add Identifier_eq_dec v g) = edges g.
Proof. unfold graph_add. destruct (graph_contains _ v g); reflexivity. Qed.

Lemma graph_connect_vertices u v (g : @DirectedGraph Identifier) :
  vertices (graph_connect Identifier_eq_dec u v g) = vertices g.
Proof. unfold graph_connect. destruct (in_dec _ _ _); reflexivity. Qed.

Lemma graph_connect_edges u v e (g : @DirectedGraph Identifier) :
  In e (edges (graph_connect Identifier_eq_dec u v g)) <-> e = (u, v) \/ In e (edges g).
Proof.
  unfold graph_connect. destruct (in_dec _ (u, v) (edges g)); simpl.
  - split; [auto | intros [->|H]; auto].
  - rewrite in_app_iff. simpl. split; [intros [H|[<-|[]]]; auto | intros [->|H]; auto].
Qed.

(** [all_keys] maps [id(None)] to the root marker and the identity of a
    candidate to an identifier it is pinned for. *)
Lemma all_keys_root (m : Dict.t (Key:=Identifier) (V:=Candidate)) :
  lookup_key None (all_keys_of m) = Some None.
Proof. unfold build_all_keys. apply getitem_setitem_eq. Qed.

Lemma all_keys_entries (m : Dict.t (Key:=Identifier) (V:=Candidate)) par pkey :
  lookup_key par (all_keys_of m) = Some pkey ->
  match par with
  | None => pkey = None
  | Some cand => exists k', pkey = Some k' /\ In (k', cand) m
  end.
Proof.
  unfold build_all_keys. intros H. apply getitem_In, In_setitem in H.
  destruct H as [H|H]; [now injection H as -> ->|].
  assert (Hfold : forall m0 acc,
            (forall a b, In (a, b) acc ->
               exists cand k', a = Some cand /\ b = Some k' /\ In (k', cand) m) ->
            incl m0 m ->
            forall a b,
              In (a, b)
                 (fold_left
                    (fun acc kv =>
                       Dict.setitem (ObjectId_eq_dec Candidate_is)
                         (Some (snd kv)) (Some (fst kv)) acc) m0 acc) ->
              exists cand k', a = Some cand /\ b = Some k' /\ In (k', cand) m).
  { induction m0 as [|[k0 v0] m0 IH]; intros acc Hacc Hincl a b; simpl; [apply Hacc|].
    apply IH; [|intros x Hx; apply Hincl; now right].
    intros a0 b0 Hin. apply In_setitem in Hin as [E|Hin]; [|now apply Hacc].
    injection E as -> ->. exists v0, k0. repeat split. apply Hincl. now left. }
  destruct (Hfold m [] (fun a b (F : In (a, b) []) => False_ind _ F)
              (fun x Hx => Hx) _ _ H) as (cand & k' & -> & -> & Hin).
  now exists k'.
Qed.

#[local] Abbreviation reaches := (vertex_reaches_root Identifier_eq_dec).

(** A parent that [all_keys] knows and that reaches the root gives a route
    to the identifier. *)
Lemma parent_route s k criterion par pkey :
  getitem k (criteria s) = Some criterion ->
  In par (iter_parent criterion) ->
  lookup_key par (all_keys_of (mapping s)) = Some pkey ->
  reaches s pkey ->
  reaches s (Some k).
Proof.
  intros Hk Hpar Hl Hp. apply all_keys_entries in Hl.
  destruct par as [cand|].
  - destruct Hl as (k' & -> & Hin). eapply reaches_via; eauto.
  - subst pkey. eapply reaches_direct; eauto.
Qed.

(** [_has_route_to_root] only adds to [connected]; when it returns true
    the key is in [connected]; and it only adds keys that reach the root. *)
Lemma has_route_facts s depth key conn o conn' :
  has_route depth (criteria s) key (all_keys_of (mapping s)) conn = (o, conn') ->
  incl conn conn' /\
  (o = Return true -> In key conn') /\
  ((forall v, In v conn -> reaches s v) -> forall v, In v conn' -> reaches s v).
Proof.
  revert key conn o conn'.
  induction depth as [|depth IH]; intros key conn o conn'; simpl.
  - intros H. injection H as <- <-.
    split; [apply incl_refl | split; [discriminate | auto]].
  - destruct (in_set key conn) eqn:Ek.
    { intros H. injection H as <- <-. apply set_contains_In in Ek.
      split; [apply incl_refl | split; auto]. }
    clear Ek.
    destruct (criteria_get _ key (criteria s)) as [criterion|] eqn:Eg.
    2:{ intros H. injection H as <- <-.
        split; [apply incl_refl | split; [discriminate | auto]]. }
    destruct key as [k|]; [|discriminate]. simpl in Eg.
    pose proof (fun par (H : In par (iter_parent criterion)) => H) as Hincl.
    revert Hincl conn.
    generalize (iter_parent criterion) at 1 3 as parents.
    induction parents as [|par parents IHp]; intros Hincl conn.
    + intros H. injection H as <- <-.
      split; [apply incl_refl | split; [discriminate | auto]].
    + assert (Hrest : forall q, In q parents -> In q (iter_parent criterion))
        by (intros q Hq; apply Hincl; now right).
      destruct (lookup_key par (all_keys_of (mapping s))) as [pkey|] eqn:El;
        [|now apply IHp].
      assert (Hroute : reaches s pkey -> reaches s (Some k)).
      { eapply parent_route; eauto. apply Hincl. now left. }
      destruct (in_set pkey conn) eqn:Ep.
      * intros H. injection H as <- <-. apply set_contains_In in Ep.
        split; [intros v Hv; apply set_add_In; now right|].
        split; [intros _; apply set_add_In; now left|].
        intros Hc v Hv. apply set_add_In in Hv as [->|Hv]; auto.
      * destruct (has_route depth (criteria s) pkey (all_keys_of (mapping s)) conn)
          as [[[|]|e] c1] eqn:Er;
          destruct (IH _ _ _ _ Er) as (Hi1 & Ht1 & Hc1).
        -- intros H. injection H as <- <-.
           split; [intros v Hv; apply set_add_In; right; now apply Hi1|].
           split; [intros _; apply set_add_In; now left|].
           intros Hc v Hv. apply set_add_In in Hv as [->|Hv]; [|now apply Hc1].
           apply Hroute, Hc1; auto.
        -- intros H. destruct (IHp Hrest c1 H) as (Hi2 & Ht2 & Hc2).
           split; [intros v Hv; apply Hi2, Hi1, Hv|].
           split; [exact Ht2 | auto].
        -- intros H. injection H as <- <-.
           split; [exact Hi1 | split; [discriminate | exact Hc1]].
Qed.

(** An identifier with a requirement from the root is found connected,
    whenever the search returns. *)
Lemma has_route_root_parent s depth k c conn b conn' :
  In None conn -> getitem k (criteria s) = Some c -> In None (iter_parent c) ->
  has_route depth (criteria s) (Some k) (all_keys_of (mapping s)) conn
    = (Return b, conn') ->
  b = true.
Proof.
  intros Hconn Hk Hnone. destruct depth as [|depth]; simpl; [discriminate|].
  destruct (in_set (Some k) conn); [intros H; now injection H as <- _|].
  rewrite Hk. revert Hnone conn Hconn.
  generalize (iter_parent c) as parents.
  induction parents as [|par parents IHp]; intros Hnone conn Hconn; [destruct Hnone|].
  destruct (lookup_key par (all_keys_of (mapping s))) as [pkey|] eqn:El.
  - destruct (in_set pkey conn) eqn:Ep; [intros H; now injection H as <- _|].
    assert (Hps : In None parents).
    { destruct Hnone as [->|H]; [|exact H]. exfalso.
      rewrite all_keys_root in El. injection El as <-.
      apply set_contains_In in Hconn. congruence. }
    destruct (has_route depth (criteria s) pkey (all_keys_of (mapping s)) conn)
      as [[[|]|e] c1] eqn:Er.
    + intros H. now injection H as <- _.
    + apply IHp; [exact Hps|].
      destruct (has_route_facts _ _ _ _ _ _ Er) as (Hi & _). now apply Hi.
    + discriminate.
  - apply IHp; [|exact Hconn].
    destruct Hnone as [->|H]; [|exact H].
    rewrite all_keys_root in El. discriminate.
Qed.

Lemma graph_add_if v (g : @DirectedGraph Identifier) :
  (if graph_contains Identifier_eq_dec v g then g
   else graph_add Identifier_eq_dec v g)
  = graph_add Identifier_eq_dec v g.
Proof. unfold graph_add. destruct (graph_contains _ v g); reflexivity. Qed.

#[local] Abbreviation justified := (@edge_justified Requirement Candidate Identifier).

(** The loop that connects the parents of an identifier. *)
Lemma connect_parents_facts s k c parents g :
  let g' := connect_parents Identifier_eq_dec Candidate_is
              (all_keys_of (mapping s)) (Some k) parents g in
  incl (vertices g) (vertices g') /\
  incl (edges g) (edges g') /\
  (graph_closed g -> In (Some k) (vertices g) -> graph_closed g') /\
  ((forall u v, In (u, v) (edges g) -> justified s u v) ->
   In (k, c) (criteria s) -> incl parents (iter_parent c) ->
   forall u v, In (u, v) (edges g') -> justified s u v) /\
  (forall par pkey, In par parents ->
     lookup_key par (all_keys_of (mapping s)) = Some pkey ->
     In (pkey, Some k) (edges g')).
Proof.
  revert g. induction parents as [|par parents IH]; intros g; simpl.
  - split; [apply incl_refl|]. split; [apply incl_refl|].
    split; [auto|]. split; [auto | intros par pkey []].
  - destruct (lookup_key par (all_keys_of (mapping s))) as [pkey|] eqn:El.
    + rewrite graph_add_if.
      set (g1 := graph_connect Identifier_eq_dec pkey (Some k)
                   (graph_add Identifier_eq_dec pkey g)).
      destruct (IH g1) as (Hv & He & Hcl & Hj & Hp). cbv zeta in *.
      assert (Hv1 : incl (vertices g) (vertices g1)).
      { intros w Hw. unfold g1. rewrite graph_connect_vertices.
        apply graph_add_vertices. now right. }
      assert (He1 : incl (edges g) (edges g1)).
      { intros e Hin. unfold g1. apply graph_connect_edges. right.
        now rewrite graph_add_edges. }
      split; [intros w Hw; apply Hv, Hv1, Hw|].
      split; [intros e Hin; apply He, He1, Hin|].
      split; [|split].
      * intros Hg Hk. apply Hcl; [|now apply Hv1].
        intros u v Hin. unfold g1 in *. rewrite graph_connect_vertices.
        apply graph_connect_edges in Hin as [E|Hin].
        -- injection E as -> ->. split; apply graph_add_vertices; [now left|].
           right. exact Hk.
        -- rewrite graph_add_edges in Hin. destruct (Hg _ _ Hin).
           split; apply graph_add_vertices; now right.
      * intros Hg Hin Hincl. apply Hj;
          [|exact Hin | intros q Hq; apply Hincl; now right].
        intros u v Huv. unfold g1 in Huv.
        apply graph_connect_edges in Huv as [E|Huv].
        -- injection E as -> ->. exists k, c, par.
           split; [reflexivity|]. split; [exact Hin|].
           split; [apply Hincl; now left|].
           now apply all_keys_entries in El.
        -- rewrite graph_add_edges in Huv. now apply Hg.
      * intros q qkey [<-|Hq] Hl; [|now apply (Hp q)].
        rewrite El in Hl. injection Hl as <-.
        apply He. unfold g1. apply graph_connect_edges. now left.
    + destruct (IH g) as (Hv & He & Hcl & Hj & Hp). cbv zeta in *.
      split; [exact Hv|]. split; [exact He|]. split; [exact Hcl|].
      split.
      * intros Hg Hin Hincl. apply Hj; [exact Hg | exact Hin|].
        intros q Hq. apply Hincl. now right.
      * intros q qkey [<-|Hq] Hl; [congruence | now apply (Hp q)].
Qed.

(** The loop of [_build_result] over the criteria. *)
Lemma build_graph_facts s depth items g conn g' conn' :
  incl items (criteria s) ->
  build_graph Identifier_eq_dec Candidate_is depth (criteria s)
    (all_keys_of (mapping s)) items (g, conn) = (Return tt, (g', conn')) ->
  incl conn conn' /\
  incl (vertices g) (vertices g') /\
  incl (edges g) (edges g') /\
  ((forall v, In v conn -> reaches s v) -> forall v, In v conn' -> reaches s v) /\
  (graph_closed g -> graph_closed g') /\
  ((forall u v, In (u, v) (edges g) -> justified s u v) ->
   forall u v, In (u, v) (edges g') -> justified s u v) /\
  (Dict.wf (criteria s) -> In None conn ->
   forall k c, In (k, c) items -> In None (iter_parent c) ->
     In (Some k) conn' /\ In (Some k) (vertices g') /\
     In (None, Some k) (edges g')).
Proof.
  revert g conn. induction items as [|[key criterion] items IH]; intros g conn Hincl.
  - simpl. unfold ret. intros H. injection H as <- <-.
    split; [apply incl_refl|]. split; [apply incl_refl|].
    split; [apply incl_refl|]. split; [auto|]. split; [auto|]. split; [auto|].
    intros _ _ k c [].
  - assert (Hhead : In (key, criterion) (criteria s)) by (apply Hincl; now left).
    assert (Htail : incl items (criteria s))
      by (intros x Hx; apply Hincl; now right).
    simpl.
    destruct (has_route depth (criteria s) (Some key) (all_keys_of (mapping s)) conn)
      as [[[|]|e] c1] eqn:Er; [| |discriminate];
      destruct (has_route_facts _ _ _ _ _ _ Er) as (Hi1 & Ht1 & Hc1).
    + rewrite graph_add_if.
      set (g0 := graph_add Identifier_eq_dec (Some key) g).
      destruct (connect_parents_facts s key criterion (iter_parent criterion) g0)
        as (Hv & He & Hcl & Hj & Hp). cbv zeta in *.
      set (g1 := connect_parents Identifier_eq_dec Candidate_is
                   (all_keys_of (mapping s)) (Some key) (iter_parent criterion) g0)
        in *.
      intros H. destruct (IH g1 c1 Htail H) as (Ii & Iv & Ie & Ir & Icl & Ij & Iroot).
      assert (Hv0 : incl (vertices g) (vertices g0))
        by (intros w Hw; apply graph_add_vertices; now right).
      assert (Hkey0 : In (Some key) (vertices g0))
        by (apply graph_add_vertices; now left).
      assert (He0 : edges g0 = edges g) by apply graph_add_edges.
      split; [intros v Hv'; apply Ii, Hi1, Hv'|].
      split; [intros v Hv'; apply Iv, Hv, Hv0, Hv'|].
      split; [intros e' He'; apply Ie, He; now rewrite He0|].
      split; [auto|].
      split.
      { intros Hg. apply Icl, Hcl; [|exact Hkey0].
        intros u v Huv. rewrite He0 in Huv. destruct (Hg _ _ Huv).
        split; apply Hv0; assumption. }
      split.
      { intros Hg. apply Ij, Hj; [|exact Hhead | apply incl_refl].
        intros u v Huv. rewrite He0 in Huv. now apply Hg. }
      intros Hwf Hnone k c [E|Hin] Hpar.
      * injection E as -> ->.
        split; [apply Ii, Ht1; reflexivity|].
        split; [apply Iv, Hv, Hkey0|].
        apply Ie, (Hp None None Hpar). apply all_keys_root.
      * exact (Iroot Hwf (Hi1 _ Hnone) k c Hin Hpar).
    + intros H. destruct (IH g c1 Htail H) as (Ii & Iv & Ie & Ir & Icl & Ij & Iroot).
      split; [intros v Hv'; apply Ii, Hi1, Hv'|].
      split; [exact Iv|]. split; [exact Ie|]. split; [auto|].
      split; [exact Icl|]. split; [exact Ij|].
      intros Hwf Hnone k c [E|Hin] Hpar.
      * injection E as -> ->. exfalso.
        assert (Hk : getitem k (criteria s) = Some c) by now apply In_getitem.
        pose proof (has_route_root_parent _ _ _ _ _ _ _ Hnone Hk Hpar Er).
        discriminate.
      * exact (Iroot Hwf (Hi1 _ Hnone) k c Hin Hpar).
Qed.

(** What [_build_result] returns, in terms of the frame it is given. *)
Lemma build_result_facts limit s res :
  _build_result Identifier_eq_dec Candidate_is limit s = Return res ->
  exists conn,
    result_mapping res
      = filter (fun kv => in_set (Some (fst kv)) conn) (mapping s) /\
    result_criteria res = criteria s /\
    (forall v, In v conn -> reaches s v) /\
    In None (vertices (result_graph res)) /\
    graph_closed (result_graph res) /\
    (forall u v, In (u, v) (edges (result_graph res)) -> justified s u v) /\
    (Dict.wf (criteria s) ->
     forall k c, In (k, c) (criteria s) -> In None (iter_parent c) ->
       In (Some k) conn /\ In (Some k) (vertices (result_graph res)) /\
       In (None, Some k) (edges (result_graph res))).
Proof.
  unfold _build_result.
  destruct (build_graph _ _ _ _ _ _ _) as [[[]|e] [g conn]] eqn:E; [|discriminate].
  intros H. injection H as <-. simpl.
  destruct (build_graph_facts _ _ _ _ _ _ _ (incl_refl _) E)
    as (Hi & Hv & He & Hr & Hcl & Hj & Hroot).
  exists conn. split; [reflexivity|]. split; [reflexivity|].
  split.
  { apply Hr. intros v [<-|[]]. exact I. }
  split; [apply Hv; now left|].
  split; [apply Hcl; intros u v []|].
  split; [apply Hj; intros u v []|].
  intros Hwf. apply Hroot; [exact Hwf | now left].
Qed.

(** The graph of a result has the root marker as a vertex and is closed:
    both ends of every edge are vertices.  Every edge is justified by the
    frame the result is built from: its target is an identifier whose
    criterion holds a requirement that comes from the root, for an edge
    from the root marker, or from a candidate pinned for the source of
    the edge. *)
Theorem result_graph_is_justified limit s res :
  _build_result Identifier_eq_dec Candidate_is limit s = Return res ->
  In None (vertices (result_graph res)) /\
  forall u v, In (u, v) (edges (result_graph res)) ->
    In u (vertices (result_graph res)) /\
    In v (vertices (result_graph res)) /\
    exists k c par,
      v = Some k /\ In (k, c) (result_criteria res) /\ In par (iter_parent c) /\
      match par with
      | None => u = None
      | Some cand => exists k', u = Some k' /\ In (k', cand) (mapping s)
      end.
Proof.
  intros H. destruct (build_result_facts _ _ _ H)
    as (conn & _ & Hcr & _ & Hnone & Hcl & Hj & _).
  split; [exact Hnone|]. intros u v Huv.
  destruct (Hcl _ _ Huv) as [Hu Hv]. split; [exact Hu|]. split; [exact Hv|].
  rewrite Hcr. exact (Hj _ _ Huv).
Qed.

(** Reachability pruning is sound: an identifier is kept in the mapping
    of a result, with the candidate pinned for it, only if it reaches the
    root through requirements whose parents are pinned candidates. *)
Theorem result_mapping_reaches_root limit s res :
  _build_result Identifier_eq_dec Candidate_is limit s = Return res ->
  forall K C,
    Dict.getitem Identifier_eq_dec K (result_mapping res) = Some C ->
    Dict.getitem Identifier_eq_dec K (mapping s) = Some C /\
    reaches_root Identifier_eq_dec s K.
Proof.
  intros H K C HK. destruct (build_result_facts _ _ _ H)
    as (conn & Hm & _ & Hr & _).
  rewrite Hm in HK. split.
  - exact (getitem_filter_key Identifier_eq_dec
             (fun k => in_set (Some k) conn) _ _ _ HK).
  - apply getitem_In, filter_In in HK as [_ HK]. simpl in HK.
    apply set_contains_In in HK. exact (Hr _ HK).
Qed.

Lemma getitem_filter_kept (f : Identifier -> bool)
    (m : Dict.t (Key:=Identifier) (V:=Candidate)) k :
  f k = true ->
  getitem k (filter (fun kv => f (fst kv)) m) = getitem k m.
Proof.
  intros Hf. induction m as [|[k' v'] m IH]; simpl; [reflexivity|].
  destruct (Identifier_eq_dec k k') as [<-|Hne].
  - rewrite Hf. simpl. destruct (Identifier_eq_dec k k); congruence.
  - destruct (f k'); simpl; [|exact IH].
    destruct (Identifier_eq_dec k k'); congruence.
Qed.

(** The root requirements are resolved: when [resolve] returns, the
    identifier of every root requirement is in the returned mapping,
    pinned to a candidate that satisfies the requirement, and the graph
    has it as a vertex with an edge from the root marker. *)
Theorem roots_are_pinned limit reqs max_rounds res log :
  Resolver_resolve Identifier_eq_dec Candidate_is Candidate_eqb Preference_ltb p
    limit reqs max_rounds = (Return res, log) ->
  forall R, In R reqs ->
    exists C,
      Dict.getitem Identifier_eq_dec (identify p R) (result_mapping res) = Some C /\
      is_satisfied_by p R C = true /\
      In (Some (identify p R)) (vertices (result_graph res)) /\
      In (None, Some (identify p R)) (edges (result_graph res)).
Proof.
  intros Hres R HR.
  destruct (resolver_resolve_final _ _ _ _ _ Hres)
    as (s & roots & Hb & (_ & Hcok & _) & Hsat & (_ & _ & Hkept) & Hrec).
  destruct (Hrec R HR) as (c0 & Hc0 & Hin0).
  destruct (Hkept _ _ Hc0) as (c & more & Hc & Hi).
  assert (Hin : In {| requirement := R; parent := None |} (information c))
    by (rewrite Hi; apply in_or_app; now left).
  assert (Hpar : In None (iter_parent c))
    by (apply (in_map parent) in Hin; exact Hin).
  assert (Hreq : In R (iter_requirement c))
    by (apply (in_map requirement) in Hin; exact Hin).
  pose proof (Hsat _ (getitem_In _ _ _ _ Hc)) as Hs.
  unfold _is_current_pin_satisfying in Hs.
  destruct (getitem (identify p R) (mapping s)) as [C|] eqn:Em; [|discriminate].
  rewrite forallb_forall in Hs.
  destruct (build_result_facts _ _ _ Hb) as (conn & Hm & _ & _ & _ & _ & _ & Hroot).
  destruct (Hroot (proj1 Hcok) _ _ (getitem_In _ _ _ _ Hc) Hpar) as (Hconn & Hv & He).
  exists C. split; [|split; [now apply Hs | split; assumption]].
  rewrite Hm.
  rewrite (getitem_filter_kept (fun k => in_set (Some k) conn)); [exact Em|].
  now apply set_contains_In.
Qed.

(** ** Pruning keeps every pin that reaches the root *)

(** When the pinned candidates are distinct objects, [all_keys] maps each
    of them to the identifier it is pinned for. *)
Lemma all_keys_pinned (m : Dict.t (Key:=Identifier) (V:=Candidate)) k cand :
  NoDup (map snd m) -> In (k, cand) m ->
  lookup_key (Some cand) (all_keys_of m) = Some (Some k).
Proof.
  intros Hnd Hin. unfold build_all_keys.
  rewrite getitem_setitem_neq by discriminate.
  assert (Hfold : forall m0 acc,
            NoDup (map snd m0) ->
            In (k, cand) m0 \/
            (~ In cand (map snd m0) /\
             Dict.getitem (ObjectId_eq_dec Candidate_is) (Some cand) acc
               = Some (Some k)) ->
            Dict.getitem (ObjectId_eq_dec Candidate_is) (Some cand)
              (fold_left
                 (fun acc kv =>
                    Dict.setitem (ObjectId_eq_dec Candidate_is)
                      (Some (snd kv)) (Some (fst kv)) acc) m0 acc)
              = Some (Some k)).
  { induction m0 as [|[k0 v0] m0 IH]; intros acc Hn H; simpl.
    - destruct H as [[]|[_ H]]. exact H.
    - simpl in Hn. inversion Hn as [|? ? Hv0 Hn0]; subst.
      apply IH; [exact Hn0|].
      destruct H as [[E|H]|[Hni H]].
      + injection E as -> ->. right. split; [exact Hv0|].
        apply getitem_setitem_eq.
      + now left.
      + right. simpl in Hni. split; [intros Hx; apply Hni; now right|].
        rewrite getitem_setitem_neq; [exact H|].
        intros E. injection E as ->. apply Hni. now left. }
  apply Hfold; [exact Hnd | now left].
Qed.

(** When the pinned candidates are distinct objects, [_has_route_to_root]
    answers false only for a key that does not reach the root. *)
Lemma has_route_complete s depth key conn conn' :
  NoDup (map snd (mapping s)) -> In None conn ->
  has_route depth (criteria s) key (all_keys_of (mapping s)) conn
    = (Return false, conn') ->
  ~ reaches s key.
Proof.
  intros Hnd. revert key conn conn'.
  induction depth as [|depth IH]; intros key conn conn' Hnone; simpl;
    [discriminate|].
  destruct (in_set key conn) eqn:Ek; [discriminate|].
  destruct (criteria_get _ key (criteria s)) as [criterion|] eqn:Eg.
  2:{ intros _ Hr. destruct key as [k|]; simpl in *.
      - inversion Hr; congruence.
      - apply set_contains_In in Hnone. congruence. }
  destruct key as [k|]; [|discriminate]. simpl in Eg. clear Ek.
  intros Hloop.
  assert (Hpar : forall par, In par (iter_parent criterion) ->
            match par with
            | None => False
            | Some cand => forall k', In (k', cand) (mapping s) ->
                                      ~ reaches_root Identifier_eq_dec s k'
            end).
  { revert conn Hnone Hloop.
    generalize (iter_parent criterion) as parents.
    induction parents as [|par parents IHp]; intros conn Hnone Hloop q Hq;
      [destruct Hq|].
    destruct (lookup_key par (all_keys_of (mapping s))) as [pkey|] eqn:El.
    - destruct (in_set pkey conn) eqn:Ep; [discriminate|].
      destruct (has_route depth (criteria s) pkey (all_keys_of (mapping s)) conn)
        as [[[|]|e] c1] eqn:Er; [discriminate| |discriminate].
      destruct (has_route_facts _ _ _ _ _ _ Er) as (Hi1 & _).
      destruct Hq as [<-|Hq]; [|exact (IHp c1 (Hi1 _ Hnone) Hloop q Hq)].
      pose proof (IH _ _ _ Hnone Er) as Hno.
      destruct par as [cand|].
      + intros k' Hin. rewrite (all_keys_pinned _ _ _ Hnd Hin) in El.
        injection El as <-. exact Hno.
      + rewrite all_keys_root in El. injection El as <-.
        apply set_contains_In in Hnone. congruence.
    - destruct Hq as [<-|Hq]; [|exact (IHp conn Hnone Hloop q Hq)].
      destruct par as [cand|].
      + intros k' Hin. rewrite (all_keys_pinned _ _ _ Hnd Hin) in El.
        discriminate.
      + rewrite all_keys_root in El. discriminate. }
  intros Hr. simpl in Hr.
  inversion Hr as [k0 c0 Hc0 Hin0|k0 c0 cand k' Hc0 Hin0 Hm Hr']; subst;
    rewrite Eg in Hc0; injection Hc0 as <-.
  - exact (Hpar _ Hin0).
  - exact (Hpar _ Hin0 _ Hm Hr').
Qed.

(** The loop of [_build_result] leaves in [connected] every identifier it
    visits that reaches the root. *)
Lemma build_graph_complete s depth items g conn g' conn' :
  NoDup (map snd (mapping s)) -> In None conn ->
  incl items (criteria s) ->
  build_graph Identifier_eq_dec Candidate_is depth (criteria s)
    (all_keys_of (mapping s)) items (g, conn) = (Return tt, (g', conn')) ->
  forall k c, In (k, c) items -> reaches_root Identifier_eq_dec s k ->
    In (Some k) conn'.
Proof.
  intros Hnd. revert g conn.
  induction items as [|[key criterion] items IH]; intros g conn Hnone Hincl;
    [intros _ k c []|].
  assert (Htail : incl items (criteria s))
    by (intros x Hx; apply Hincl; now right).
  simpl.
  destruct (has_route depth (criteria s) (Some key) (all_keys_of (mapping s)) conn)
    as [[[|]|e] c1] eqn:Er; [| |discriminate];
    destruct (has_route_facts _ _ _ _ _ _ Er) as (Hi1 & Ht1 & _);
    intros H k c [E|Hin] Hr;
    try (eapply IH; [apply Hi1, Hnone | exact Htail | exact H | exact Hin | exact Hr]).
  - injection E as -> ->.
    destruct (build_graph_facts _ _ _ _ _ _ _ Htail H) as (Ii & _).
    apply Ii, Ht1. reflexivity.
  - injection E as -> ->. exfalso.
    exact (has_route_complete _ _ _ _ _ Hnd Hnone Er Hr).
Qed.

(** Reachability pruning is complete when the pinned candidates are
    distinct objects: every identifier that reaches the root through
    requirements whose parents are pinned candidates keeps its pin in the
    mapping of the result. *)
Theorem result_mapping_keeps_reachable limit s res :
  _build_result Identifier_eq_dec Candidate_is limit s = Return res ->
  NoDup (map snd (mapping s)) ->
  forall K C,
    Dict.getitem Identifier_eq_dec K (mapping s) = Some C ->
    reaches_root Identifier_eq_dec s K ->
    Dict.getitem Identifier_eq_dec K (result_mapping res) = Some C.
Proof.
  unfold _build_result.
  destruct (build_graph _ _ _ _ _ _ _) as [[[]|e] [g conn]] eqn:E; [|discriminate].
  intros H Hnd K C HK Hr. injection H as <-. simpl.
  assert (Hc : exists c, In (K, c) (criteria s)).
  { inversion Hr as [k0 c0 Hc0 _|k0 c0 ? ? Hc0 _ _ _]; subst;
      exists c0; eapply getitem_In; exact Hc0. }
  destruct Hc as (c & Hc).
  assert (Hnone : In (@None Identifier) [None]) by now left.
  pose proof (build_graph_complete _ _ _ _ _ _ _ Hnd Hnone
                (incl_refl _) E K c Hc Hr) as Hin.
  rewrite (getitem_filter_kept (fun k => in_set (Some k) conn)); [exact HK|].
  now apply set_contains_In.
Qed.

(** ** The criterion a round selects *)

(** [min] with a key: no item has a key below the key of the item chosen,
    when the comparison of keys is irreflexive and transitive. *)
Lemma min_by_minimal {A : Type} (key : A -> Preference) :
  (forall a, Preference_ltb a a = false) ->
  (forall x y z, Preference_ltb x y = true -> Preference_ltb y z = true ->
                 Preference_ltb x z = true) ->
  forall items best seen,
    (forall y, In y seen -> Preference_ltb (key y) (key best) = false) ->
    forall y, In y (seen ++ best :: items) ->
      Preference_ltb (key y) (key (min_by Preference_ltb key best items)) = false.
Proof.
  intros Hirr Htr. induction items as [|x items IH]; intros best seen Hseen y Hy; simpl.
  - apply in_app_iff in Hy as [Hy|[<-|[]]]; [now apply Hseen | apply Hirr].
  - destruct (Preference_ltb (key x) (key best)) eqn:Ex.
    + apply (IH x (seen ++ [best])).
      * intros z Hz. apply in_app_iff in Hz as [Hz|[<-|[]]].
        -- destruct (Preference_ltb (key z) (key x)) eqn:Ez; [|reflexivity].
           rewrite <- (Hseen z Hz). symmetry. eapply Htr; eassumption.
        -- destruct (Preference_ltb (key best) (key x)) eqn:Eb; [|reflexivity].
           rewrite <- (Hirr (key x)). symmetry. eapply Htr; eassumption.
      * rewrite <- app_assoc. exact Hy.
    + apply (IH best (seen ++ [x])).
      * intros z Hz. apply in_app_iff in Hz as [Hz|[<-|[]]];
          [now apply Hseen | exact Ex].
      * apply in_app_iff in Hy as [Hy|[<-|[<-|Hy]]];
          apply in_app_iff.
        -- left. apply in_app_iff. now left.
        -- right. now left.
        -- left. apply in_app_iff. right. now left.
        -- right. now right.
Qed.

(** One round of [Resolution.resolve], the comparison of preferences being
    irreflexive and transitive.  Either the pin of every criterion
    satisfies it, and the round ends the resolution; or the round works on
    a criterion of the current frame whose identifier has no pin or a pin
    that does not satisfy it, and no such criterion has a preference below
    its own: the round tries to pin it, backtracks if that fails, reports
    the frame it pushed, and goes on to the next round. *)
Theorem round_selects_least_preferred max_rounds n i base rest log :
  (forall a, Preference_ltb a a = false) ->
  (forall x y z, Preference_ltb x y = true -> Preference_ltb y z = true ->
                 Preference_ltb x z = true) ->
  ((forall item, In item (criteria base) ->
      _is_current_pin_satisfying Identifier_eq_dec p base item = true) /\
   rounds Identifier_eq_dec Candidate_eqb Preference_ltb p max_rounds (S n) i
     {| _states := base :: rest; _r := log |}
   = (Return tt,
      {| _states := base :: rest;
         _r := log ++ [starting_round i; ending base] |})) \/
  (exists name criterion,
     In (name, criterion) (criteria base) /\
     _is_current_pin_satisfying Identifier_eq_dec p base (name, criterion) = false /\
     (forall item, In item (criteria base) ->
        _is_current_pin_satisfying Identifier_eq_dec p base item = false ->
        Preference_ltb
          (_get_criterion_item_preference Identifier_eq_dec p base item)
          (_get_criterion_item_preference Identifier_eq_dec p base
             (name, criterion)) = false) /\
     rounds Identifier_eq_dec Candidate_eqb Preference_ltb p max_rounds (S n) i
       {| _states := base :: rest; _r := log |}
     = match _pin_criterion Identifier_eq_dec p name criterion
               (base :: base :: rest) with
       | (Raise e, st) =>
           (Raise e, {| _states := st; _r := log ++ [starting_round i] |})
       | (Return success, st) =>
           match st with
           | [] =>
               (Raise (AttributeError "state"),
                {| _states := []; _r := log ++ [starting_round i] |})
           | curr' :: _ =>
               match (if negb success
                      then _backtrack_to_last_workable_state Identifier_eq_dec
                             Candidate_eqb criterion st
                      else (Return tt, st)) with
               | (Raise e, st2) =>
                   (Raise e, {| _states := st2; _r := log ++ [starting_round i] |})
               | (Return _, st2) =>
                   rounds Identifier_eq_dec Candidate_eqb Preference_ltb p
                     max_rounds n (i + 1)%Z
                     {| _states := st2;
                        _r := log ++ [starting_round i; ending_round i curr'] |}
               end
           end
       end).
Proof.
  intros Hirr Htr. rewrite rounds_S.
  destruct (filter (fun item => negb (satisfying base item)) (criteria base))
    as [|item items] eqn:Hf.
  - left. split.
    + intros item Hin.
      destruct (satisfying base item) eqn:Es; [reflexivity|]. exfalso.
      assert (H : In item []) by (rewrite <- Hf; apply filter_In; now rewrite Es).
      destruct H.
    + now rewrite <- app_assoc.
  - right.
    destruct (min_by Preference_ltb (preference base) item items)
      as [name criterion] eqn:Hmin.
    exists name, criterion.
    pose proof (min_by_In Preference_ltb (preference base) item items) as Hin.
    rewrite Hmin, <- Hf in Hin. apply filter_In in Hin as [Hin Hneg].
    split; [exact Hin|]. split; [now apply negb_true_iff in Hneg|]. split.
    + intros it Hit Hs. rewrite <- Hmin.
      apply (min_by_minimal (preference base) Hirr Htr items item []);
        [intros y []|].
      change (In it (item :: items)). rewrite <- Hf. apply filter_In.
      now rewrite Hs.
    + destruct (pin_criterion name criterion (base :: base :: rest))
        as [[success|e] [|curr' st]]; try reflexivity.
      now rewrite <- app_assoc.
Qed.

(** ** No rounds *)

(** With [max_rounds] zero or negative [Resolver.resolve] never returns a
    result, not even for no requirement at all: unless a root requirement
    conflicts, the reporter receives [starting()] and
    [ResolutionTooDeep(max_rounds)] is raised. *)
Theorem resolve_without_rounds limit reqs max_rounds :
  (max_rounds <= 0)%Z ->
  Resolver_resolve Identifier_eq_dec Candidate_is Candidate_eqb Preference_ltb p
    limit reqs max_rounds = (Raise (AttributeError "requirements"), []) \/
  Resolver_resolve Identifier_eq_dec Candidate_is Candidate_eqb Preference_ltb p
    limit reqs max_rounds = (Raise (ResolutionTooDeep max_rounds), [starting]).
Proof.
  intros Hle. unfold Resolver_resolve.
  destruct (resolution_resolve reqs max_rounds Resolution_init)
    as [o self'] eqn:E.
  pose proof (resolution_resolve_log _ _ _ _ E) as H.
  destruct o as [[]|e].
  - destruct H as (frames & s & rest & _ & Hlt & _). lia.
  - destruct H as [(-> & ->)|[(-> & frames & Hlen & ->)|(-> & frames & Hlt & _)]].
    + now left.
    + right. replace (Z.to_nat max_rounds) with 0%nat in Hlen by lia.
      destruct frames; [reflexivity | discriminate].
    + lia.
Qed.

(** ** What leaves [Resolver.resolve] *)

(** [Resolver.resolve] lets four exceptions out and no other: the
    [AttributeError] of the handler of a root conflict, [ResolutionTooDeep]
    carrying [max_rounds], a [KeyError] and a [RecursionError].  None of
    them is [ResolutionImpossible], and [ResolutionTooDeep] is the only
    [ResolverException] among them. *)
Theorem resolve_escaping_exceptions limit reqs max_rounds e log :
  Resolver_resolve Identifier_eq_dec Candidate_is Candidate_eqb Preference_ltb p
    limit reqs max_rounds = (Raise e, log) ->
  (e = AttributeError "requirements" \/ e = ResolutionTooDeep max_rounds \/
   e = KeyError \/ e = RecursionError) /\
  (is_ResolverException e = true -> e = ResolutionTooDeep max_rounds) /\
  (forall requirements, e <> ResolutionImpossible requirements).
Proof.
  intros H.
  pose proof (resolver_resolve_raise Identifier_eq_dec Candidate_is Candidate_eqb
                Preference_ltb p _ _ _ _ _ H) as He.
  split; [exact He|].
  destruct He as [->|[->|[->| ->]]]; split;
    solve [discriminate | reflexivity | intros ?; discriminate].
Qed.

(** ** Backtracking, as a whole *)

Lemma backtrack_frames_shape crit states :
  fst (backtrack crit states) = Raise KeyError \/
  (backtrack crit states
     = (Raise (ResolutionImpossible (iter_requirement crit)), [])) \/
  (exists dropped s rest m' K C c narrowed,
     states = dropped ++ s :: rest /\
     mapping s = m' ++ [(K, C)] /\
     getitem K (criteria s) = Some c /\
     excluded_of Candidate_eqb c C = Return narrowed /\
     backtrack crit states
       = (Return tt,
          {| mapping := m'; criteria := setitem K narrowed (criteria s) |} :: rest)).
Proof.
  induction states as [|s rest IH]; [right; left; reflexivity|].
  rewrite backtrack_frames_cons.
  destruct (Dict.popitem (mapping s)) as [[[K C] m']|] eqn:Hpop; [|now left].
  apply popitem_Some in Hpop. cbv zeta.
  destruct (getitem K (criteria s)) as [c|] eqn:Hc; [|now left].
  destruct (excluded_of_cases Candidate_eqb c C) as [E|(c' & E & _)]; rewrite E.
  - destruct IH as [H|[H|(dropped & s1 & rest1 & m1 & K1 & C1 & c1 & n1
                            & -> & Hm & Hg & Hx & Hrun)]].
    + now left.
    + right. now left.
    + right. right. exists (s :: dropped), s1, rest1, m1, K1, C1, c1, n1.
      repeat split; assumption.
  - right. right. exists [], s, rest, m', K, C, c, c'. repeat split; assumption.
Qed.

(** [_backtrack_to_last_workable_state] as a whole.  It never lets a
    [RequirementsConflicted] out: it raises [IndexError] on an empty
    history, [KeyError] when it meets a frame without a pin (or a pin
    without a criterion), [ResolutionImpossible] with the requirements of
    the criterion it was called with when the history runs out, and
    otherwise returns.  When it returns it has deleted one frame or more
    from the top of the history; in the frame that is now current the most
    recent pin [(K, C)] is gone, [C] is excluded from the criterion of [K],
    and nothing else has changed; the frames below are untouched. *)
Theorem backtrack_outcomes crit states :
  (states = [] /\
   _backtrack_to_last_workable_state Identifier_eq_dec Candidate_eqb crit states
     = (Raise IndexError, [])) \/
  fst (_backtrack_to_last_workable_state Identifier_eq_dec Candidate_eqb crit states)
    = Raise KeyError \/
  (_backtrack_to_last_workable_state Identifier_eq_dec Candidate_eqb crit states
     = (Raise (ResolutionImpossible (iter_requirement crit)), [])) \/
  (exists dropped s rest m' K C c narrowed,
     dropped <> [] /\
     states = dropped ++ s :: rest /\
     mapping s = m' ++ [(K, C)] /\
     Dict.getitem Identifier_eq_dec K (criteria s) = Some c /\
     excluded_of Candidate_eqb c C = Return narrowed /\
     _backtrack_to_last_workable_state Identifier_eq_dec Candidate_eqb crit states
       = (Return tt,
          {| mapping := m';
             criteria := Dict.setitem Identifier_eq_dec K narrowed (criteria s)
          |} :: rest)).
Proof.
  destruct states as [|top states]; [left; split; reflexivity|].
  right. unfold _backtrack_to_last_workable_state.
  destruct (backtrack_frames_shape crit states)
    as [H|[H|(dropped & s & rest & m' & K & C & c & n & -> & Hm & Hg & Hx & Hrun)]].
  - now left.
  - right. now left.
  - right. right. exists (top :: dropped), s, rest, m', K, C, c, n.
    split; [discriminate|]. repeat split; assumption.
Qed.

(** ** The frame [resolve] ends with *)

(** When [Resolution.resolve] returns, the frame left on top of the
    history is the one shown to the reporter by [ending], and every
    identifier that has a criterion in it is pinned, to one of the
    candidates the criterion still has, which satisfies every requirement
    of the criterion. *)
Theorem resolve_pins_every_criterion reqs max_rounds self' :
  Resolution_resolve Identifier_eq_dec Candidate_eqb Preference_ltb p
    reqs max_rounds Resolution_init = (Return tt, self') ->
  exists s rest,
    _states self' = s :: rest /\
    last (_r self') starting = ending s /\
    forall K c,
      Dict.getitem Identifier_eq_dec K (criteria s) = Some c ->
      exists C,
        Dict.getitem Identifier_eq_dec K (mapping s) = Some C /\
        In C (candidates c) /\
        forall R, In R (iter_requirement c) -> is_satisfied_by p R C = true.
Proof.
  intros H.
  destruct (resolution_resolve_ok Identifier_eq_dec Candidate_eqb Preference_ltb
              p _ _ _ _ H) as (_ & _ & Hsat & _).
  destruct (Hsat eq_refl) as (s & rest & Es & Hall).
  destruct (resolution_resolve_consistent _ _ _ _ H) as (_ & Hf).
  destruct Hf as (roots & _ & Hf); [discriminate|].
  pose proof (resolution_resolve_log _ _ _ _ H) as Hp. cbv beta iota in Hp.
  destruct Hp as (frames & s0 & rest0 & Es0 & _ & Hlog).
  rewrite Es in Es0. injection Es0 as <- <-.
  exists s, rest. split; [exact Es|]. split.
  { rewrite Hlog.
    change (starting :: round_events 0 frames
            ++ [starting_round (Z.of_nat (List.length frames)); ending s])
      with ((starting :: round_events 0 frames
             ++ [starting_round (Z.of_nat (List.length frames))]) ++ [ending s])
      || (rewrite app_comm_cons;
          replace [starting_round (Z.of_nat (List.length frames)); ending s]
            with ([starting_round (Z.of_nat (List.length frames))] ++ [ending s])
            by reflexivity;
          rewrite app_assoc).
    apply last_last. }
  rewrite Es in Hf. inversion Hf as [|? ? (_ & Hadm & _) _]; subst.
  intros K c HK.
  pose proof (Hall _ (getitem_In _ _ _ _ HK)) as Hs.
  pose proof Hs as Hs'. unfold _is_current_pin_satisfying in Hs'.
  destruct (getitem K (mapping s)) as [C|] eqn:Em; [|discriminate].
  exists C. split; [reflexivity|]. split.
  - apply (Hadm K C c Em HK). eapply satisfying_all; eassumption.
  - rewrite forallb_forall in Hs'. exact Hs'.
Qed.

End EngineMore.

(** * The engine on concrete inputs *)

Import Scenario.

(** The resolution of [X >= 1] returns with [orphan_cycle_state] on top of
    the history. *)
Lemma orphan_cycle_resolution :
  exists rest log,
    Resolution_resolve pkg_eq_dec Cand_eqb Nat.ltb
      (provider orphan_cycle_versions orphan_cycle_deps) [(X, Ge, 1)] 100
      Resolution_init
    = (Return tt, {| _states := orphan_cycle_state :: rest; _r := log |}).
Proof. eexists. eexists. vm_compute. reflexivity. Qed.

(** Neither [A] nor [B] has a route to the root there, and the search for
    one goes from [A] to [B] and back at any depth. *)
Lemma orphan_cycle_no_route depth :
  _has_route_to_root pkg_eq_dec Cand_is depth (criteria orphan_cycle_state)
    (Some A) (build_all_keys Cand_is (mapping orphan_cycle_state))
    [None; Some X]
  = (Raise RecursionError, [None; Some X]) /\
  _has_route_to_root pkg_eq_dec Cand_is depth (criteria orphan_cycle_state)
    (Some B) (build_all_keys Cand_is (mapping orphan_cycle_state))
    [None; Some X]
  = (Raise RecursionError, [None; Some X]).
Proof.
  induction depth as [|depth [IHA IHB]]; [split; reflexivity|].
  simpl in IHA, IHB. split; simpl.
  - rewrite IHB. reflexivity.
  - rewrite IHA. reflexivity.
Qed.

(** C2, what the code does.  Scenario 4 of the specification, the root
    requirements [A >= 1] and [A < 1]: the second contribution raises
    [RequirementsConflicted], and what leaves [resolve] is not
    [ResolutionImpossible] but the [AttributeError] of the handler, which
    reads [e.requirements] on an exception that only has [criterion]. *)
Theorem root_conflict_escapes_as_AttributeError limit max_rounds :
  Resolver_resolve pkg_eq_dec Cand_is Cand_eqb Nat.ltb
    (provider backtrack_versions backtrack_deps) limit
    [(A, Ge, 1); (A, Lt, 1)] max_rounds
  = (Raise (AttributeError "requirements"), []).
Proof.
  apply (root_conflict_raises_AttributeError pkg_eq_dec Cand_is Cand_eqb Nat.ltb
           (provider backtrack_versions backtrack_deps) limit
           [(A, Ge, 1)] (A, Lt, 1) [] max_rounds
           [ {| mapping := [];
                criteria :=
                  [(A, {| candidates := [(A, 2); (A, 1)];
                          information :=
                            [ {| requirement := (A, Ge, 1); parent := None |} ];
                          incompatibilities := [] |})] |} ]
           {| candidates := [(A, 2); (A, 1)];
              information := [ {| requirement := (A, Ge, 1); parent := None |} ];
              incompatibilities := [] |});
    reflexivity.
Qed.

(** C3, what the code does.  Exceptions that are no [ResolverException]
    leave [resolve]: the [AttributeError] of a conflict among the root
    requirements; the [KeyError] of [popitem] on the empty mapping of the
    oldest frame, when a candidate whose dependencies contradict each other
    leaves no way back; and, at any recursion limit, the [RecursionError] of
    [_has_route_to_root] on two pinned identifiers that are each other's
    only pinned parent. *)
Theorem other_exceptions_escape :
  (forall limit max_rounds,
     Resolver_resolve pkg_eq_dec Cand_is Cand_eqb Nat.ltb
       (provider backtrack_versions backtrack_deps) limit
       [(A, Ge, 1); (A, Lt, 1)] max_rounds
     = (Raise (AttributeError "requirements"), [])) /\
  resolve dead_end_versions dead_end_deps [(A, Ge, 1)] 100
    = (Raise KeyError, [starting; starting_round 0]) /\
  (forall limit, exists log,
     Resolver_resolve pkg_eq_dec Cand_is Cand_eqb Nat.ltb
       (provider orphan_cycle_versions orphan_cycle_deps) limit
       [(X, Ge, 1)] 100
     = (Raise RecursionError, log)) /\
  is_ResolverException (@AttributeError Req Cand "requirements") = false /\
  is_ResolverException (@KeyError Req Cand) = false /\
  is_ResolverException (@RecursionError Req Cand) = false.
Proof.
  split; [|split; [|split; [|repeat split]]].
  - intros limit max_rounds.
    apply (root_conflict_raises_AttributeError pkg_eq_dec Cand_is Cand_eqb Nat.ltb
             (provider backtrack_versions backtrack_deps) limit
             [(A, Ge, 1)] (A, Lt, 1) [] max_rounds
             [ {| mapping := [];
                  criteria :=
                    [(A, {| candidates := [(A, 2); (A, 1)];
                            information :=
                              [ {| requirement := (A, Ge, 1); parent := None |} ];
                            incompatibilities := [] |})] |} ]
             {| candidates := [(A, 2); (A, 1)];
                information := [ {| requirement := (A, Ge, 1); parent := None |} ];
                incompatibilities := [] |});
      reflexivity.
  - vm_compute. reflexivity.
  - intros limit. destruct orphan_cycle_resolution as (rest & log & E).
    exists log. unfold Resolver_resolve. rewrite E. simpl. f_equal.
    destruct limit as [|limit]; [reflexivity|].
    destruct (orphan_cycle_no_route limit) as [_ HB]. simpl in HB.
    unfold _build_result. simpl.
    change (set_add pkg_eq_dec (Some X) [None]) with [None; Some X].
    rewrite HB. reflexivity.
Qed.

(** C8, what the code does.  No version of [C] is available:
    [find_matches] is empty and [from_requirement] returns a criterion
    without candidates instead of raising [RequirementsConflicted]. *)
Theorem from_requirement_accepts_no_match :
  find_matches (provider dead_end_versions dead_end_deps) (C, Ge, 1) = [] /\
  from_requirement (provider dead_end_versions dead_end_deps) (C, Ge, 1) None
  = Return {| candidates := [];
              information := [ {| requirement := (C, Ge, 1); parent := None |} ];
              incompatibilities := [] |}.
Proof. split; reflexivity. Qed.

(** C4, what the code does.  The root requirement [A >= 1], where [A@1],
    the only candidate, needs both [B >= 1] and [B < 1]: the first round
    cannot pin [A] and backtracks.  After the frame of the round is
    deleted the history is not empty, so that [ResolutionImpossible] is
    not raised; but the mapping of the frame now current has no entry to
    remove, and [popitem] raises [KeyError], which leaves [resolve].  The
    same happens for every trigger on every history whose second frame
    from the top has an empty mapping. *)
Theorem backtrack_raises_KeyError_at_dead_end :
  (forall (trigger : @Criterion Req Cand) top cr rest,
     _backtrack_to_last_workable_state pkg_eq_dec Cand_eqb trigger
       (top :: {| mapping := []; criteria := cr |} :: rest)
     = (Raise KeyError, {| mapping := []; criteria := cr |} :: rest)) /\
  let p := provider dead_end_versions dead_end_deps in
  let root : @State Req Cand pkg :=
    {| mapping := []; criteria := [(A, only_A1)] |} in
  contribute_roots pkg_eq_dec p [(A, Ge, 1)] [ {| mapping := []; criteria := [] |} ]
    = (Return tt, [root]) /\
  _pin_criterion pkg_eq_dec p A only_A1 [root; root]
    = (Return false, [root; root]) /\
  _backtrack_to_last_workable_state pkg_eq_dec Cand_eqb only_A1 [root; root]
    = (Raise KeyError, [root]) /\
  resolve dead_end_versions dead_end_deps [(A, Ge, 1)] 100
    = (Raise KeyError, [starting; starting_round 0]).
Proof.
  split.
  - intros trigger top cr rest.
    unfold _backtrack_to_last_workable_state, backtrack_frames. reflexivity.
  - cbv zeta. split; [reflexivity|]. split; [vm_compute; reflexivity|].
    split; [reflexivity|]. vm_compute. reflexivity.
Qed.

(** The trigger on a hand-built history.  [resolve] never builds a history
    whose oldest frame holds a pin; on one that does, when [excluded_of]
    raises on the way down and the history runs out, the code reports the
    requirements of the criterion it was called with (here the one of [B]),
    where the pseudo-code of the specification reports those of the
    conflicted criterion (here the one of [A]). *)
Lemma backtrack_keeps_its_trigger :
  excluded_of Cand_eqb only_A1 (A, 1) = Raise (RequirementsConflicted only_A1) /\
  _backtrack_to_last_workable_state pkg_eq_dec Cand_eqb only_B1
    [pinned_A1; pinned_A1]
  = (Raise (ResolutionImpossible [(B, Ge, 1)]), []) /\
  spec_backtrack pkg_eq_dec Cand_eqb only_B1 [pinned_A1; pinned_A1]
  = (Raise (ResolutionImpossible [(A, Ge, 1)]), []) /\
  _backtrack_to_last_workable_state pkg_eq_dec Cand_eqb only_B1
    [pinned_A1; pinned_A1]
  <> spec_backtrack pkg_eq_dec Cand_eqb only_B1 [pinned_A1; pinned_A1].
Proof.
  split; [reflexivity|]. split; [reflexivity|]. split; [reflexivity|].
  vm_compute. discriminate.
Qed.

(** ** The theorems at concrete inputs *)

(** The resolution that backtracks out of [X@1]: [X] ends pinned to [X@2],
    which satisfies [X >= 1] and differs from the incompatibility [X@1]. *)
Lemma pinning_sound_witness :
  exists res log,
    resolve detour_versions detour_deps detour_requirements 100
      = (Return res, log) /\
    Dict.getitem pkg_eq_dec X (result_mapping res) = Some (X, 2) /\
    exists crit,
      Dict.getitem pkg_eq_dec X (result_criteria res) = Some crit /\
      (forall R, In R (iter_requirement crit) ->
         is_satisfied_by (provider detour_versions detour_deps) R (X, 2) = true) /\
      (forall i, In i (incompatibilities crit) -> Cand_eqb (X, 2) i = false) /\
      ((forall x, Cand_eqb x x = true) -> ~ In (X, 2) (incompatibilities crit)).
Proof.
  eexists. eexists.
  split; [vm_compute; reflexivity|].
  split; [vm_compute; reflexivity|].
  apply (pinning_sound pkg_eq_dec Cand_is Cand_eqb Nat.ltb
           (provider detour_versions detour_deps) 1000 detour_requirements 100
           _ _ ltac:(vm_compute; reflexivity) X (X, 2)
           ltac:(vm_compute; reflexivity)).
Defined.

Lemma disjointness_invariant_witness :
  exists o self',
    Resolution_resolve pkg_eq_dec Cand_eqb Nat.ltb
      (provider detour_versions detour_deps) detour_requirements 100
      Resolution_init = (o, self') /\
    forall s K c, In s (_states self') -> In (K, c) (criteria s) ->
                  crit_disjoint Cand_eqb c.
Proof.
  eexists. eexists.
  split; [vm_compute; reflexivity|].
  apply (disjointness_invariant pkg_eq_dec Cand_is Cand_eqb Nat.ltb
           (provider detour_versions detour_deps) detour_requirements 100
           _ _ ltac:(vm_compute; reflexivity)).
Defined.

(** [B@1] asks for [C < 2] where only [C@2] is left: not pinnable, and the
    frame is untouched. *)
Lemma check_pinnability_atomic_witness :
  Dict.wf (criteria needs_C2) /\
  exists b s',
    _check_pinnability pkg_eq_dec (provider backtrack_versions backtrack_deps)
      (B, 1) [needs_C2] = (Return b, [s']) /\
    mapping s' = mapping needs_C2 /\
    (b = false -> s' = needs_C2) /\
    (b = false <->
     exists pre R post states1 conflicted,
       get_dependencies (provider backtrack_versions backtrack_deps) (B, 1)
         = pre ++ R :: post /\
       contribute_subdeps pkg_eq_dec (provider backtrack_versions backtrack_deps)
         (B, 1) pre [needs_C2] = (Return tt, states1) /\
       _contribute_to_criteria pkg_eq_dec
         (provider backtrack_versions backtrack_deps)
         (identify (provider backtrack_versions backtrack_deps) R) R
         (Some (B, 1)) states1
       = (Raise (RequirementsConflicted conflicted), states1)) /\
    (b = true <->
     contribute_subdeps pkg_eq_dec (provider backtrack_versions backtrack_deps)
       (B, 1)
       (get_dependencies (provider backtrack_versions backtrack_deps) (B, 1))
       [needs_C2] = (Return tt, [s'])).
Proof.
  assert (Hwf : Dict.wf (criteria needs_C2)).
  { unfold Dict.wf. simpl. constructor; [intros [] | constructor]. }
  split; [exact Hwf|].
  exact (check_pinnability_atomic pkg_eq_dec
           (provider backtrack_versions backtrack_deps) (B, 1) needs_C2 [] Hwf).
Defined.

(** Undoing [X@1] where [X@2] is left: one frame is deleted, the pin is
    removed and [X@1] becomes an incompatibility. *)
Lemma backtrack_behaviour_witness :
  mapping pinned_X1 = [] ++ [(X, (X, 1))] /\
  Dict.getitem pkg_eq_dec X (criteria pinned_X1) = Some both_X /\
  excluded_of Cand_eqb both_X (X, 1)
    = Return {| candidates := [(X, 2)];
                information := information both_X;
                incompatibilities := [(X, 1)] |} /\
  _backtrack_to_last_workable_state pkg_eq_dec Cand_eqb only_B1
    [pinned_X1; pinned_X1]
  = (Return tt,
     [ {| mapping := [];
          criteria :=
            Dict.setitem pkg_eq_dec X
              {| candidates := [(X, 2)];
                 information := information both_X;
                 incompatibilities := [(X, 1)] |}
              (criteria pinned_X1) |} ]).
Proof.
  split; [reflexivity|]. split; [reflexivity|]. split; [reflexivity|].
  exact (proj1 (proj2 (backtrack_behaviour pkg_eq_dec Cand_eqb only_B1 pinned_X1)
                  pinned_X1 [] X (X, 1) [] both_X eq_refl eq_refl)
           _ eq_refl).
Defined.

Lemma resolve_no_requirements_witness :
  (1 <= 1)%Z /\
  resolve dead_end_versions dead_end_deps [] 1
  = (Return {| result_mapping := [];
               result_graph := {| vertices := [None]; edges := [] |};
               result_criteria := [] |},
     [starting; starting_round 0; ending {| mapping := []; criteria := [] |}]).
Proof.
  split; [lia|].
  apply (resolve_no_requirements pkg_eq_dec Cand_is Cand_eqb Nat.ltb
           (provider dead_end_versions dead_end_deps) 1000 1).
  lia.
Defined.

(** [X >= 2] merged into the criterion of [X]. *)
Lemma merged_with_spec_witness :
  filter (is_satisfied_by (provider detour_versions detour_deps) (X, Ge, 2))
         (candidates both_X) <> [] /\
  merged_with (provider detour_versions detour_deps) both_X (X, Ge, 2)
    (Some (D, 1))
  = Return {| candidates := [(X, 2)];
              information :=
                information both_X
                ++ [ {| requirement := (X, Ge, 2); parent := Some (D, 1) |} ];
              incompatibilities := [] |}.
Proof.
  assert (H : filter (is_satisfied_by (provider detour_versions detour_deps)
                        (X, Ge, 2)) (candidates both_X) <> [])
    by (simpl; discriminate).
  split; [exact H|].
  exact (proj1 (proj2 (merged_with_spec (provider detour_versions detour_deps)
                         both_X (X, Ge, 2) (Some (D, 1)))) H).
Defined.

(** [X@1] excluded from the criterion of [X]. *)
Lemma excluded_of_spec_witness :
  filter (fun c => negb (Cand_eqb c (X, 1))) (candidates both_X) <> [] /\
  excluded_of Cand_eqb both_X (X, 1)
  = Return {| candidates := [(X, 2)];
              information := information both_X;
              incompatibilities := [] ++ [(X, 1)] |}.
Proof.
  assert (H : filter (fun c => negb (Cand_eqb c (X, 1))) (candidates both_X) <> [])
    by (simpl; discriminate).
  split; [exact H|].
  exact (proj1 (proj2 (excluded_of_spec Cand_eqb both_X (X, 1))) H).
Defined.

(** ** The further theorems at concrete inputs *)

(** The dead end without a way back: what leaves [resolve] is a
    [KeyError]. *)
Lemma resolve_escaping_exceptions_witness :
  resolve dead_end_versions dead_end_deps [(A, Ge, 1)] 100
    = (Raise KeyError, [starting; starting_round 0]) /\
  (@KeyError Req Cand = AttributeError "requirements" \/
   @KeyError Req Cand = ResolutionTooDeep 100 \/
   @KeyError Req Cand = KeyError \/ @KeyError Req Cand = RecursionError) /\
  (is_ResolverException (@KeyError Req Cand) = true ->
   @KeyError Req Cand = ResolutionTooDeep 100) /\
  (forall requirements, @KeyError Req Cand <> ResolutionImpossible requirements).
Proof.
  split; [vm_compute; reflexivity|].
  apply (resolve_escaping_exceptions pkg_eq_dec Cand_is Cand_eqb Nat.ltb
           (provider dead_end_versions dead_end_deps) 1000 [(A, Ge, 1)] 100
           KeyError [starting; starting_round 0]).
  vm_compute. reflexivity.
Defined.

Lemma resolve_reporter_protocol_witness :
  exists self',
    Resolution_resolve pkg_eq_dec Cand_eqb Nat.ltb
      (provider detour_versions detour_deps) detour_requirements 100
      Resolution_init = (Return tt, self') /\
    exists frames s rest,
      _states self' = s :: rest /\
      (Z.of_nat (List.length frames) < 100)%Z /\
      _r self' =
      starting :: round_events 0 frames
      ++ [starting_round (Z.of_nat (List.length frames)); ending s].
Proof.
  eexists. split; [vm_compute; reflexivity|].
  exact (resolve_reporter_protocol pkg_eq_dec Cand_eqb Nat.ltb
           (provider detour_versions detour_deps) detour_requirements 100
           (Return tt) _ ltac:(vm_compute; reflexivity)).
Defined.

(** [X@1], the last candidate listed, has no dependency: it is pinned. *)
Lemma pin_criterion_selects_witness :
  Dict.wf (criteria pinned_X1) /\
  exists cand cr',
    In cand (candidates both_X) /\
    _pin_criterion pkg_eq_dec (provider detour_versions detour_deps) X both_X
      [pinned_X1]
    = (Return true,
       [ {| mapping := Dict.pop pkg_eq_dec X (mapping pinned_X1) ++ [(X, cand)];
            criteria := cr' |} ]).
Proof.
  assert (Hwf : Dict.wf (criteria pinned_X1)).
  { unfold Dict.wf. simpl.
    constructor; [intros [H|[]]; discriminate|].
    constructor; [intros [] | constructor]. }
  split; [exact Hwf|].
  destruct (pin_criterion_selects pkg_eq_dec (provider detour_versions detour_deps)
              X both_X pinned_X1 [] Hwf)
    as [[H _]|(before & cand & after & cr' & Hc & _ & _ & H)].
  - vm_compute in H. discriminate.
  - exists cand, cr'. split; [|exact H].
    rewrite Hc. apply in_or_app. right. now left.
Defined.

(** [X@2] asks for [A >= 2], where [A] has no criterion yet. *)
Lemma check_pinnability_narrows_witness :
  Dict.wf (criteria pinned_X1) /\
  exists b s',
    _check_pinnability pkg_eq_dec (provider detour_versions detour_deps) (X, 2)
      [pinned_X1] = (Return b, [s']) /\
    (forall k c,
       Dict.getitem pkg_eq_dec k (criteria pinned_X1) = Some c ->
       exists c' more,
         Dict.getitem pkg_eq_dec k (criteria s') = Some c' /\
         information c' = information c ++ more /\
         candidates c'
           = filter (satisfies_all (provider detour_versions detour_deps) more)
                    (candidates c) /\
         incompatibilities c' = incompatibilities c) /\
    (forall k c',
       Dict.getitem pkg_eq_dec k (criteria pinned_X1) = None ->
       Dict.getitem pkg_eq_dec k (criteria s') = Some c' ->
       exists R par more,
         information c' = {| requirement := R; parent := par |} :: more /\
         candidates c'
           = filter (satisfies_all (provider detour_versions detour_deps) more)
                    (find_matches (provider detour_versions detour_deps) R) /\
         incompatibilities c' = []).
Proof.
  assert (Hwf : Dict.wf (criteria pinned_X1)).
  { unfold Dict.wf. simpl.
    constructor; [intros [H|[]]; discriminate|].
    constructor; [intros [] | constructor]. }
  split; [exact Hwf|].
  eexists. eexists. split; [vm_compute; reflexivity|].
  exact (check_pinnability_narrows pkg_eq_dec
           (provider detour_versions detour_deps) (X, 2) pinned_X1 [] _ _ Hwf
           ltac:(vm_compute; reflexivity)).
Defined.

Lemma result_records_roots_witness :
  exists res log,
    resolve detour_versions detour_deps detour_requirements 100
      = (Return res, log) /\
    forall R, In R detour_requirements ->
      exists c,
        Dict.getitem pkg_eq_dec
          (identify (provider detour_versions detour_deps) R)
          (result_criteria res) = Some c /\
        In {| requirement := R; parent := None |} (information c).
Proof.
  eexists. eexists. split; [vm_compute; reflexivity|].
  exact (result_records_roots pkg_eq_dec Cand_is Cand_eqb Nat.ltb
           (provider detour_versions detour_deps) 1000 detour_requirements 100
           _ _ ltac:(vm_compute; reflexivity)).
Defined.

Lemma pin_is_a_remaining_candidate_witness :
  exists res log,
    resolve detour_versions detour_deps detour_requirements 100
      = (Return res, log) /\
    forall K C,
      Dict.getitem pkg_eq_dec K (result_mapping res) = Some C ->
      exists c first later,
        Dict.getitem pkg_eq_dec K (result_criteria res) = Some c /\
        In C (candidates c) /\
        information c = first :: later /\
        In C (find_matches (provider detour_versions detour_deps)
                (requirement first)).
Proof.
  eexists. eexists. split; [vm_compute; reflexivity|].
  exact (pin_is_a_remaining_candidate pkg_eq_dec Cand_is Cand_eqb Nat.ltb
           (provider detour_versions detour_deps) 1000 detour_requirements 100
           _ _ ltac:(vm_compute; reflexivity)).
Defined.

Lemma returned_criteria_are_consistent_witness :
  exists res log,
    resolve detour_versions detour_deps detour_requirements 100
      = (Return res, log) /\
    forall K c,
      Dict.getitem pkg_eq_dec K (result_criteria res) = Some c ->
      candidates c <> [] /\
      exists first later,
        information c = first :: later /\
        forall x, In x (candidates c) ->
          In x (find_matches (provider detour_versions detour_deps)
                  (requirement first)) /\
          forall ri, In ri later ->
            is_satisfied_by (provider detour_versions detour_deps)
              (requirement ri) x = true.
Proof.
  eexists. eexists. split; [vm_compute; reflexivity|].
  exact (returned_criteria_are_consistent pkg_eq_dec Cand_is Cand_eqb Nat.ltb
           (provider detour_versions detour_deps) 1000 detour_requirements 100
           _ _ ltac:(vm_compute; reflexivity)).
Defined.

Lemma resolution_is_one_shot_witness :
  exists o self',
    Resolution_resolve pkg_eq_dec Cand_eqb Nat.ltb
      (provider detour_versions detour_deps) detour_requirements 100
      Resolution_init = (o, self') /\
    _states self' <> [] /\
    Resolution_resolve pkg_eq_dec Cand_eqb Nat.ltb
      (provider detour_versions detour_deps) [] 1 self'
    = (Raise (RuntimeError "already resolved"), self').
Proof.
  eexists. eexists. split; [vm_compute; reflexivity|].
  exact (resolution_is_one_shot pkg_eq_dec Cand_eqb Nat.ltb
           (provider detour_versions detour_deps) detour_requirements 100
           _ _ [] 1 ltac:(vm_compute; reflexivity)).
Defined.

Lemma result_graph_is_justified_witness :
  exists res,
    _build_result pkg_eq_dec Cand_is 1000 detour_state = Return res /\
    In None (vertices (result_graph res)) /\
    forall u v, In (u, v) (edges (result_graph res)) ->
      In u (vertices (result_graph res)) /\
      In v (vertices (result_graph res)) /\
      exists k c par,
        v = Some k /\ In (k, c) (result_criteria res) /\ In par (iter_parent c) /\
        match par with
        | None => u = None
        | Some cand => exists k', u = Some k' /\ In (k', cand) (mapping detour_state)
        end.
Proof.
  eexists. split; [vm_compute; reflexivity|].
  exact (result_graph_is_justified pkg_eq_dec Cand_is 1000 detour_state _
           ltac:(vm_compute; reflexivity)).
Defined.

Lemma result_mapping_reaches_root_witness :
  exists res,
    _build_result pkg_eq_dec Cand_is 1000 detour_state = Return res /\
    forall K C0,
      Dict.getitem pkg_eq_dec K (result_mapping res) = Some C0 ->
      Dict.getitem pkg_eq_dec K (mapping detour_state) = Some C0 /\
      reaches_root pkg_eq_dec detour_state K.
Proof.
  eexists. split; [vm_compute; reflexivity|].
  exact (result_mapping_reaches_root pkg_eq_dec Cand_is 1000 detour_state _
           ltac:(vm_compute; reflexivity)).
Defined.

Lemma roots_are_pinned_witness :
  exists res log,
    resolve detour_versions detour_deps detour_requirements 100
      = (Return res, log) /\
    forall R, In R detour_requirements ->
      exists C0,
        Dict.getitem pkg_eq_dec
          (identify (provider detour_versions detour_deps) R)
          (result_mapping res) = Some C0 /\
        is_satisfied_by (provider detour_versions detour_deps) R C0 = true /\
        In (Some (identify (provider detour_versions detour_deps) R))
           (vertices (result_graph res)) /\
        In (None, Some (identify (provider detour_versions detour_deps) R))
           (edges (result_graph res)).
Proof.
  eexists. eexists. split; [vm_compute; reflexivity|].
  exact (roots_are_pinned pkg_eq_dec Cand_is Cand_eqb Nat.ltb
           (provider detour_versions detour_deps) 1000 detour_requirements 100
           _ _ ltac:(vm_compute; reflexivity)).
Defined.

(** [C], which no root requirement names, reaches the root through [B@1]
    and keeps its pin. *)
Lemma result_mapping_keeps_reachable_witness :
  exists res,
    _build_result pkg_eq_dec Cand_is 1000 detour_state = Return res /\
    NoDup (map snd (mapping detour_state)) /\
    Dict.getitem pkg_eq_dec C (mapping detour_state) = Some (C, 1) /\
    reaches_root pkg_eq_dec detour_state C /\
    Dict.getitem pkg_eq_dec C (result_mapping res) = Some (C, 1).
Proof.
  assert (Hnd : NoDup (map snd (mapping detour_state))).
  { simpl. repeat constructor; simpl; intros H;
      repeat (destruct H as [H|H]; [discriminate|]); exact H. }
  assert (HB : reaches_root pkg_eq_dec detour_state B).
  { eapply reaches_direct; [reflexivity|]. simpl. now left. }
  assert (HC : reaches_root pkg_eq_dec detour_state C).
  { eapply (reaches_via pkg_eq_dec detour_state C _ (B, 1) B);
      [reflexivity | simpl; now left | simpl; tauto | exact HB]. }
  eexists. split; [vm_compute; reflexivity|].
  split; [exact Hnd|]. split; [reflexivity|]. split; [exact HC|].
  exact (result_mapping_keeps_reachable pkg_eq_dec Cand_is 1000 detour_state _
           ltac:(vm_compute; reflexivity) Hnd C (C, 1) eq_refl HC).
Defined.

(** With [X@1] pinned, the criterion of [B] is the one still to pin. *)
Lemma round_selects_least_preferred_witness :
  (forall a, Nat.ltb a a = false) /\
  (forall x y z, Nat.ltb x y = true -> Nat.ltb y z = true -> Nat.ltb x z = true) /\
  exists name criterion,
    In (name, criterion) (criteria pinned_X1) /\
    _is_current_pin_satisfying pkg_eq_dec (provider detour_versions detour_deps)
      pinned_X1 (name, criterion) = false /\
    forall item, In item (criteria pinned_X1) ->
      _is_current_pin_satisfying pkg_eq_dec (provider detour_versions detour_deps)
        pinned_X1 item = false ->
      Nat.ltb
        (_get_criterion_item_preference pkg_eq_dec
           (provider detour_versions detour_deps) pinned_X1 item)
        (_get_criterion_item_preference pkg_eq_dec
           (provider detour_versions detour_deps) pinned_X1 (name, criterion))
      = false.
Proof.
  assert (Hirr : forall a, Nat.ltb a a = false) by apply Nat.ltb_irrefl.
  assert (Htr : forall x y z, Nat.ltb x y = true -> Nat.ltb y z = true ->
                              Nat.ltb x z = true).
  { intros x y z Hxy Hyz. apply Nat.ltb_lt in Hxy, Hyz. apply Nat.ltb_lt. lia. }
  split; [exact Hirr|]. split; [exact Htr|].
  destruct (round_selects_least_preferred pkg_eq_dec Cand_eqb Nat.ltb
              (provider detour_versions detour_deps) 100 99 0 pinned_X1 [] []
              Hirr Htr)
    as [[Hall _]|(name & criterion & Hin & Hs & Hmin & _)].
  - specialize (Hall (B, only_B1) ltac:(simpl; tauto)).
    vm_compute in Hall. discriminate.
  - exists name, criterion. split; [exact Hin|]. split; [exact Hs | exact Hmin].
Defined.

Lemma resolve_without_rounds_witness :
  (0 <= 0)%Z /\
  (resolve detour_versions detour_deps detour_requirements 0
     = (Raise (AttributeError "requirements"), []) \/
   resolve detour_versions detour_deps detour_requirements 0
     = (Raise (ResolutionTooDeep 0), [starting])).
Proof.
  split; [lia|].
  apply (resolve_without_rounds pkg_eq_dec Cand_is Cand_eqb Nat.ltb
           (provider detour_versions detour_deps) 1000 detour_requirements 0).
  lia.
Defined.

Lemma resolve_pins_every_criterion_witness :
  exists self',
    Resolution_resolve pkg_eq_dec Cand_eqb Nat.ltb
      (provider detour_versions detour_deps) detour_requirements 100
      Resolution_init = (Return tt, self') /\
    exists s rest,
      _states self' = s :: rest /\
      last (_r self') starting = ending s /\
      forall K c,
        Dict.getitem pkg_eq_dec K (criteria s) = Some c ->
        exists C0,
          Dict.getitem pkg_eq_dec K (mapping s) = Some C0 /\
          In C0 (candidates c) /\
          forall R, In R (iter_requirement c) ->
            is_satisfied_by (provider detour_versions detour_deps) R C0 = true.
Proof.
  eexists. split; [vm_compute; reflexivity|].
  exact (resolve_pins_every_criterion pkg_eq_dec Cand_eqb Nat.ltb
           (provider detour_versions detour_deps) detour_requirements 100
           _ ltac:(vm_compute; reflexivity)).
Defined.
